(** * Garden Pets: behaviour core of the pet simulation

    A shallow embedding of the simulation core of the repository:
    - [pets-core/utils.js]            steering helpers ([clamp], [lerp], [pick],
                                      [randRange], [dampAngle], [noise1D]);
    - [pets-core/ai/social.js]        social state, chase episode, separation;
    - [pets-core/ai/brain.js]         the per-pet state machine and the movement
                                      calculation;
    - [pets-core/components/Pet.jsx]  the per-frame integration and the love decay;
    - [pets-core/context/PetContext.jsx] the roster operations;
    - [pets-core/memory/guardian.js]  the memory registry (guardian
                                      assignments);
    - [pets-core/environment/restSpots.js] occupancy of the rest spots;
    - [GardenPets.jsx], [PetManager]  the per-frame coordinator (snapshot, chase
                                      arbitration, greet scan).

    Numbers.  JavaScript numbers are IEEE doubles.  The coordinator, the brain
    and the roster only add, multiply, compare and floor, so they are modelled
    over the rationals [Q] and stay executable.  The steering code needs
    [Math.sqrt], [Math.pow], [Math.sin] and pi, and is modelled over the reals
    [R].  Rounding and overflow are outside both models.

    Randomness.  [Math.random()] reads the next element of an explicit stream
    of draws, threaded through a small state-and-error monad. *)

From Stdlib Require Import QArith Qround Qminmax ZArith Lia Lra Lqa.
From Stdlib Require Import Reals.
From Stdlib Require Import Ascii String List.
From stdpp Require Import gmap strings.

Local Open Scope string_scope.
Local Open Scope Q_scope.

(** ** Behaviour modes ([BrainState.mode]) *)

Inductive Mode : Type :=
  | wandering | socializing | resting | curious | held
  | chasing | running | sleeping | following.

Definition Mode_eqb (a b : Mode) : bool :=
  match a, b with
  | wandering, wandering | socializing, socializing | resting, resting
  | curious, curious | held, held | chasing, chasing | running, running
  | sleeping, sleeping | following, following => true
  | _, _ => false
  end.

(** ** Rational comparisons as booleans *)

Definition Qltb (x y : Q) : bool := negb (Qle_bool y x).
Definition Qgtb (x y : Q) : bool := Qltb y x.
Definition Qgeb (x y : Q) : bool := Qle_bool y x.

(** ** The source of randomness

    [Draws] is the sequence of values [Math.random()] returns; a computation
    reads it from a cursor, the number of draws consumed so far. *)

Definition Draws : Type := nat -> Q.

Definition draws_valid (ds : Draws) : Prop :=
  forall n : nat, 0 <= ds n /\ ds n < 1.

(** A computation reads draws and may throw (a JavaScript [TypeError]). *)
Definition M (A : Type) : Type := Draws -> nat -> option (A * nat).

Definition ret {A : Type} (a : A) : M A := fun _ n => Some (a, n).
Definition throw {A : Type} : M A := fun _ _ => None.
Definition bind {A B : Type} (m : M A) (k : A -> M B) : M B :=
  fun ds n => match m ds n with
              | Some (a, n') => k a ds n'
              | None => None
              end.

Notation "'let*' x ':=' m 'in' k" := (bind m (fun x => k))
  (at level 10, x name, m at level 100, k at level 200).

(** [Math.random()] *)
Definition random : M Q := fun ds n => Some (ds n, S n).

(** The result of a run, or [d] with the cursor unmoved if it throws. *)
Definition runOr {A : Type} (m : M A) (ds : Draws) (n : nat) (d : A) : A * nat :=
  match m ds n with
  | Some r => r
  | None => (d, n)
  end.

Definition constDraws (q : Q) : Draws := fun _ => q.

(** ** [pets-core/utils.js] over the rationals *)

Module Utils.

(** [clamp = (v, a, b) => Math.max(a, Math.min(b, v))] *)
Definition clamp (v a b : Q) : Q := Qmax a (Qmin b v).

(** [lerp = (a, b, t) => a + (b - a) * t] *)
Definition lerp (a b t : Q) : Q := a + (b - a) * t.

(** [arr[Math.floor(Math.random() * arr.length)]]; an index outside the
    array reads [undefined]. *)
Definition pick {A : Type} (arr : list A) : M (option A) :=
  let* r := random in
  ret (match Qfloor (r * inject_Z (Z.of_nat (List.length arr))) with
       | Zneg _ => None
       | i => nth_error arr (Z.to_nat i)
       end).

(** [randRange(a, b) = lerp(a, b, Math.random())] *)
Definition randRange (a b : Q) : M Q :=
  let* r := random in ret (lerp a b r).

End Utils.

(** A [THREE.Vector3] (or a plain [{x, y, z}] object) over the number model
    [N]: [Q] in the coordinator and the brain, [R] in the steering code. *)
Record Vec3 {N : Type} : Type := { vec_x : N; vec_y : N; vec_z : N }.
Arguments Vec3 : clear implicits.

Definition vec0 : Vec3 Q := {| vec_x := 0; vec_y := 0; vec_z := 0 |}.

(** The value of [Math.atan2(dx, dz)] is not rational: a yaw is kept either
    as a plain number or as the pair of arguments of the [atan2] call that
    produced it. *)
Inductive Yaw : Type :=
  | YawNum (q : Q)
  | YawAtan2 (dx dz : Q).

(** ** Tuning constants ([PERSONALITY], [SOCIAL_CONFIG], [BASE_Y]) *)

Module PERSONALITY.
Definition curiosityChancePerS : Q := 11 # 100.
Definition curiosityDuration : Q * Q := (12 # 10, 22 # 10).
Definition restChancePerS : Q := 10 # 100.
Definition restDuration : Q * Q := (26 # 10, 48 # 10).
Definition restAfterWalkS : Q := 10.
Definition chaseChancePerS : Q := 4 # 100.
Definition chaseDuration : Q * Q := (38 # 10, 52 # 10).
Definition sleepAfterNoInteractS : Q := 22.
End PERSONALITY.

Definition SOCIAL_DISTANCE : Q := 2.
Definition SOCIAL_COOLDOWN_S : Q := 10.
Definition SOCIAL_CHECK_EVERY_FRAMES : Z := 30.
Definition BASE_Y : Q := 55 # 100.

(** ** Roster entries and per-pet runtime state *)

(** A pet of the roster ([petsRef.current]); only the fields the simulation
    core reads are kept. *)
Record PetEntry : Type := {
  pet_id : string;
  pet_speciesKey : string
}.

(** [BrainState] of [ai/brain.js]. *)
Record BrainState {N : Type} : Type := {
  mode : Mode;
  t : N;
  seed : N;
  walkS : N;
  restSpot : Vec3 N;
  lastInteractAt : N
}.
Arguments BrainState : clear implicits.

(** [SocialState] of [ai/social.js]. *)
Record SocialState : Type := {
  active : bool;
  until : Q;
  partnerId : option string;
  partnerPos : Vec3 Q;
  facePartnerYaw : Yaw
}.

(** [ChaseMode] of [ai/social.js]; [null] ids are [None]. *)
Record ChaseMode {N : Type} : Type := {
  chase_active : bool;
  chase_until : N;
  chaserId : option string;
  runnerId : option string;
  runnerPos : Vec3 N;
  chaserPos : Vec3 N
}.
Arguments ChaseMode : clear implicits.

(** What [getPose] returns and the snapshot stores. *)
Record Pose : Type := {
  pose_x : Q;
  pose_z : Q;
  pose_yaw : Q;
  pose_mode : Mode;
  pose_speciesKey : string
}.

(** [id === chaseMode.chaserId] where the right-hand side may be [null]. *)
Definition idIs (id : string) (o : option string) : bool :=
  match o with
  | Some i => String.eqb id i
  | None => false
  end.

(** Reading a property of [undefined] throws. *)
Definition defined {A : Type} (o : option A) : M A :=
  match o with
  | Some a => ret a
  | None => throw
  end.

(** ** [pets-core/ai/social.js] *)

Module Social.

Definition createSocialState : SocialState :=
  {| active := false; until := 0; partnerId := None;
     partnerPos := vec0; facePartnerYaw := YawNum 0 |}.

Definition createChaseMode : ChaseMode Q :=
  {| chase_active := false; chase_until := 0; chaserId := None;
     runnerId := None; runnerPos := vec0; chaserPos := vec0 |}.

(** Returns the updated state and whether the interaction just ended. *)
Definition updateSocialState (social : SocialState) (time : Q)
  : SocialState * bool :=
  if active social && Qgtb time (until social) then
    ({| active := false; until := until social; partnerId := None;
        partnerPos := partnerPos social;
        facePartnerYaw := facePartnerYaw social |}, true)
  else (social, false).

Definition greetDuration : Q * Q := (105 # 100, 15 # 10).

(** [startSocialInteraction]; the two updated states are returned in the
    order of the arguments. *)
Definition startSocialInteraction (socialA socialB : SocialState)
    (posA posB : Q * Q) (idA idB : string) (time baseY : Q)
  : M (SocialState * SocialState) :=
  let* duration := Utils.randRange (fst greetDuration) (snd greetDuration) in
  let until' := time + duration in
  ret ({| active := true; until := until'; partnerId := Some idB;
          partnerPos := {| vec_x := fst posB; vec_y := baseY; vec_z := snd posB |};
          facePartnerYaw := YawAtan2 (fst posB - fst posA) (snd posB - snd posA) |},
       {| active := true; until := until'; partnerId := Some idA;
          partnerPos := {| vec_x := fst posA; vec_y := baseY; vec_z := snd posA |};
          facePartnerYaw := YawAtan2 (fst posA - fst posB) (snd posA - snd posB) |}).

(** The retry loop [while (b.id === a.id && guard++ < limit) b = pick(pets)];
    [remaining] is [limit - guard]. *)
Fixpoint redraw (remaining : nat) (pets : list PetEntry) (a b : PetEntry)
  : M PetEntry :=
  match remaining with
  | O => ret b
  | S k =>
      if String.eqb (pet_id b) (pet_id a) then
        let* b' := Utils.pick pets in
        let* b'' := defined b' in
        redraw k pets a b''
      else ret b
  end.

(** [maybeStartChase(chaseMode, pets, time)] *)
Definition maybeStartChase (chaseMode : ChaseMode Q) (pets : list PetEntry)
    (time : Q) : M (bool * ChaseMode Q) :=
  if chase_active chaseMode then ret (false, chaseMode)
  else if (List.length pets <? 2)%nat then ret (false, chaseMode)
  else
    let* r := random in
    if Qgeb r (PERSONALITY.chaseChancePerS * (1 / 60)) then ret (false, chaseMode)
    else
      let* a' := Utils.pick pets in
      let* a := defined a' in
      let* b' := Utils.pick pets in
      let* b0 := defined b' in
      let* b := redraw 6 pets a b0 in
      if String.eqb (pet_id b) (pet_id a) then ret (false, chaseMode)
      else
        let* d := Utils.randRange (fst PERSONALITY.chaseDuration)
                                  (snd PERSONALITY.chaseDuration) in
        ret (true,
             {| chase_active := true; chase_until := time + d;
                chaserId := Some (pet_id a); runnerId := Some (pet_id b);
                runnerPos := runnerPos chaseMode;
                chaserPos := chaserPos chaseMode |}).

(** [updateChaseMode(chaseMode, posMap, time, baseY)]; of a pose in
    [posMap] only [x] and [z] are read.  [posMap.get(null)] finds
    nothing. *)
Definition updateChaseMode (chaseMode : ChaseMode Q) (posMap : gmap string Pose)
    (time baseY : Q) : ChaseMode Q :=
  if negb (chase_active chaseMode) then chaseMode
  else
    let chaserPos' := chaserId chaseMode ≫= fun i => posMap !! i in
    let runnerPos' := runnerId chaseMode ≫= fun i => posMap !! i in
    let cpos := match chaserPos' with
                | Some p => {| vec_x := pose_x p; vec_y := baseY; vec_z := pose_z p |}
                | None => chaserPos chaseMode
                end in
    let rpos := match runnerPos' with
                | Some p => {| vec_x := pose_x p; vec_y := baseY; vec_z := pose_z p |}
                | None => runnerPos chaseMode
                end in
    if Qgtb time (chase_until chaseMode) then
      {| chase_active := false; chase_until := chase_until chaseMode;
         chaserId := None; runnerId := None;
         runnerPos := rpos; chaserPos := cpos |}
    else
      {| chase_active := true; chase_until := chase_until chaseMode;
         chaserId := chaserId chaseMode; runnerId := runnerId chaseMode;
         runnerPos := rpos; chaserPos := cpos |}.

(** [isWithinSocialDistance(posA, posB)] *)
Definition isWithinSocialDistance (posA posB : Q * Q) : bool :=
  let dx := fst posA - fst posB in
  let dz := snd posA - snd posB in
  let d2 := dx * dx + dz * dz in
  Qltb d2 (SOCIAL_DISTANCE * SOCIAL_DISTANCE).

(** [getPairKey(idA, idB)]: JavaScript compares strings code unit by code
    unit, [String.ltb] byte by byte. *)
Definition getPairKey (idA idB : string) : string :=
  if String.ltb idA idB
  then String.append idA (String.append "|" idB)
  else String.append idB (String.append "|" idA).

End Social.

(** ** The state a [GardenPet] component keeps in its refs *)

Record PetRuntime : Type := {
  rt_pos : Vec3 Q;
  rt_yaw : Q;
  rt_held : bool;
  rt_brain : BrainState Q;
  rt_social : SocialState;
  rt_speciesKey : string
}.

(** The API a pet registers with the manager ([registerAPI]). *)
Module PetAPI.

Definition getPose (rt : PetRuntime) : Pose :=
  {| pose_x := vec_x (rt_pos rt); pose_z := vec_z (rt_pos rt);
     pose_yaw := rt_yaw rt; pose_mode := mode (rt_brain rt);
     pose_speciesKey := rt_speciesKey rt |}.

(** [setSocial({ active, until, partnerId, partnerPos })] *)
Definition setSocial (act : bool) (unt : Q) (partner : option string)
    (ppos : option (Vec3 Q)) (rt : PetRuntime) : PetRuntime :=
  let s := rt_social rt in
  {| rt_pos := rt_pos rt; rt_yaw := rt_yaw rt; rt_held := rt_held rt;
     rt_brain := rt_brain rt;
     rt_social :=
       {| active := act; until := unt; partnerId := partner;
          partnerPos := match ppos with Some p => p | None => partnerPos s end;
          facePartnerYaw :=
            match ppos with
            | Some p => YawAtan2 (vec_x p - vec_x (rt_pos rt))
                                 (vec_z p - vec_z (rt_pos rt))
            | None => facePartnerYaw s
            end |};
     rt_speciesKey := rt_speciesKey rt |}.

(** [nudgeToSleepSpot(spot)] *)
Definition nudgeToSleepSpot (spot : Vec3 Q) (rt : PetRuntime) : M PetRuntime :=
  let* d := Utils.randRange 3 6 in
  let b := rt_brain rt in
  ret {| rt_pos := rt_pos rt; rt_yaw := rt_yaw rt; rt_held := rt_held rt;
         rt_brain := {| mode := sleeping; t := d; seed := seed b;
                        walkS := walkS b; restSpot := spot;
                        lastInteractAt := lastInteractAt b |};
         rt_social := rt_social rt; rt_speciesKey := rt_speciesKey rt |}.

End PetAPI.

(** ** [PetManager] of [GardenPets.jsx]: the per-frame coordinator *)

(** One greet: the two [greet()] hops and the heart burst at the midpoint. *)
Record GreetEvent : Type := {
  greet_a : string;
  greet_b : string;
  greet_time : Q;
  greet_mid : Vec3 Q
}.

Record World : Type := {
  petsRef : list PetEntry;
  apiRef : gmap string PetRuntime;
  posMapRef : gmap string Pose;
  chaseModeRef : ChaseMode Q;
  pairCooldown : gmap string Q;
  frameCounter : Z;
  lastSleepSpotRef : option (Q * Q);
  greets : list GreetEvent
}.

Module Manager.

(** [(x) | 0] for the values at hand: truncation toward zero. *)
Definition Qtrunc (q : Q) : Z := Z.quot (Qnum q) (Zpos (Qden q)).

(** [pick] of [GardenPets.jsx]: [arr[(Math.random() * arr.length) | 0]] *)
Definition pick {A : Type} (arr : list A) : M (option A) :=
  let* r := random in
  ret (match Qtrunc (r * inject_Z (Z.of_nat (List.length arr))) with
       | Zneg _ => None
       | i => nth_error arr (Z.to_nat i)
       end).

(** [while (b.id === a.id && guard++ < 6) b = pick(arr)], with
    [remaining = 6 - guard]. *)
Fixpoint redraw (remaining : nat) (arr : list PetEntry) (a b : PetEntry)
  : M PetEntry :=
  match remaining with
  | O => ret b
  | S k =>
      if String.eqb (pet_id b) (pet_id a) then
        let* b' := pick arr in
        let* b'' := defined b' in
        redraw k arr a b''
      else ret b
  end.

(** The snapshot loop: [posMapRef.current.clear()] and one entry per roster
    pet that has registered its API. *)
Definition snapshot (arr : list PetEntry) (apis : gmap string PetRuntime)
  : gmap string Pose :=
  foldl (fun m p =>
           match apis !! pet_id p with
           | Some rt => <[pet_id p := PetAPI.getPose rt]> m
           | None => m
           end) ∅ arr.

(** [v.set(x, y, z)] *)
Definition setXZ (v : Vec3 Q) (x y z : Q) : Vec3 Q :=
  {| vec_x := x; vec_y := y; vec_z := z |}.

(** The chase block of the frame callback (lines 1870-1894). *)
Definition chaseStep (time : Q) (arr : list PetEntry)
    (posMap : gmap string Pose) (c : ChaseMode Q) : M (ChaseMode Q) :=
  if chase_active c then
    let ch := chaserId c ≫= fun i => posMap !! i in
    let ru := runnerId c ≫= fun i => posMap !! i in
    let cpos := match ch with
                | Some p => setXZ (chaserPos c) (pose_x p) BASE_Y (pose_z p)
                | None => chaserPos c
                end in
    let rpos := match ru with
                | Some p => setXZ (runnerPos c) (pose_x p) BASE_Y (pose_z p)
                | None => runnerPos c
                end in
    if Qgtb time (chase_until c) then
      ret {| chase_active := false; chase_until := chase_until c;
             chaserId := None; runnerId := None;
             runnerPos := rpos; chaserPos := cpos |}
    else
      ret {| chase_active := true; chase_until := chase_until c;
             chaserId := chaserId c; runnerId := runnerId c;
             runnerPos := rpos; chaserPos := cpos |}
  else if (2 <=? List.length arr)%nat then
    let* r := random in
    if Qltb r (PERSONALITY.chaseChancePerS * (1 / 60)) then
      let* a' := pick arr in
      let* a := defined a' in
      let* b' := pick arr in
      let* b0 := defined b' in
      let* b := redraw 6 arr a b0 in
      let* d := Utils.randRange (fst PERSONALITY.chaseDuration)
                                (snd PERSONALITY.chaseDuration) in
      ret {| chase_active := true; chase_until := time + d;
             chaserId := Some (pet_id a); runnerId := Some (pet_id b);
             runnerPos := runnerPos c; chaserPos := chaserPos c |}
    else ret c
  else ret c.

(** [a.id < b.id ? a.id + '|' + b.id : b.id + '|' + a.id] *)
Definition pairKey (idA idB : string) : string :=
  if String.ltb idA idB
  then String.append idA (String.append "|" idB)
  else String.append idB (String.append "|" idA).

(** [pairCooldown.current.get(key) || 0] *)
Definition cooldownUntil (m : gmap string Q) (key : string) : Q :=
  default 0 (m !! key).

(** [a.id === ch.chaserId || a.id === ch.runnerId || ...] under
    [chaseModeRef.current.active]. *)
Definition chaseInvolved (c : ChaseMode Q) (id : string) : bool :=
  chase_active c && (idIs id (chaserId c) || idIs id (runnerId c)).

Definition withApis (w : World) (apis : gmap string PetRuntime) : World :=
  {| petsRef := petsRef w; apiRef := apis; posMapRef := posMapRef w;
     chaseModeRef := chaseModeRef w; pairCooldown := pairCooldown w;
     frameCounter := frameCounter w; lastSleepSpotRef := lastSleepSpotRef w;
     greets := greets w |}.

Definition withSleepSpot (w : World) (spot : option (Q * Q)) : World :=
  {| petsRef := petsRef w; apiRef := apiRef w; posMapRef := posMapRef w;
     chaseModeRef := chaseModeRef w; pairCooldown := pairCooldown w;
     frameCounter := frameCounter w; lastSleepSpotRef := spot;
     greets := greets w |}.

(** [api.nudgeToSleepSpot?.(new THREE.Vector3(spot[0], BASE_Y, spot[1]))]
    on the pet registered as [id]; reading [spot[0]] of [undefined]
    throws. *)
Definition nudge (spot : option (Q * Q)) (id : string) (w : World) : M World :=
  let* s := defined spot in
  match apiRef w !! id with
  | Some rt =>
      let* rt' := PetAPI.nudgeToSleepSpot
                    {| vec_x := fst s; vec_y := BASE_Y; vec_z := snd s |} rt in
      ret (withApis w (<[id := rt']> (apiRef w)))
  | None => ret w
  end.

(** The cuddle-pile bias at the end of a greet (lines 1945-1952). *)
Definition cuddle (rugs : list (Q * Q)) (a b : PetEntry) (pa pb : Pose)
    (w : World) : M World :=
  let sa := Mode_eqb (pose_mode pa) sleeping in
  let sb := Mode_eqb (pose_mode pb) sleeping in
  if sa || sb then
    let* r := random in
    if Qltb r (35 # 100) then
      let* spot := match lastSleepSpotRef w with
                   | Some s => ret (Some s)
                   | None => pick rugs
                   end in
      let w1 := withSleepSpot w spot in
      let* w2 := if sa && negb sb then nudge spot (pet_id b) w1 else ret w1 in
      if sb && negb sa then nudge spot (pet_id a) w2 else ret w2
    else ret w
  else ret w.

(** The world after the greet block (lines 1928-1943) for the pair
    [(a, b)] with snapshot poses [pa], [pb] and duration draw [r]. *)
Definition greetWorld (time : Q) (a b : PetEntry) (pa pb : Pose) (r : Q)
    (w : World) : World :=
  let duration := (105 # 100) + r * (45 # 100) in
  let untilT := time + duration in
  let partnerPosA :=
    {| vec_x := pose_x pb; vec_y := BASE_Y; vec_z := pose_z pb |} in
  let partnerPosB :=
    {| vec_x := pose_x pa; vec_y := BASE_Y; vec_z := pose_z pa |} in
  let apis1 :=
    alter (PetAPI.setSocial true untilT (Some (pet_id b)) (Some partnerPosA))
          (pet_id a) (apiRef w) in
  let apis2 :=
    alter (PetAPI.setSocial true untilT (Some (pet_id a)) (Some partnerPosB))
          (pet_id b) apis1 in
  let ev :=
    {| greet_a := pet_id a; greet_b := pet_id b; greet_time := time;
       greet_mid :=
         {| vec_x := (pose_x pa + pose_x pb) * (5 # 10);
            vec_y := BASE_Y;
            vec_z := (pose_z pa + pose_z pb) * (5 # 10) |} |} in
  {| petsRef := petsRef w; apiRef := apis2; posMapRef := posMapRef w;
     chaseModeRef := chaseModeRef w;
     pairCooldown :=
       <[pairKey (pet_id a) (pet_id b) := time + SOCIAL_COOLDOWN_S]>
         (pairCooldown w);
     frameCounter := frameCounter w;
     lastSleepSpotRef := lastSleepSpotRef w;
     greets := greets w ++ [ev] |}.

(** [d2 < SOCIAL_DISTANCE * SOCIAL_DISTANCE] on two snapshot poses. *)
Definition withinGreetDistance (pa pb : Pose) : bool :=
  let dx := pose_x pa - pose_x pb in
  let dz := pose_z pa - pose_z pb in
  let d2 := dx * dx + dz * dz in
  Qltb d2 (SOCIAL_DISTANCE * SOCIAL_DISTANCE).

(** The body of the pair loop (lines 1902-1953) for the pair [(a, b)]. *)
Definition greetPair (time : Q) (rugs : list (Q * Q)) (a b : PetEntry)
    (w : World) : M World :=
  match apiRef w !! pet_id a, apiRef w !! pet_id b with
  | Some _, Some _ =>
      match posMapRef w !! pet_id a, posMapRef w !! pet_id b with
      | Some pa, Some pb =>
          if chaseInvolved (chaseModeRef w) (pet_id a)
             || chaseInvolved (chaseModeRef w) (pet_id b) then ret w
          else
            let key := pairKey (pet_id a) (pet_id b) in
            if Qltb time (cooldownUntil (pairCooldown w) key) then ret w
            else if withinGreetDistance pa pb then
              let* r := random in
              cuddle rugs a b pa pb (greetWorld time a b pa pb r w)
            else ret w
      | _, _ => ret w
      end
  | _, _ => ret w
  end.

(** The pairs [(arr[i], arr[j])], [i < j], in the order the two nested
    loops visit them. *)
Fixpoint pairsOf (arr : list PetEntry) : list (PetEntry * PetEntry) :=
  match arr with
  | [] => []
  | a :: rest => List.map (fun b => (a, b)) rest ++ pairsOf rest
  end.

Fixpoint scanPairs (time : Q) (rugs : list (Q * Q))
    (ps : list (PetEntry * PetEntry)) (w : World) : M World :=
  match ps with
  | [] => ret w
  | (a, b) :: rest =>
      let* w' := greetPair time rugs a b w in
      scanPairs time rugs rest w'
  end.

(** The first [useFrame] callback of [PetManager]; [time] is
    [state.clock.getElapsedTime()]. *)
Definition managerFrame (time : Q) (rugs : list (Q * Q)) (w : World)
  : M World :=
  let fc := (frameCounter w + 1)%Z in
  let arr := petsRef w in
  let posMap := snapshot arr (apiRef w) in
  let* chase := chaseStep time arr posMap (chaseModeRef w) in
  let w1 :=
    {| petsRef := arr; apiRef := apiRef w; posMapRef := posMap;
       chaseModeRef := chase; pairCooldown := pairCooldown w;
       frameCounter := fc; lastSleepSpotRef := lastSleepSpotRef w;
       greets := greets w |} in
  if negb (Z.rem fc SOCIAL_CHECK_EVERY_FRAMES =? 0)%Z then ret w1
  else if (List.length arr <? 2)%nat then ret w1
  else scanPairs time rugs (pairsOf arr) w1.

End Manager.

(** ** [pets-core/ai/brain.js]: the per-pet state machine *)

Module Brain.

(** [createBrainState(seed)]; [seed] is already [Math.floor(seed) % 10000]. *)
Definition createBrainState (seed0 : Q) : BrainState Q :=
  {| mode := wandering; t := 0; seed := seed0; walkS := 0;
     restSpot := vec0; lastInteractAt := 0 |}.

Definition setMode (b : BrainState Q) (m : Mode) : BrainState Q :=
  {| mode := m; t := t b; seed := seed b; walkS := walkS b;
     restSpot := restSpot b; lastInteractAt := lastInteractAt b |}.

Definition setT (b : BrainState Q) (x : Q) : BrainState Q :=
  {| mode := mode b; t := x; seed := seed b; walkS := walkS b;
     restSpot := restSpot b; lastInteractAt := lastInteractAt b |}.

Definition setWalkS (b : BrainState Q) (x : Q) : BrainState Q :=
  {| mode := mode b; t := t b; seed := seed b; walkS := x;
     restSpot := restSpot b; lastInteractAt := lastInteractAt b |}.

Definition setRestSpot (b : BrainState Q) (v : Vec3 Q) : BrainState Q :=
  {| mode := mode b; t := t b; seed := seed b; walkS := walkS b;
     restSpot := v; lastInteractAt := lastInteractAt b |}.

(** The [params] object of [updateBrain]; [p_chaseMode] is [None] when the
    caller passes no chase mode ([chaseMode?.active]). *)
Record Params : Type := {
  p_dt : Q;
  p_time : Q;
  p_isHeld : bool;
  p_socialActive : bool;
  p_playerDist2 : Q;
  p_chaseMode : option (ChaseMode Q);
  p_petId : string;
  p_rugs : list (Q * Q)
}.

(** [if (rugs.length > 0) { const spot = pick(rugs); brain.restSpot = ... }] *)
Definition pickRestSpot (rugs : list (Q * Q)) (b : BrainState Q) : M (BrainState Q) :=
  match rugs with
  | [] => ret b
  | _ =>
      let* spot' := Utils.pick rugs in
      let* spot := defined spot' in
      ret (setRestSpot b {| vec_x := fst spot; vec_y := 0; vec_z := snd spot |})
  end.

(** The idle-sleep check (lines 93-104); [now] is [performance.now()]. *)
Definition sleepCheck (p : Params) (now : Q) (b : BrainState Q) : M (BrainState Q) :=
  let sinceInteract := now * (1 # 1000) - lastInteractAt b in
  if negb (Mode_eqb (mode b) sleeping) && Qle_bool (p_playerDist2 p) 64 then
    if Qgtb sinceInteract PERSONALITY.sleepAfterNoInteractS then
      let* r := random in
      if Qltb r ((35 # 1000) * p_dt p) then
        let* d := Utils.randRange 3 6 in
        pickRestSpot (p_rugs p) (setT (setMode b sleeping) d)
      else ret b
    else ret b
  else ret b.

(** The wandering transitions (lines 106-126). *)
Definition wanderStep (p : Params) (b : BrainState Q) : M (BrainState Q) :=
  if Mode_eqb (mode b) wandering then
    let b := setWalkS b (walkS b + p_dt p) in
    let shouldFollow := Qgtb (p_playerDist2 p) 64 in
    let tryCurious : M (BrainState Q) :=
      let* r := random in
      if Qltb r (PERSONALITY.curiosityChancePerS * p_dt p) then
        let* d := Utils.randRange (fst PERSONALITY.curiosityDuration)
                                  (snd PERSONALITY.curiosityDuration) in
        ret (setT (setMode b curious) d)
      else ret b in
    if shouldFollow then ret (setMode b following)
    else if Qgtb (walkS b) PERSONALITY.restAfterWalkS then
      let* r := random in
      if Qltb r (PERSONALITY.restChancePerS * p_dt p) then
        let* d := Utils.randRange (fst PERSONALITY.restDuration)
                                  (snd PERSONALITY.restDuration) in
        pickRestSpot (p_rugs p) (setWalkS (setT (setMode b resting) d) 0)
      else tryCurious
    else tryCurious
  else ret b.

(** Lines 128-137: leaving [following] and timer expiry. *)
Definition settle (p : Params) (b : BrainState Q) : BrainState Q :=
  let b :=
    if Mode_eqb (mode b) following && Qle_bool (p_playerDist2 p) 64
    then setWalkS (setMode b wandering) 0 else b in
  if (Mode_eqb (mode b) curious || Mode_eqb (mode b) resting
      || Mode_eqb (mode b) sleeping) && Qle_bool (t b) 0
  then setMode b wandering else b.

(** The part of [updateBrain] below the held, chase and social returns. *)
Definition autonomous (p : Params) (now : Q) (b : BrainState Q)
  : M (BrainState Q) :=
  let* b1 := sleepCheck p now b in
  let* b2 := wanderStep p b1 in
  ret (settle p b2).

(** [chaseMode?.active] *)
Definition chaseOn (p : Params) : option (ChaseMode Q) :=
  match p_chaseMode p with
  | Some c => if chase_active c then Some c else None
  | None => None
  end.

(** [updateBrain(brain, params)] *)
Definition updateBrain (brain : BrainState Q) (p : Params) (now : Q)
  : M (BrainState Q) :=
  let b := setT brain (t brain - p_dt p) in
  if p_isHeld p then ret (setMode b held)
  else
    match chaseOn p with
    | Some c =>
        if idIs (p_petId p) (chaserId c) then
          ret (setT (setMode b chasing) (chase_until c - p_time p))
        else if idIs (p_petId p) (runnerId c) then
          ret (setT (setMode b running) (chase_until c - p_time p))
        else ret b
    | None =>
        if p_socialActive p then ret (setMode b socializing)
        else autonomous p now b
    end.

End Brain.

(** ** The parts of the pet's own frame callback that touch the social state
    and the love scalar ([Pet.jsx], [GardenPets.jsx]) *)

Module Pet.

(** Social expiry at the top of the frame callback: [updateSocialState]
    and, when the interaction just ended, leaving [socializing]. *)
Definition socialExpiry (time : Q) (rt : PetRuntime) : PetRuntime :=
  let '(s, ended) := Social.updateSocialState (rt_social rt) time in
  let b := rt_brain rt in
  {| rt_pos := rt_pos rt; rt_yaw := rt_yaw rt; rt_held := rt_held rt;
     rt_brain :=
       if ended && negb (rt_held rt) && Mode_eqb (mode b) socializing
       then Brain.setMode b wandering else b;
     rt_social := s; rt_speciesKey := rt_speciesKey rt |}.

(** The pose the pet reports can change arbitrarily between two manager
    frames: its movement is computed over the reals (module [Steering]). *)
Definition moveTo (x z : Q) (rt : PetRuntime) : PetRuntime :=
  {| rt_pos := {| vec_x := x; vec_y := vec_y (rt_pos rt); vec_z := z |};
     rt_yaw := rt_yaw rt; rt_held := rt_held rt; rt_brain := rt_brain rt;
     rt_social := rt_social rt; rt_speciesKey := rt_speciesKey rt |}.

(** [petting.current] *)
Record Petting : Type := {
  lastX : Q;
  lastDir : Z;
  flips : Z;
  love : Q;
  emitT : Q
}.

Definition decayRate : Q := 55 # 100.

(** The love-decay block of the frame callback; the second component is the
    number of hearts emitted. *)
Definition loveDecay (dt : Q) (p : Petting) : M (Petting * nat) :=
  let love' := Qmax 0 (love p - dt * decayRate) in
  if Qgtb love' (2 # 10) then
    let emitT' := emitT p - dt in
    if Qle_bool emitT' 0 then
      let* r := random in
      ret ({| lastX := lastX p; lastDir := lastDir p; flips := flips p;
              love := love'; emitT := Utils.lerp (14 # 100) (22 # 100) r |},
           1%nat)
    else
      ret ({| lastX := lastX p; lastDir := lastDir p; flips := flips p;
              love := love'; emitT := emitT' |}, 0%nat)
  else
    ret ({| lastX := lastX p; lastDir := lastDir p; flips := flips p;
            love := love'; emitT := emitT p |}, 0%nat).

(** A run of frames with no rub event, one [dt] per frame. *)
Fixpoint loveDecayRun (dts : list Q) (p : Petting) : M Petting :=
  match dts with
  | [] => ret p
  | dt :: rest =>
      let* r := loveDecay dt p in
      loveDecayRun rest (fst r)
  end.

Definition withBrain (rt : PetRuntime) (b : BrainState Q) : PetRuntime :=
  {| rt_pos := rt_pos rt; rt_yaw := rt_yaw rt; rt_held := rt_held rt;
     rt_brain := b; rt_social := rt_social rt;
     rt_speciesKey := rt_speciesKey rt |}.

(** [brain.current.lastInteractAt = performance.now() * 0.001] *)
Definition touch (b : BrainState Q) (now : Q) : BrainState Q :=
  {| mode := mode b; t := t b; seed := seed b; walkS := walkS b;
     restSpot := restSpot b; lastInteractAt := now * (1 # 1000) |}.

(** The chase block of the frame callback (lines 678-689); [chase] is
    [chaseModeRef?.current]. *)
Definition chaseInfluence (time hoverBaseY : Q) (id : string)
    (chase : option (ChaseMode Q)) (isHeld : bool) (b : BrainState Q)
  : BrainState Q :=
  match chase with
  | Some c =>
      if negb isHeld && chase_active c then
        if idIs id (chaserId c) then
          Brain.setRestSpot
            (Brain.setT (Brain.setMode b chasing) (chase_until c - time))
            {| vec_x := vec_x (runnerPos c); vec_y := hoverBaseY;
               vec_z := vec_z (runnerPos c) |}
        else if idIs id (runnerId c) then
          Brain.setT (Brain.setMode b running) (chase_until c - time)
        else b
      else b
  | None => b
  end.

(** The frame callback from the social expiry to the social override (lines
    661-740): social expiry, love decay, chase block, the early return of a
    held pet, [updateBrain], and the social override.  [camera] is
    [(camera.position.x, camera.position.z)]; the last component of the
    result is the number of hearts emitted (what the heart pool draws for
    the flight of a heart is not modelled). *)
Definition frameBrain (time dt now hoverBaseY : Q) (id : string)
    (camera : Q * Q) (chase : option (ChaseMode Q)) (rugs : list (Q * Q))
    (rt : PetRuntime) (petting : Petting) : M (PetRuntime * Petting * nat) :=
  let rt1 := socialExpiry time rt in
  let* lv := loveDecay dt petting in
  let B := chaseInfluence time hoverBaseY id chase (rt_held rt1) (rt_brain rt1) in
  if rt_held rt1 then ret (withBrain rt1 B, fst lv, snd lv)
  else
    let dxp := fst camera - vec_x (rt_pos rt1) in
    let dzp := snd camera - vec_z (rt_pos rt1) in
    let* B1 := Brain.updateBrain B
                 {| Brain.p_dt := dt; Brain.p_time := time;
                    Brain.p_isHeld := rt_held rt1;
                    Brain.p_socialActive := active (rt_social rt1);
                    Brain.p_playerDist2 := dxp * dxp + dzp * dzp;
                    Brain.p_chaseMode := chase; Brain.p_petId := id;
                    Brain.p_rugs := rugs |} now in
    ret (withBrain rt1
           (if active (rt_social rt1) then Brain.setMode B1 socializing else B1),
         fst lv, snd lv).

(** [dx > 0.003 ? 1 : dx < -0.003 ? -1 : 0] *)
Definition moveDir (dx : Q) : Z :=
  if Qgtb dx (3 # 1000) then 1%Z
  else if Qltb dx (- (3 # 1000)) then (-1)%Z else 0%Z.

(** [onPetMove(e)] with [localX = e.point.x]: the new petting state, the
    brain, and the number of hearts emitted. *)
Definition onPetMove (isHeld : bool) (localX now : Q) (p : Petting)
    (b : BrainState Q) : Petting * BrainState Q * nat :=
  if isHeld then (p, b, 0%nat)
  else
    let dx := localX - lastX p in
    let dir := moveDir dx in
    let flips1 :=
      if negb (dir =? 0)%Z && negb (lastDir p =? 0)%Z
         && negb (dir =? lastDir p)%Z
      then (flips p + 1)%Z else flips p in
    let lastDir1 := if negb (dir =? 0)%Z then dir else lastDir p in
    if (3 <=? flips1)%Z then
      ({| lastX := localX; lastDir := lastDir1; flips := 0;
          love := Utils.clamp (love p + (22 # 100)) 0 1; emitT := emitT p |},
       touch b now, 1%nat)
    else
      ({| lastX := localX; lastDir := lastDir1; flips := flips1;
          love := love p; emitT := emitT p |}, b, 0%nat).

(** What happens to the petting state of a pet: a rendered frame (the love
    decay) or a pointer move over it. *)
Inductive PettingEvent : Type :=
  | Decay (dt : Q)
  | Rub (isHeld : bool) (localX now : Q).

Fixpoint pettingRun (evs : list PettingEvent) (p : Petting) (b : BrainState Q)
  : M (Petting * BrainState Q) :=
  match evs with
  | [] => ret (p, b)
  | Decay dt :: rest =>
      let* r := loveDecay dt p in
      pettingRun rest (fst r) b
  | Rub isHeld localX now :: rest =>
      let r := onPetMove isHeld localX now p b in
      pettingRun rest (fst (fst r)) (snd (fst r))
  end.

(** The first event of a drag (lines 595-607). *)
Definition dragFirst (now : Q) (rt : PetRuntime) : PetRuntime :=
  {| rt_pos := rt_pos rt; rt_yaw := rt_yaw rt; rt_held := true;
     rt_brain := touch (Brain.setMode (rt_brain rt) held) now;
     rt_social := rt_social rt; rt_speciesKey := rt_speciesKey rt |}.

(** The last event of a drag (lines 625-644). *)
Definition dragLast (hoverBaseY : Q) (rt : PetRuntime) : PetRuntime :=
  {| rt_pos := {| vec_x := vec_x (rt_pos rt); vec_y := hoverBaseY;
                  vec_z := vec_z (rt_pos rt) |};
     rt_yaw := rt_yaw rt; rt_held := false;
     rt_brain := Brain.setMode (rt_brain rt)
                   (if active (rt_social rt) then socializing else wandering);
     rt_social := rt_social rt; rt_speciesKey := rt_speciesKey rt |}.

End Pet.

(** ** [pets-core/memory/guardian.js]: the memory registry *)

Module MemoryRegistry.

Record MemoryNode : Type := {
  mem_id : string;
  mem_position : Vec3 Q;
  mem_title : string;
  mem_guardianPetId : option string;
  mem_createdAt : Q
}.

Record GuardianAssignment : Type := {
  ga_petId : string;
  ga_memoryId : string;
  ga_assignedAt : Q;
  ga_bondLevel : Q;
  ga_lastVisit : Q
}.

(** The two maps of the class [MemoryRegistry]; [assignments] is keyed by
    the pet id. *)
Record Registry : Type := {
  memories : gmap string MemoryNode;
  assignments : gmap string GuardianAssignment
}.

Definition empty : Registry := {| memories := ∅; assignments := ∅ |}.

(** [memory.guardianPetId = g] *)
Definition setGuardian (memory : MemoryNode) (g : option string) : MemoryNode :=
  {| mem_id := mem_id memory; mem_position := mem_position memory;
     mem_title := mem_title memory; mem_guardianPetId := g;
     mem_createdAt := mem_createdAt memory |}.

(** A pet id in a condition: [null], [undefined] and the empty string are
    falsy. *)
Definition truthy (o : option string) : option string :=
  match o with
  | Some s => if String.eqb s "" then None else Some s
  | None => None
  end.

(** [addMemory(memory)]; [createdAt] is [memory.createdAt] when the caller
    gives one, [now] is [Date.now()]. *)
Definition addMemory (id : string) (position : Vec3 Q) (title : string)
    (guardianPetId : option string) (createdAt : option Q) (now : Q)
    (r : Registry) : Registry :=
  {| memories :=
       <[id := {| mem_id := id; mem_position := position; mem_title := title;
                  mem_guardianPetId := guardianPetId;
                  mem_createdAt := default now createdAt |}]> (memories r);
     assignments := assignments r |}.

(** [createMemory(id, title, x, y, z)] *)
Definition createMemory (id title : string) (x y z now : Q) (r : Registry)
  : Registry :=
  addMemory id {| vec_x := x; vec_y := y; vec_z := z |} title None (Some now)
            now r.

(** [unassignGuardian(petId)] *)
Definition unassignGuardian (petId : string) (r : Registry) : Registry :=
  match assignments r !! petId with
  | Some assignment =>
      {| memories :=
           match memories r !! ga_memoryId assignment with
           | Some memory =>
               if idIs petId (mem_guardianPetId memory)
               then <[ga_memoryId assignment := setGuardian memory None]>
                      (memories r)
               else memories r
           | None => memories r
           end;
         assignments := delete petId (assignments r) |}
  | None => r
  end.

(** [removeMemory(id)] *)
Definition removeMemory (id : string) (r : Registry) : Registry :=
  let r1 :=
    match memories r !! id ≫= fun memory => truthy (mem_guardianPetId memory) with
    | Some g => unassignGuardian g r
    | None => r
    end in
  {| memories := delete id (memories r1); assignments := assignments r1 |}.

(** [assignGuardian(petId, memoryId)]; [now] is [Date.now()].  [memory] is
    the object stored under [memoryId], so the write of [unassignGuardian]
    to its [guardianPetId] is seen by the test that follows: the memory is
    read again from the registry after that call. *)
Definition assignGuardian (petId memoryId : string) (now : Q) (r : Registry)
  : bool * Registry :=
  match memories r !! memoryId with
  | None => (false, r)
  | Some memory0 =>
      let r1 := unassignGuardian petId r in
      let memory := default memory0 (memories r1 !! memoryId) in
      let assignments1 :=
        match truthy (mem_guardianPetId memory) with
        | Some old => delete old (assignments r1)
        | None => assignments r1
        end in
      (true,
       {| memories := <[memoryId := setGuardian memory (Some petId)]> (memories r1);
          assignments :=
            <[petId := {| ga_petId := petId; ga_memoryId := memoryId;
                          ga_assignedAt := now; ga_bondLevel := 0;
                          ga_lastVisit := now |}]> assignments1 |})
  end.

(** [getAssignment(petId)] *)
Definition getAssignment (petId : string) (r : Registry)
  : option GuardianAssignment :=
  assignments r !! petId.

(** [getAssignedMemory(petId)] *)
Definition getAssignedMemory (petId : string) (r : Registry)
  : option MemoryNode :=
  assignments r !! petId ≫= fun assignment => memories r !! ga_memoryId assignment.

(** [updateBond(petId, increase)] *)
Definition updateBond (petId : string) (increase now : Q) (r : Registry)
  : Registry :=
  match assignments r !! petId with
  | Some assignment =>
      {| memories := memories r;
         assignments :=
           <[petId := {| ga_petId := ga_petId assignment;
                         ga_memoryId := ga_memoryId assignment;
                         ga_assignedAt := ga_assignedAt assignment;
                         ga_bondLevel := Qmin 1 (ga_bondLevel assignment + increase);
                         ga_lastVisit := now |}]> (assignments r) |}
  | None => r
  end.

(** [getBondLevel(petId)]: [assignments.get(petId)?.bondLevel ?? 0] *)
Definition getBondLevel (petId : string) (r : Registry) : Q :=
  default 0 (ga_bondLevel <$> assignments r !! petId).

(** The calls a client can make on the registry. *)
Inductive Op : Type :=
  | OpCreate (id title : string) (x y z now : Q)
  | OpRemove (id : string)
  | OpAssign (petId memoryId : string) (now : Q)
  | OpUnassign (petId : string)
  | OpBond (petId : string) (increase now : Q).

Definition runOp (op : Op) (r : Registry) : Registry :=
  match op with
  | OpCreate id title x y z now => createMemory id title x y z now r
  | OpRemove id => removeMemory id r
  | OpAssign petId memoryId now => snd (assignGuardian petId memoryId now r)
  | OpUnassign petId => unassignGuardian petId r
  | OpBond petId increase now => updateBond petId increase now r
  end.

End MemoryRegistry.

(** ** [pets-core/environment/restSpots.js]: occupancy of the rest spots *)

Module RestSpotRegistry.

Record RestSpot : Type := {
  spot_id : string;
  spot_position : Vec3 Q;
  spot_radius : Q;
  spot_type : string;
  spot_priority : Q;
  spot_warmth : Q;
  spot_occupied : bool;
  spot_occupantId : option string
}.

(** [spot.occupied = o; spot.occupantId = who] *)
Definition setOccupant (spot : RestSpot) (o : bool) (who : option string)
  : RestSpot :=
  {| spot_id := spot_id spot; spot_position := spot_position spot;
     spot_radius := spot_radius spot; spot_type := spot_type spot;
     spot_priority := spot_priority spot; spot_warmth := spot_warmth spot;
     spot_occupied := o; spot_occupantId := who |}.

(** [occupy(spotId, petId)] *)
Definition occupy (spotId petId : string) (spots : gmap string RestSpot)
  : bool * gmap string RestSpot :=
  match spots !! spotId with
  | Some spot =>
      if spot_occupied spot then (false, spots)
      else (true, <[spotId := setOccupant spot true (Some petId)]> spots)
  | None => (false, spots)
  end.

(** [release(spotId)] *)
Definition release (spotId : string) (spots : gmap string RestSpot)
  : gmap string RestSpot :=
  match spots !! spotId with
  | Some spot => <[spotId := setOccupant spot false None]> spots
  | None => spots
  end.

(** [releaseByPet(petId)] *)
Definition releaseByPet (petId : string) (spots : gmap string RestSpot)
  : gmap string RestSpot :=
  (fun spot => if idIs petId (spot_occupantId spot)
               then setOccupant spot false None else spot) <$> spots.

End RestSpotRegistry.

(** ** Roster operations *)

(** JavaScript values stored in a pet object. *)
Inductive JSVal : Type :=
  | VNull
  | VNum (q : Q)
  | VStr (s : string)
  | VEmptyArray.

(** A pet object of [PetContext.jsx]: property name to value. *)
Abbreviation PetObj := (gmap string JSVal).

Module PetContext.

(** [petEvents.emit(PET_EVENTS.PET_SPAWNED, { petId, pet })] *)
Record SpawnEvent : Type := { ev_petId : option JSVal; ev_pet : PetObj }.

(** The provider: the React state [pets], the ref [petsRef.current] that an
    effect copies from [pets] after each render, and the events emitted. *)
Record Provider : Type := {
  pets : list PetObj;
  petsRefCurrent : list PetObj;
  emitted : list SpawnEvent
}.


(** The effect [petsRef.current = pets]. *)
Definition syncRef (p : Provider) : Provider :=
  {| pets := pets p; petsRefCurrent := pets p; emitted := emitted p |}.

(** The object literal of [addPet]: later properties win, so [petData] may
    override [id] and the five fixed properties override [petData]. *)
Definition newPetObj (freshId : string) (now : Q) (petData : PetObj) : PetObj :=
  <["createdAt" := VNum now]>
    (<["assignedMemoryId" := VNull]>
       (<["activityHistory" := VEmptyArray]>
          (<["happiness" := VNum (5 # 10)]>
             (<["bondLevel" := VNum 0]>
                (petData ∪ {["id" := VStr freshId]}))))).

(** [addPet(petData)]; [freshId] is the generated id string and [now] is
    [Date.now()].  [None] is the [null] result. *)
Definition addPet (maxPets : nat) (freshId : string) (now : Q)
    (petData : PetObj) (p : Provider) : option PetObj * Provider :=
  if (maxPets <=? List.length (petsRefCurrent p))%nat then (None, p)
  else
    let newPet := newPetObj freshId now petData in
    (Some newPet,
     {| pets := pets p ++ [newPet];
        petsRefCurrent := petsRefCurrent p;
        emitted := emitted p ++ [{| ev_petId := newPet !! "id"; ev_pet := newPet |}] |}).

(** [p.id === petId] for a string [petId]. *)
Definition hasId (petId : string) (p : PetObj) : bool :=
  match p !! "id" with
  | Some (VStr s) => String.eqb s petId
  | _ => false
  end.

(** [removePet(petId)]: the guardian assignment and the rest spots of the
    pet are released, then the roster is filtered with
    [prev.filter(p => p.id !== petId)].  (The [pet:removed] event is not
    modelled.) *)
Definition removePet (petId : string) (memory : MemoryRegistry.Registry)
    (spots : gmap string RestSpotRegistry.RestSpot) (prev : list PetObj)
  : MemoryRegistry.Registry * gmap string RestSpotRegistry.RestSpot
    * list PetObj :=
  (MemoryRegistry.unassignGuardian petId memory,
   RestSpotRegistry.releaseByPet petId spots,
   List.filter (fun p => negb (hasId petId p)) prev).

(** [prev.findIndex(p => p.id === petId)]; [None] is [-1]. *)
Fixpoint findIndex (petId : string) (prev : list PetObj) : option nat :=
  match prev with
  | [] => None
  | p :: rest =>
      if hasId petId p then Some 0%nat else S <$> findIndex petId rest
  end.

(** The updater of [updatePet]: [{ ...next[idx], ...patch }] lets the
    properties of [patch] win. *)
Definition updatePet (petId : string) (patch : PetObj) (prev : list PetObj)
  : list PetObj :=
  match findIndex petId prev with
  | None => prev
  | Some idx =>
      match prev !! idx with
      | Some old => <[idx := patch ∪ old]> prev
      | None => prev
      end
  end.

(** [getPet]: [petsRef.current.find(p => p.id === petId)] *)
Definition getPet (petId : string) (current : list PetObj) : option PetObj :=
  List.find (hasId petId) current.

(** [pet[key] || d] for a property that holds a number, [null] or nothing
    (zero counts as missing); a string or an array there is outside the
    model. *)
Definition numberOr (v : option JSVal) (d : Q) : option Q :=
  match v with
  | None | Some VNull => Some d
  | Some (VNum q) => Some (if Qeq_bool q 0 then d else q)
  | Some (VStr _) | Some VEmptyArray => None
  end.

(** [increaseHappiness(petId, amount = 0.1)]: the pet is read from
    [petsRef.current], the patch goes through [updatePet] to the state
    [prev]; the second component is the value of the emitted event.  [None]
    is an outcome outside the model. *)
Definition increaseHappiness (petId : string) (amount : option Q)
    (current prev : list PetObj) : option (list PetObj * option Q) :=
  match getPet petId current with
  | None => Some (prev, None)
  | Some pet =>
      h ← numberOr (pet !! "happiness") (5 # 10);
      let newHappiness := Qmin 1 (h + default (1 # 10) amount) in
      Some (updatePet petId {["happiness" := VNum newHappiness]} prev,
            Some newHappiness)
  end.

(** [increaseBond(petId, amount = 0.05)]; [now] is [Date.now()] as read by
    [memoryRegistry.updateBond]. *)
Definition increaseBond (petId : string) (amount : option Q) (now : Q)
    (memory : MemoryRegistry.Registry) (current prev : list PetObj)
  : option (MemoryRegistry.Registry * list PetObj * option Q) :=
  match getPet petId current with
  | None => Some (memory, prev, None)
  | Some pet =>
      b ← numberOr (pet !! "bondLevel") 0;
      let newBond := Qmin 1 (b + default (5 # 100) amount) in
      Some (MemoryRegistry.updateBond petId (default (5 # 100) amount) now memory,
            updatePet petId {["bondLevel" := VNum newBond]} prev,
            Some newBond)
  end.

(** [history.slice(-k)]: the last [k] elements. *)
Definition sliceLast {E : Type} (k : nat) (history : list E) : list E :=
  skipn (List.length history - k) history.

(** [logActivity]: [newHistory = [...history.slice(-49), entry]] *)
Definition newHistory {E : Type} (history : list E) (entry : E) : list E :=
  (sliceLast 49 history ++ [entry])%list.

(** A pet object with its [activityHistory] property held apart from the
    other properties, as a list of entries; [None] when the object has no
    such property. *)
Record Logged (E : Type) : Type := {
  lg_obj : PetObj;
  lg_history : option (list E)
}.

Arguments lg_obj {E} _.
Arguments lg_history {E} _.

(** [updatePet(petId, { activityHistory: h })] as an updater of the state
    [prev]: the first pet with that id gets the history, the rest of the
    roster stays. *)
Fixpoint patchHistory {E : Type} (petId : string) (h : list E)
    (prev : list (Logged E)) : list (Logged E) :=
  match prev with
  | [] => []
  | p :: rest =>
      if hasId petId (lg_obj p)
      then {| lg_obj := lg_obj p; lg_history := Some h |} :: rest
      else p :: patchHistory petId h rest
  end.

(** [logActivity(petId, action, data)], with [entry] the object it builds:
    the pet and its history are read from [petsRef.current] ([getPet]), the
    patch goes through [updatePet] to the state [prev]. *)
Definition logActivity {E : Type} (petId : string) (entry : E)
    (current prev : list (Logged E)) : list (Logged E) :=
  match List.find (fun p => hasId petId (lg_obj p)) current with
  | None => prev
  | Some pet =>
      let history := default [] (lg_history pet) in
      patchHistory petId (newHistory history entry) prev
  end.

(** One call per render: the effect [petsRef.current = pets] has run before
    each call, so each reads the roster the call before it left. *)
Definition logEachRender {E : Type} (petId : string) (entries : list E)
    (roster : list (Logged E)) : list (Logged E) :=
  fold_left (fun r entry => logActivity petId entry r r) entries roster.

(** Several calls in one batch: the effect does not run in between, so all
    of them read [current], the ref as it was before the batch. *)
Definition logBatch {E : Type} (petId : string) (entries : list E)
    (current prev : list (Logged E)) : list (Logged E) :=
  fold_left (fun r entry => logActivity petId entry current r) entries prev.

(** [getPet(petId)?.activityHistory || []] on a roster. *)
Definition historyOf {E : Type} (petId : string) (roster : list (Logged E))
  : option (list E) :=
  match List.find (fun p => hasId petId (lg_obj p)) roster with
  | Some pet => Some (default [] (lg_history pet))
  | None => None
  end.

End PetContext.

Module GardenRoster.

(** [maxPets = isMobile ? 7 : 12] *)
Definition maxPets (isMobile : bool) : nat := if isMobile then 7%nat else 12%nat.

(** The updater [addPet] passes to [setPets]; [made] is [makePet(speciesKey)]. *)
Definition addPet (maxPets : nat) (made : PetEntry) (prev : list PetEntry)
  : list PetEntry :=
  if (maxPets <=? List.length prev)%nat then prev else prev ++ [made].

End GardenRoster.

(** ** Steering math over the reals ([utils.js], [brain.js], [social.js],
    the integration step of [Pet.jsx]) *)

Module Steering.

Local Open Scope R_scope.

(** [clamp = (v, a, b) => Math.max(a, Math.min(b, v))] *)
Definition clamp (v a b : R) : R := Rmax a (Rmin b v).

Definition lerp (a b t : R) : R := a + (b - a) * t.

(** [Math.floor] *)
Definition floor (x : R) : R := IZR (Int_part x).

(** The integer part toward zero of a quotient, as the [%] operator uses. *)
Definition trunc (x : R) : Z :=
  if Rle_dec 0 x then Int_part x else (- Int_part (- x))%Z.

(** JavaScript [x % y]: the remainder takes the sign of the dividend. *)
Definition jsRem (x y : R) : R := x - y * IZR (trunc (x / y)).

(** [dampAngle(a, b, t)] *)
Definition dampAngle (a b t : R) : R :=
  let d := jsRem (b - a + PI) (PI * 2) - PI in
  a + d * t.

(** The shortest angular distance between two headings: the representative
    of [x - y] modulo a full turn in [[0, 2 pi)], or its complement. *)
Definition angDist (x y : R) : R :=
  let r := (x - y) - (2 * PI) * floor ((x - y) / (2 * PI)) in
  Rmin r (2 * PI - r).

Definition hash1 (n : R) : R :=
  let x := sin n * 43758.5453123 in
  x - floor x.

Definition smoothstep (t : R) : R := t * t * (3 - 2 * t).

Definition noise1D (x seed : R) : R :=
  let i0 := floor x in
  let i1 := i0 + 1 in
  let t := smoothstep (x - i0) in
  let a := hash1 (i0 * 127.1 + seed * 311.7) in
  let b := hash1 (i1 * 127.1 + seed * 311.7) in
  lerp a b t * 2 - 1.

(** Arithmetic that can leave the finite numbers: a division by zero yields
    an infinity or NaN, the square root of a negative number NaN.  [None]
    stands for such a result. *)
Definition fdiv (x y : R) : option R :=
  if Req_dec_T y 0 then None else Some (x / y).

Definition fsqrt (x : R) : option R :=
  if Rlt_dec x 0 then None else Some (sqrt x).

(** The loop of [calculateSeparation] over the entries of [posMap], in
    iteration order, with the accumulator [(sepX, sepZ)]. *)
Fixpoint separationLoop (pos : R * R) (entries : list (string * (R * R)))
    (selfId : string) (radius : R) (sep : R * R) : option (R * R) :=
  match entries with
  | [] => Some sep
  | (id, p2) :: rest =>
      if String.eqb id selfId then separationLoop pos rest selfId radius sep
      else
        let ox := fst pos - fst p2 in
        let oz := snd pos - snd p2 in
        let d2 := ox * ox + oz * oz in
        if Rlt_dec d2 (radius * radius) then
          if Rlt_dec 0.0001 d2 then
            d ← fsqrt d2;
            inv ← fdiv 1 d;
            q ← fdiv d radius;
            let push := (1.0 - q) * 0.018 in
            separationLoop pos rest selfId radius
              (fst sep + ox * inv * push, snd sep + oz * inv * push)
          else separationLoop pos rest selfId radius sep
        else separationLoop pos rest selfId radius sep
  end.

(** [calculateSeparation(pos, posMap, selfId, radius)] *)
Definition calculateSeparation (pos : R * R) (posMap : list (string * (R * R)))
    (selfId : string) (radius : R) : option (R * R) :=
  separationLoop pos posMap selfId radius (0, 0).

(** [calculatePlayerSeparation(petPos, playerPos, radius)] *)
Definition calculatePlayerSeparation (petPos playerPos : R * R) (radius : R)
  : option (R * R) :=
  let ox := fst petPos - fst playerPos in
  let oz := snd petPos - snd playerPos in
  let d2 := ox * ox + oz * oz in
  if Rlt_dec d2 (radius * radius) then
    if Rlt_dec 0.0001 d2 then
      d ← fsqrt d2;
      inv ← fdiv 1 d;
      Some (ox * inv * 0.022, oz * inv * 0.022)
    else Some (0, 0)
  else Some (0, 0).

Record Bounds : Type := { minX : R; maxX : R; minZ : R; maxZ : R }.

(** The [params] object of [calculateMovement]. *)
Record MoveParams : Type := {
  m_dt : R;
  m_time : R;
  m_bounds : Bounds;
  m_playerPos : R * R;
  m_chaseMode : option (ChaseMode R);
  m_separationVec : option (R * R);
  m_isMobile : bool
}.

(** [Math.pow(base, dt * 60)] for a positive constant [base]. *)
Definition damp (base dt : R) : R := Rpower base (dt * 60).

(** The shape shared by the following, chasing and running branches:
    steer along [(dx, dz)] with gain [k] when its length exceeds 0.001,
    then damp by 0.86. *)
Definition seek (dx dz k dt : R) (vel : R * R) : option (R * R) :=
  d ← fsqrt (dx * dx + dz * dz);
  v ← (if Rlt_dec 0.001 d then
         nx ← fdiv dx d;
         nz ← fdiv dz d;
         Some (fst vel + nx * k, snd vel + nz * k)
       else Some vel);
  Some (fst v * damp 0.86 dt, snd v * damp 0.86 dt).

(** The wander direction before normalisation (lines 220-236): noise, wall
    avoidance within the 1.25 margin, separation. *)
Definition wanderDir (brain : BrainState R) (pos : R * R) (p : MoveParams)
  : R * R :=
  let b := m_bounds p in
  let nx := noise1D (m_time p * 0.55) (seed brain) in
  let nz := noise1D (m_time p * 0.55 + 100) (seed brain) in
  let margin := 1.25 in
  let dirX := nx in
  let dirZ := nz in
  let dirX := if Rlt_dec (maxX b - margin) (fst pos)
              then dirX - (fst pos - (maxX b - margin)) / margin else dirX in
  let dirX := if Rlt_dec (fst pos) (minX b + margin)
              then dirX + ((minX b + margin) - fst pos) / margin else dirX in
  let dirZ := if Rlt_dec (maxZ b - margin) (snd pos)
              then dirZ - (snd pos - (maxZ b - margin)) / margin else dirZ in
  let dirZ := if Rlt_dec (snd pos) (minZ b + margin)
              then dirZ + ((minZ b + margin) - snd pos) / margin else dirZ in
  let dirX := match m_separationVec p with Some s => dirX + fst s | None => dirX end in
  let dirZ := match m_separationVec p with Some s => dirZ + snd s | None => dirZ end in
  (dirX, dirZ).

(** The wandering branch (lines 219-250). *)
Definition wander (brain : BrainState R) (pos vel : R * R) (p : MoveParams)
  : option (R * R) :=
  let dt := m_dt p in
  let dirX := fst (wanderDir brain pos p) in
  let dirZ := snd (wanderDir brain pos p) in
  l ← fsqrt (dirX * dirX + dirZ * dirZ);
  dir ← (if Rlt_dec 0.001 l then
           x ← fdiv dirX l;
           z ← fdiv dirZ l;
           Some (x, z)
         else Some (dirX, dirZ));
  let speed := 1.25 in
  let vx := fst vel + fst dir * speed * dt * 2.6 in
  let vz := snd vel + snd dir * speed * dt * 2.6 in
  Some (vx * damp 0.88 dt, vz * damp 0.88 dt).

(** [calculateMovement(brain, pos, vel, params)] *)
Definition calculateMovement (brain : BrainState R) (pos vel : R * R)
    (p : MoveParams) : option (R * R) :=
  let dt := m_dt p in
  match mode brain, m_chaseMode p with
  | socializing, _ => Some (fst vel * damp 0.72 dt, snd vel * damp 0.72 dt)
  | curious, _ => Some (fst vel * damp 0.70 dt, snd vel * damp 0.70 dt)
  | resting, _ | sleeping, _ =>
      let dx := vec_x (restSpot brain) - fst pos in
      let dz := vec_z (restSpot brain) - snd pos in
      d ← fsqrt (dx * dx + dz * dz);
      if Rlt_dec 0.20 d then
        nx ← fdiv dx d;
        nz ← fdiv dz d;
        Some (fst vel + nx * dt * 2.2, snd vel + nz * dt * 2.2)
      else Some (fst vel * damp 0.70 dt, snd vel * damp 0.70 dt)
  | following, _ =>
      let speed := if m_isMobile p then 1.55 else 1.75 in
      seek (fst (m_playerPos p) - fst pos) (snd (m_playerPos p) - snd pos)
           (speed * dt * 3.2) dt vel
  | chasing, Some c =>
      seek (vec_x (runnerPos c) - fst pos) (vec_z (runnerPos c) - snd pos)
           (2.05 * dt * 3.0) dt vel
  | running, Some c =>
      seek (fst pos - vec_x (chaserPos c)) (snd pos - vec_z (chaserPos c))
           (2.1 * dt * 3.0) dt vel
  | _, _ => wander brain pos vel p
  end.

(** Position integration and clamp of the frame callback (lines 783-787). *)
Definition integrate (pos vel : R * R) (dt : R) (b : Bounds) : R * R :=
  let x := fst pos + fst vel * dt * 60 in
  let z := snd pos + snd vel * dt * 60 in
  (clamp x (minX b) (maxX b), clamp z (minZ b) (maxZ b)).

(** The position a dragged pet is set to (lines 613-617): the hit point of
    the pointer ray, clamped. *)
Definition dragTo (hit : R * R) (b : Bounds) : R * R :=
  (clamp (fst hit) (minX b) (maxX b), clamp (snd hit) (minZ b) (maxZ b)).

(** The movement part of the frame callback of a pet that is not held
    (lines 742-787): separation, velocity, integration.  [posMap] is the
    manager's snapshot when [getPosMap] is available. *)
Definition frameMove (brain : BrainState R) (selfId : string)
    (pos vel : R * R) (posMap : option (list (string * (R * R))))
    (camera : R * R) (dt time : R) (b : Bounds)
    (chase : option (ChaseMode R)) (isMobile : bool)
  : option ((R * R) * (R * R)) :=
  sep ← match posMap with
        | Some m => calculateSeparation pos m selfId 2.2
        | None => Some (0, 0)
        end;
  playerSep ← calculatePlayerSeparation pos camera 1.6;
  newVel ← calculateMovement brain pos vel
             {| m_dt := dt; m_time := time; m_bounds := b;
                m_playerPos := camera; m_chaseMode := chase;
                m_separationVec := Some (fst sep + fst playerSep,
                                         snd sep + snd playerSep);
                m_isMobile := isMobile |};
  Some (integrate pos newVel dt b, newVel).

End Steering.

(** ** The coordinator and the pets as a transition system *)

Module Sim.






(** The world with its clock. *)
Record State : Type := { world : World; clock : Q }.

(** A pet that has just been mounted. *)
Definition freshPet (rt : PetRuntime) : Prop :=
  rt_social rt = Social.createSocialState /\ rt_held rt = false /\
  mode (rt_brain rt) = wandering.

(** The world after [petsRef.current = pets] for a new roster. *)
Definition withRoster (w : World) (roster : list PetEntry) : World :=
  {| petsRef := roster; apiRef := apiRef w; posMapRef := posMapRef w;
     chaseModeRef := chaseModeRef w; pairCooldown := pairCooldown w;
     frameCounter := frameCounter w; lastSleepSpotRef := lastSleepSpotRef w;
     greets := greets w |}.

Definition initialWorld (roster : list PetEntry)
    (apis : gmap string PetRuntime) : World :=
  {| petsRef := roster; apiRef := apis; posMapRef := ∅;
     chaseModeRef := Social.createChaseMode; pairCooldown := ∅;
     frameCounter := 0; lastSleepSpotRef := None; greets := [] |}.

(** Reachable states: the manager's frame callback advances the clock; a
    pet's own frame callback runs its social expiry at the current clock and
    may report a new position; [setPets] replaces the roster ([addPet],
    [resetPets], [commitPet] and the persistence sampler of [GardenPets.jsx];
    the effect copies it to [petsRef.current]) and leaves every other ref
    of the manager as it is; a newly mounted pet registers its API
    ([registerAPI], which nothing ever undoes: the effect of [GardenPet]
    drops the cleanup it gets back). *)
Inductive reachable : State -> Prop :=
  | reach_init (roster : list PetEntry) (apis : gmap string PetRuntime) :
      (forall id rt, apis !! id = Some rt -> freshPet rt) ->
      reachable {| world := initialWorld roster apis; clock := 0 |}
  | reach_manager (s : State) (dt : Q) (rugs : list (Q * Q))
      (ds : Draws) (n n' : nat) (w' : World) :
      reachable s -> 0 < dt -> draws_valid ds ->
      Manager.managerFrame (clock s + dt) rugs (world s) ds n = Some (w', n') ->
      reachable {| world := w'; clock := clock s + dt |}
  | reach_pet (s : State) (id : string) (rt : PetRuntime) (x z : Q) :
      reachable s -> apiRef (world s) !! id = Some rt ->
      reachable
        {| world :=
             Manager.withApis (world s)
               (<[id := Pet.moveTo x z (Pet.socialExpiry (clock s) rt)]>
                  (apiRef (world s)));
           clock := clock s |}
  | reach_roster (s : State) (roster : list PetEntry) :
      reachable s ->
      reachable {| world := withRoster (world s) roster; clock := clock s |}
  | reach_mount (s : State) (id : string) (rt : PetRuntime) :
      reachable s -> freshPet rt ->
      reachable
        {| world := Manager.withApis (world s) (<[id := rt]> (apiRef (world s)));
           clock := clock s |}.

(** No pet is socially active while it is the chaser or the runner of the
    active chase episode. *)
Definition chaseSocialExclusive (w : World) : Prop :=
  forall id rt,
    apiRef w !! id = Some rt ->
    active (rt_social rt) = true ->
    Manager.chaseInvolved (chaseModeRef w) id = false.

(** The frame callback of the pet registered as [id], as far as the
    coordinator can see it: social expiry at [time]; the pet stays where it
    is. *)
Definition petFrame (time : Q) (id : string) (w : World) : World :=
  match apiRef w !! id with
  | Some rt =>
      Manager.withApis w
        (<[id := Pet.moveTo (vec_x (rt_pos rt)) (vec_z (rt_pos rt))
                   (Pet.socialExpiry time rt)]> (apiRef w))
  | None => w
  end.

Definition petFrames (time : Q) (ids : list string) (w : World) : World :=
  fold_left (fun w' id => petFrame time id w') ids w.

(** [n] rendered frames, one every [dt]: the manager's callback, then the
    callback of every roster pet. *)
Fixpoint runFrames (n : nat) (dt : Q) (rugs : list (Q * Q)) (s : State)
  : M State :=
  match n with
  | O => ret s
  | S k =>
      let* w' := Manager.managerFrame (clock s + dt) rugs (world s) in
      runFrames k dt rugs
        {| world := petFrames (clock s + dt) (List.map pet_id (petsRef w')) w';
           clock := clock s + dt |}
  end.

End Sim.

(** ** Concrete scenes *)

Module Scene.

Definition petA : PetEntry := {| pet_id := "pet_a"; pet_speciesKey := "cat" |}.
Definition petB : PetEntry := {| pet_id := "pet_b"; pet_speciesKey := "dog" |}.

Definition mounted (x z : Q) (species : string) : PetRuntime :=
  {| rt_pos := {| vec_x := x; vec_y := BASE_Y; vec_z := z |}; rt_yaw := 0;
     rt_held := false; rt_brain := Brain.createBrainState 1;
     rt_social := Social.createSocialState; rt_speciesKey := species |}.

(** The rest spots of [GardenPets]. *)
Definition rugs : list (Q * Q) :=
  [(-(35 # 10), -(35 # 10)); (35 # 10, -(35 # 10)); (-(35 # 10), 35 # 10);
   (35 # 10, 35 # 10); (0, 0)].

(** Two pets 1.5 units apart. *)
Definition twoPets : gmap string PetRuntime :=
  <["pet_a" := mounted 0 0 "cat"]> (<["pet_b" := mounted (15 # 10) 0 "dog"]> ∅).

Definition start : Sim.State :=
  {| Sim.world := Sim.initialWorld [petA; petB] twoPets; Sim.clock := 0 |}.

(** The world of [start] just before a scan frame. *)
Definition beforeScan : World :=
  {| petsRef := [petA; petB]; apiRef := twoPets; posMapRef := ∅;
     chaseModeRef := Social.createChaseMode; pairCooldown := ∅;
     frameCounter := 29; lastSleepSpotRef := None; greets := [] |}.

(** Draws: 0.5 everywhere except the 32nd and 33rd, which are 0. *)
Definition chaseDraws : Draws :=
  fun n => if ((n =? 31) || (n =? 32))%nat then 0 else 1 # 2.

(** The state after 31 frames at 60 Hz under [chaseDraws]. *)
Definition afterChaseStart : Sim.State :=
  match Sim.runFrames 31 (1 # 60) rugs start chaseDraws 0%nat with
  | Some (s, _) => s
  | None => start
  end.

(** The world of [beforeScan] inside the scan of frame 30, the snapshot
    taken. *)
Definition scanning : World :=
  {| petsRef := [petA; petB]; apiRef := twoPets;
     posMapRef := Manager.snapshot [petA; petB] twoPets;
     chaseModeRef := Social.createChaseMode; pairCooldown := ∅;
     frameCounter := 30; lastSleepSpotRef := None; greets := [] |}.

Definition afterGreet : World * nat :=
  runOr (Manager.greetPair 10 rugs petA petB scanning) (constDraws (1 # 2)) 0
        scanning.



(** A scan frame reached while pet_a chases pet_b. *)
Definition duringChase : World :=
  {| petsRef := [petA; petB]; apiRef := twoPets; posMapRef := ∅;
     chaseModeRef :=
       {| chase_active := true; chase_until := 12;
          chaserId := Some "pet_a"; runnerId := Some "pet_b";
          runnerPos := vec0; chaserPos := vec0 |};
     pairCooldown := ∅; frameCounter := 29; lastSleepSpotRef := None;
     greets := [] |}.

Definition afterDuringChase : World * nat :=
  runOr (Manager.managerFrame 10 rugs duringChase) (constDraws (1 # 2)) 0
        duringChase.

(** A pet that has just been rubbed a few times. *)
Definition lovedPet : Pet.Petting :=
  {| Pet.lastX := 0; Pet.lastDir := 1; Pet.flips := 0; Pet.love := 44 # 100;
     Pet.emitT := 0 |}.

(** A provider whose roster is full: twelve pets, ref in sync. *)
Definition fullProvider : PetContext.Provider :=
  let roster := List.repeat ({["id" := VStr "pet_x"]} : PetObj) 12 in
  {| PetContext.pets := roster; PetContext.petsRefCurrent := roster;
     PetContext.emitted := [] |}.


(** Brain inputs of a free pet (not held, no chase episode, not socially
    active) at squared distance [d2] from the player. *)
Definition freeParams (d2 : Q) : Brain.Params :=
  {| Brain.p_dt := 1 # 60; Brain.p_time := 30; Brain.p_isHeld := false;
     Brain.p_socialActive := false; Brain.p_playerDist2 := d2;
     Brain.p_chaseMode := Some Social.createChaseMode;
     Brain.p_petId := "pet_a"; Brain.p_rugs := rugs |}.

Definition brainIn (m : Mode) (timer : Q) : BrainState Q :=
  {| mode := m; t := timer; seed := 1; walkS := 0; restSpot := vec0;
     lastInteractAt := 0 |}.

(** Brain inputs of a bystander of a chase: pet_a at squared distance [d2]
    from the player, not held and not socially active, while pet_b chases
    pet_c. *)
Definition bystanderParams (d2 : Q) : Brain.Params :=
  {| Brain.p_dt := 1 # 60; Brain.p_time := 30; Brain.p_isHeld := false;
     Brain.p_socialActive := false; Brain.p_playerDist2 := d2;
     Brain.p_chaseMode :=
       Some {| chase_active := true; chase_until := 33;
               chaserId := Some "pet_b"; runnerId := Some "pet_c";
               runnerPos := vec0; chaserPos := vec0 |};
     Brain.p_petId := "pet_a"; Brain.p_rugs := rugs |}.

Definition petC : PetEntry := {| pet_id := "pet_c"; pet_speciesKey := "bunny" |}.

(** Three pets within greet distance of one another. *)
Definition threePets : gmap string PetRuntime :=
  <["pet_c" := mounted (75 # 100) 1 "bunny"]> twoPets.

(** A world of three pets just before a scan frame. *)
Definition beforeScan3 : World :=
  {| petsRef := [petA; petB; petC]; apiRef := threePets; posMapRef := ∅;
     chaseModeRef := Social.createChaseMode; pairCooldown := ∅;
     frameCounter := 29; lastSleepSpotRef := None; greets := [] |}.

(** Draws: 0.25 at even positions, 0.75 at odd ones. *)
Definition alternatingDraws : Draws :=
  fun n => if Nat.even n then 1 # 4 else 3 # 4.

Definition afterScan3 : World * nat :=
  runOr (Manager.managerFrame 10 rugs beforeScan3) alternatingDraws 0 beforeScan3.




(** The state [afterChaseStart] after [resetPets] has put a roster in place
    that holds neither pet_a nor pet_b. *)
Definition afterReset : Sim.State :=
  {| Sim.world := Sim.withRoster (Sim.world afterChaseStart) [petC];
     Sim.clock := Sim.clock afterChaseStart |}.

(** A pet object whose history holds the numbers [1 .. k], oldest first. *)
Definition loggedPet (k : nat) : PetContext.Logged nat :=
  {| PetContext.lg_obj := {["id" := VStr "pet_x"]};
     PetContext.lg_history := Some (List.seq 1 k) |}.

(** Draws under which the chase starts and every pick lands on index 0 of
    a two-pet roster. *)
Definition sameIndexDraws : Draws :=
  fun n => if (n =? 0)%nat then 1 # 2000 else 1 # 4.

End Scene.

(** ** Concrete steering inputs *)

Module SteerScene.

Local Open Scope R_scope.

(** [ROOM_BOUNDS] *)
Definition room : Steering.Bounds :=
  {| Steering.minX := -9.5; Steering.maxX := 9.5;
     Steering.minZ := -9.5; Steering.maxZ := 9.5 |}.

Definition brainIn (m : Mode) : BrainState R :=
  {| mode := m; t := 0; seed := 0; walkS := 0;
     restSpot := {| vec_x := 0; vec_y := 0; vec_z := 0 |};
     lastInteractAt := 0 |}.

(** A wandering pet at the origin at time 0 whose separation vector cancels
    the noise direction up to (0.0005, 0). *)
Definition cancelling : Steering.MoveParams :=
  {| Steering.m_dt := 1 / 60; Steering.m_time := 0; Steering.m_bounds := room;
     Steering.m_playerPos := (5, 5); Steering.m_chaseMode := None;
     Steering.m_separationVec :=
       Some (0.0005 - Steering.noise1D (0 * 0.55) 0,
             - Steering.noise1D (0 * 0.55 + 100) 0);
     Steering.m_isMobile := false |}.

(** A following pet standing on the player. *)
Definition onPlayer : Steering.MoveParams :=
  {| Steering.m_dt := 1 / 60; Steering.m_time := 0; Steering.m_bounds := room;
     Steering.m_playerPos := (0, 0); Steering.m_chaseMode := None;
     Steering.m_separationVec := Some (0, 0);
     Steering.m_isMobile := false |}.

End SteerScene.

(** ** Vocabulary of the statements *)

(** The social state of a registered pet. *)
Definition socialOf (w : World) (id : string) : option SocialState :=
  rt_social <$> (apiRef w !! id).

(** What the frame leaves alone when only brains or the sleep-spot hint
    change. *)
Definition sameSocialWorld (w w' : World) : Prop :=
  chaseModeRef w' = chaseModeRef w /\ pairCooldown w' = pairCooldown w /\
  greets w' = greets w /\ petsRef w' = petsRef w /\
  posMapRef w' = posMapRef w /\ frameCounter w' = frameCounter w /\
  forall id, socialOf w' id = socialOf w id.


(** The total time of a run of frames. *)
Definition Qsum (l : list Q) : Q := fold_right Qplus 0 l.

(** A pair of the roster whose snapshot poses are not within greet
    distance. *)
Definition apart (posMap : gmap string Pose) (p : PetEntry * PetEntry) : Prop :=
  forall pa pb,
    posMap !! pet_id (fst p) = Some pa ->
    posMap !! pet_id (snd p) = Some pb ->
    Manager.withinGreetDistance pa pb = false.

(** An id that does not contain the separator of the pair key. *)
Fixpoint noBar (s : string) : bool :=
  match s with
  | EmptyString => true
  | String c rest => negb (Ascii.eqb c "|"%char) && noBar rest
  end.

(** The rest spot [b'] holds after a transition that picks one: one of
    [rugs], or the spot of [b] when there is none to pick. *)
Definition restSpotPicked (rugs : list (Q * Q)) (b b' : BrainState Q) : Prop :=
  (rugs = [] /\ restSpot b' = restSpot b) \/
  (exists spot, In spot rugs /\
                restSpot b' = {| vec_x := fst spot; vec_y := 0; vec_z := snd spot |}).

(** A pet whose brain runs on its own: not held, no active chase episode,
    not socially active. *)
Definition freePet (p : Brain.Params) : Prop :=
  Brain.p_isHeld p = false /\ Brain.chaseOn p = None /\
  Brain.p_socialActive p = false.

(** A run of brain updates, one [(params, performance.now())] per frame. *)
Fixpoint updateBrainRun (frames : list (Brain.Params * Q)) (b : BrainState Q)
  : M (BrainState Q) :=
  match frames with
  | [] => ret b
  | (p, now) :: rest =>
      let* b' := Brain.updateBrain b p now in
      updateBrainRun rest b'
  end.

(** What a frame gives the frame callback of a pet: the clock, the frame
    time, [performance.now()], the camera and the chase mode. *)
Record FrameInput : Type := {
  f_time : Q;
  f_dt : Q;
  f_now : Q;
  f_camera : Q * Q;
  f_chase : option (ChaseMode Q)
}.

(** A run of frames of the pet [id] with no event in between; the last
    component of the result is the number of hearts emitted over the run. *)
Fixpoint frameBrainRun (hoverBaseY : Q) (id : string) (rugs : list (Q * Q))
    (frames : list FrameInput) (rt : PetRuntime) (petting : Pet.Petting)
  : M (PetRuntime * Pet.Petting * nat) :=
  match frames with
  | [] => ret (rt, petting, 0%nat)
  | f :: rest =>
      let* r := Pet.frameBrain (f_time f) (f_dt f) (f_now f) hoverBaseY id
                  (f_camera f) (f_chase f) rugs rt petting in
      let* r' := frameBrainRun hoverBaseY id rugs rest (fst (fst r)) (snd (fst r)) in
      ret (fst (fst r'), snd (fst r'), (snd r + snd r')%nat)
  end.

(** The greet event the pair loop logs for the pair [(a, b)] with snapshot
    poses [pa], [pb] at [time]. *)
Definition greetEventOf (time : Q) (a b : PetEntry) (pa pb : Pose) : GreetEvent :=
  {| greet_a := pet_id a; greet_b := pet_id b; greet_time := time;
     greet_mid :=
       {| vec_x := (pose_x pa + pose_x pb) * (5 # 10); vec_y := BASE_Y;
          vec_z := (pose_z pa + pose_z pb) * (5 # 10) |} |}.

(** A greet the scan of a frame may log: two pets of a pair of the scan that
    the snapshot has within greet distance and that the chase episode leaves
    alone. *)
Definition greetAllowed (time : Q) (ps : list (PetEntry * PetEntry))
    (posMap : gmap string Pose) (chase : ChaseMode Q) (e : GreetEvent) : Prop :=
  exists a b pa pb,
    In (a, b) ps /\ e = greetEventOf time a b pa pb /\
    posMap !! pet_id a = Some pa /\ posMap !! pet_id b = Some pb /\
    Manager.withinGreetDistance pa pb = true /\
    Manager.chaseInvolved chase (pet_id a) = false /\
    Manager.chaseInvolved chase (pet_id b) = false.

(** A well-formed chase mode at clock time [now], for a roster: an active
    episode has a chaser and a runner from the roster and ends at most 5.2 s
    from [now]; an inactive one names nobody. *)
Definition chaseWellFormed (roster : list PetEntry) (now : Q)
    (c : ChaseMode Q) : Prop :=
  if chase_active c then
    (exists a b, In a roster /\ In b roster /\
                 chaserId c = Some (pet_id a) /\ runnerId c = Some (pet_id b)) /\
    chase_until c <= now + (52 # 10)
  else chaserId c = None /\ runnerId c = None.

(** The part of it that does not depend on the roster: an active episode
    names a chaser and a runner and ends at most 5.2 s from [now]; an
    inactive one names nobody. *)
Definition chaseNamed (now : Q) (c : ChaseMode Q) : Prop :=
  if chase_active c then
    (exists idA idB, chaserId c = Some idA /\ runnerId c = Some idB) /\
    chase_until c <= now + (52 # 10)
  else chaserId c = None /\ runnerId c = None.

(** The two maps of the memory registry agree: an assignment of a pet names
    a memory that names the pet as guardian, and a guardian named by a memory
    is a non-empty id with an assignment to that memory. *)
Definition consistent (r : MemoryRegistry.Registry) : Prop :=
  (forall p a,
      MemoryRegistry.assignments r !! p = Some a ->
      exists mem,
        MemoryRegistry.memories r !! MemoryRegistry.ga_memoryId a = Some mem /\
        MemoryRegistry.mem_guardianPetId mem = Some p) /\
  (forall m mem p,
      MemoryRegistry.memories r !! m = Some mem ->
      MemoryRegistry.mem_guardianPetId mem = Some p ->
      p <> "" /\
      exists a, MemoryRegistry.assignments r !! p = Some a /\
                MemoryRegistry.ga_memoryId a = m).

(** The calls under which the registry stays consistent: a memory is
    created under an id not in use, and a guardian has a non-empty id. *)
Definition opAllowed (r : MemoryRegistry.Registry) (op : MemoryRegistry.Op)
  : Prop :=
  match op with
  | MemoryRegistry.OpCreate id _ _ _ _ _ =>
      MemoryRegistry.memories r !! id = None
  | MemoryRegistry.OpAssign petId _ _ => petId <> ""
  | _ => True
  end.

(** The registries reached from the empty one by allowed calls. *)
Inductive reachableRegistry : MemoryRegistry.Registry -> Prop :=
  | reach_empty : reachableRegistry MemoryRegistry.empty
  | reach_op (r : MemoryRegistry.Registry) (op : MemoryRegistry.Op) :
      reachableRegistry r -> opAllowed r op ->
      reachableRegistry (MemoryRegistry.runOp op r).

(** * Basic facts *)

Lemma Mode_eqb_eq (a b : Mode) : Mode_eqb a b = true <-> a = b.
Proof. destruct a, b; simpl; split; intro H; try reflexivity; discriminate H. Qed.

Lemma Qltb_lt (x y : Q) : Qltb x y = true <-> x < y.
Proof.
  unfold Qltb. rewrite negb_true_iff. split; intro H.
  - apply Qnot_le_lt. intro Hle. apply Qle_bool_iff in Hle. congruence.
  - destruct (Qle_bool y x) eqn:E; [|reflexivity].
    apply Qle_bool_iff in E. exfalso. apply (Qlt_not_le _ _ H E).
Qed.

Lemma Qltb_ge (x y : Q) : Qltb x y = false <-> y <= x.
Proof.
  unfold Qltb. rewrite negb_false_iff. apply Qle_bool_iff.
Qed.

Lemma idIs_true (id : string) (o : option string) :
  idIs id o = true <-> o = Some id.
Proof.
  destruct o as [i|]; simpl.
  - rewrite String.eqb_eq. split; intro H; [subst; reflexivity | congruence].
  - split; intro H; discriminate H.
Qed.

(** ** Reasoning about computations in [M] *)

Lemma bind_Some {A B : Type} (m : M A) (k : A -> M B) (ds : Draws) (n : nat)
    (r : B * nat) :
  bind m k ds n = Some r <->
  exists a n1, m ds n = Some (a, n1) /\ k a ds n1 = Some r.
Proof.
  unfold bind. split.
  - destruct (m ds n) as [[a n1]|]; [|discriminate]. intro H. eauto.
  - intros (a & n1 & -> & H). exact H.
Qed.

Lemma ret_Some {A : Type} (a : A) (ds : Draws) (n : nat) (r : A * nat) :
  ret a ds n = Some r <-> r = (a, n).
Proof. unfold ret. split; intro H; congruence. Qed.

Lemma defined_Some {A : Type} (o : option A) (ds : Draws) (n : nat) (a : A)
    (n' : nat) :
  defined o ds n = Some (a, n') <-> o = Some a /\ n' = n.
Proof.
  destruct o; simpl; unfold ret, throw; split.
  - intro H. injection H as -> ->. auto.
  - intros [H ->]. congruence.
  - discriminate.
  - intros [H _]. discriminate.
Qed.

Lemma random_Some (ds : Draws) (n : nat) (r : Q) (n' : nat) :
  random ds n = Some (r, n') <-> r = ds n /\ n' = S n.
Proof.
  unfold random. split; [intro H; injection H as <- <-; auto
                        | intros [-> ->]; reflexivity].
Qed.

(** Inversion of a successful run, one bind or return at a time. *)
Ltac inv_M H :=
  match type of H with
  | bind _ _ _ _ = Some _ =>
      let a := fresh "a" in let n := fresh "n" in
      let H1 := fresh "Hrun" in let H2 := fresh "Hrun" in
      apply bind_Some in H; destruct H as (a & n & H1 & H2);
      inv_M H1; inv_M H2
  | ret _ _ _ = Some _ => apply ret_Some in H; inversion H; subst; clear H
  | defined _ _ _ = Some (_, _) =>
      let E := fresh "Edef" in
      apply defined_Some in H; destruct H as [E ->]
  | random _ _ = Some (_, _) =>
      let E := fresh "Erand" in
      apply random_Some in H; destruct H as [E ->]
  | throw _ _ = Some _ => discriminate H
  | _ => idtac
  end.

Lemma nudge_social (spot : Vec3 Q) (rt rt' : PetRuntime) (ds : Draws) (n n' : nat) :
  PetAPI.nudgeToSleepSpot spot rt ds n = Some (rt', n') ->
  rt_social rt' = rt_social rt.
Proof.
  unfold PetAPI.nudgeToSleepSpot, Utils.randRange. intro H.
  inv_M H. reflexivity.
Qed.

Lemma sameSocialWorld_refl (w : World) : sameSocialWorld w w.
Proof. repeat split; reflexivity. Qed.

Lemma sameSocialWorld_trans (w1 w2 w3 : World) :
  sameSocialWorld w1 w2 -> sameSocialWorld w2 w3 -> sameSocialWorld w1 w3.
Proof.
  intros (E1 & E2 & E3 & E4 & E5 & E6 & E7) (F1 & F2 & F3 & F4 & F5 & F6 & F7).
  repeat split; try congruence.
  all: intro id; rewrite F7; apply E7.
Qed.

Lemma nudge_frame (spot : option (Q * Q)) (id : string) (w w' : World)
    (ds : Draws) (n n' : nat) :
  Manager.nudge spot id w ds n = Some (w', n') -> sameSocialWorld w w'.
Proof.
  unfold Manager.nudge. intro H.
  apply bind_Some in H as (s & n1 & Hs & H).
  destruct (apiRef w !! id) as [rt|] eqn:Ert.
  - apply bind_Some in H as (rt' & n2 & Hn1 & Hn2).
    apply nudge_social in Hn1. inv_M Hn2.
    repeat split; try reflexivity.
    intro id0. unfold socialOf. simpl.
    destruct (decide (id = id0)) as [->|Hne].
    + rewrite lookup_insert_eq, Ert. simpl. congruence.
    + rewrite lookup_insert_ne by exact Hne. reflexivity.
  - inv_M H. apply sameSocialWorld_refl.
Qed.

(** The cuddle bias changes neither the chase episode, the cooldowns, the
    greet log nor any social state. *)
Lemma cuddle_frame (rugs : list (Q * Q)) (a b : PetEntry) (pa pb : Pose)
    (w w' : World) (ds : Draws) (n n' : nat) :
  Manager.cuddle rugs a b pa pb w ds n = Some (w', n') ->
  sameSocialWorld w w'.
Proof.
  unfold Manager.cuddle. intro H.
  destruct (Mode_eqb (pose_mode pa) sleeping || Mode_eqb (pose_mode pb) sleeping);
    [|inv_M H; apply sameSocialWorld_refl].
  apply bind_Some in H as (r & n1 & Hr & H).
  destruct (Qltb r (35 # 100)); [|inv_M H; apply sameSocialWorld_refl].
  apply bind_Some in H as (spot & n2 & Hs & H).
  apply bind_Some in H as (w2 & n3 & H2 & H3).
  assert (E1 : sameSocialWorld w (Manager.withSleepSpot w spot))
    by (repeat split; reflexivity).
  assert (E2 : sameSocialWorld (Manager.withSleepSpot w spot) w2).
  { destruct (Mode_eqb (pose_mode pa) sleeping && negb (Mode_eqb (pose_mode pb) sleeping)).
    - eapply nudge_frame; exact H2.
    - inv_M H2. apply sameSocialWorld_refl. }
  assert (E3 : sameSocialWorld w2 w').
  { destruct (Mode_eqb (pose_mode pb) sleeping && negb (Mode_eqb (pose_mode pa) sleeping)).
    - eapply nudge_frame; exact H3.
    - inv_M H3. apply sameSocialWorld_refl. }
  eapply sameSocialWorld_trans; [|exact E3].
  eapply sameSocialWorld_trans; [exact E1 | exact E2].
Qed.

(** What one run of the pair-loop body can do: nothing, or one greet followed
    by the cuddle bias. *)
Lemma greetPair_cases (time : Q) (rugs : list (Q * Q)) (a b : PetEntry)
    (w w' : World) (ds : Draws) (n n' : nat) :
  Manager.greetPair time rugs a b w ds n = Some (w', n') ->
  (w' = w /\ n' = n) \/
  (exists pa pb r n1,
      is_Some (apiRef w !! pet_id a) /\ is_Some (apiRef w !! pet_id b) /\
      posMapRef w !! pet_id a = Some pa /\ posMapRef w !! pet_id b = Some pb /\
      Manager.chaseInvolved (chaseModeRef w) (pet_id a) = false /\
      Manager.chaseInvolved (chaseModeRef w) (pet_id b) = false /\
      Qltb time (Manager.cooldownUntil (pairCooldown w)
                   (Manager.pairKey (pet_id a) (pet_id b))) = false /\
      Manager.withinGreetDistance pa pb = true /\
      random ds n = Some (r, n1) /\
      Manager.cuddle rugs a b pa pb (Manager.greetWorld time a b pa pb r w) ds n1
        = Some (w', n')).
Proof.
  unfold Manager.greetPair. intro H.
  destruct (apiRef w !! pet_id a) as [rtA|] eqn:EA; [|inv_M H; auto].
  destruct (apiRef w !! pet_id b) as [rtB|] eqn:EB; [|inv_M H; auto].
  destruct (posMapRef w !! pet_id a) as [pa|] eqn:PA; [|inv_M H; auto].
  destruct (posMapRef w !! pet_id b) as [pb|] eqn:PB; [|inv_M H; auto].
  destruct (Manager.chaseInvolved (chaseModeRef w) (pet_id a)) eqn:CA;
    cbn [orb] in H; [inv_M H; auto|].
  destruct (Manager.chaseInvolved (chaseModeRef w) (pet_id b)) eqn:CB;
    cbn [orb] in H; [inv_M H; auto|].
  destruct (Qltb time (Manager.cooldownUntil (pairCooldown w)
                         (Manager.pairKey (pet_id a) (pet_id b)))) eqn:CD;
    [inv_M H; auto|].
  destruct (Manager.withinGreetDistance pa pb) eqn:WD; [|inv_M H; auto].
  apply bind_Some in H as (r & n1 & Hr & Hc).
  right. exists pa, pb, r, n1. repeat split; eauto.
Qed.

Lemma socialOf_greetWorld_other (time : Q) (a b : PetEntry) (pa pb : Pose)
    (r : Q) (w : World) (id : string) :
  id <> pet_id a -> id <> pet_id b ->
  socialOf (Manager.greetWorld time a b pa pb r w) id = socialOf w id.
Proof.
  intros Ha Hb. unfold socialOf, Manager.greetWorld. simpl.
  rewrite !lookup_alter_ne by congruence. reflexivity.
Qed.

(** The pair-loop body leaves the roster, the snapshot, the chase episode and
    the frame counter alone. *)
Lemma greetPair_frame (time : Q) (rugs : list (Q * Q)) (a b : PetEntry)
    (w w' : World) (ds : Draws) (n n' : nat) :
  Manager.greetPair time rugs a b w ds n = Some (w', n') ->
  chaseModeRef w' = chaseModeRef w /\ petsRef w' = petsRef w /\
  posMapRef w' = posMapRef w /\ frameCounter w' = frameCounter w.
Proof.
  intro H. apply greetPair_cases in H as [[-> ->]|H]; [auto|].
  destruct H as (pa & pb & r & n1 & _ & _ & _ & _ & _ & _ & _ & _ & _ & Hc).
  apply cuddle_frame in Hc as (E1 & _ & _ & E4 & E5 & E6 & _).
  rewrite E1, E4, E5, E6. auto.
Qed.

(** The pair-loop body never writes the social state of a pet that is the
    chaser or the runner of the active episode. *)
Lemma greetPair_social_chase (time : Q) (rugs : list (Q * Q)) (a b : PetEntry)
    (w w' : World) (ds : Draws) (n n' : nat) (id : string) :
  Manager.greetPair time rugs a b w ds n = Some (w', n') ->
  Manager.chaseInvolved (chaseModeRef w) id = true ->
  socialOf w' id = socialOf w id.
Proof.
  intros H Hin. apply greetPair_cases in H as [[-> ->]|H]; [reflexivity|].
  destruct H as (pa & pb & r & n1 & _ & _ & _ & _ & CA & CB & _ & _ & _ & Hc).
  apply cuddle_frame in Hc as (_ & _ & _ & _ & _ & _ & Hs).
  rewrite Hs. apply socialOf_greetWorld_other; intros ->; congruence.
Qed.

Lemma scanPairs_frame (time : Q) (rugs : list (Q * Q))
    (ps : list (PetEntry * PetEntry)) (ds : Draws) :
  forall (w w' : World) (n n' : nat),
    Manager.scanPairs time rugs ps w ds n = Some (w', n') ->
    chaseModeRef w' = chaseModeRef w /\ petsRef w' = petsRef w /\
    posMapRef w' = posMapRef w /\ frameCounter w' = frameCounter w.
Proof.
  induction ps as [|[a b] rest IH]; intros w w' n n' H; simpl in H.
  - inv_M H. auto.
  - apply bind_Some in H as (w1 & n1 & H1 & H2).
    apply greetPair_frame in H1 as (E1 & E2 & E3 & E4).
    apply IH in H2 as (F1 & F2 & F3 & F4).
    rewrite F1, F2, F3, F4. auto.
Qed.

Lemma scanPairs_social_chase (time : Q) (rugs : list (Q * Q))
    (ps : list (PetEntry * PetEntry)) (id : string) (ds : Draws) :
  forall (w w' : World) (n n' : nat),
    Manager.scanPairs time rugs ps w ds n = Some (w', n') ->
    Manager.chaseInvolved (chaseModeRef w) id = true ->
    socialOf w' id = socialOf w id.
Proof.
  induction ps as [|[a b] rest IH]; intros w w' n n' H Hin; simpl in H.
  - inv_M H. reflexivity.
  - apply bind_Some in H as (w1 & n1 & H1 & H2).
    pose proof (greetPair_frame _ _ _ _ _ _ _ _ _ H1) as (E1 & _).
    rewrite (IH _ _ _ _ H2) by (rewrite E1; exact Hin).
    eapply greetPair_social_chase; eauto.
Qed.

(** The frame callback up to the scan: the world the pair loop starts from. *)
Lemma managerFrame_cases (time : Q) (rugs : list (Q * Q)) (w w' : World)
    (ds : Draws) (n n' : nat) :
  Manager.managerFrame time rugs w ds n = Some (w', n') ->
  exists chase n1 w1,
    Manager.chaseStep time (petsRef w) (Manager.snapshot (petsRef w) (apiRef w))
      (chaseModeRef w) ds n = Some (chase, n1) /\
    w1 = {| petsRef := petsRef w; apiRef := apiRef w;
            posMapRef := Manager.snapshot (petsRef w) (apiRef w);
            chaseModeRef := chase; pairCooldown := pairCooldown w;
            frameCounter := (frameCounter w + 1)%Z;
            lastSleepSpotRef := lastSleepSpotRef w; greets := greets w |} /\
    ((w' = w1 /\ n' = n1) \/
     (Z.rem (frameCounter w + 1) SOCIAL_CHECK_EVERY_FRAMES = 0%Z /\
      (2 <= List.length (petsRef w))%nat /\
      Manager.scanPairs time rugs (Manager.pairsOf (petsRef w)) w1 ds n1
        = Some (w', n'))).
Proof.
  unfold Manager.managerFrame. intro H.
  apply bind_Some in H as (chase & n1 & Hc & H).
  exists chase, n1. eexists. split; [exact Hc|]. split; [reflexivity|].
  destruct (Z.rem (frameCounter w + 1) SOCIAL_CHECK_EVERY_FRAMES =? 0)%Z eqn:Erem;
    simpl in H; [|inv_M H; auto].
  destruct (List.length (petsRef w) <? 2)%nat eqn:Elen; [inv_M H; auto|].
  right. apply Z.eqb_eq in Erem. apply Nat.ltb_ge in Elen. auto.
Qed.

(** ** C1: social state against the chase episode *)

(** C1, as amended.  In a frame of the coordinator the greet scan never writes
    the social state of a pet that is the chaser or the runner of the chase
    episode active in that frame: its social state after the frame is the one
    it had before.  (Chase arbitration itself does not look at social
    states.) *)
Theorem greet_scan_spares_chase_pair (time : Q) (rugs : list (Q * Q))
    (w w' : World) (ds : Draws) (n n' : nat) (id : string) :
  Manager.managerFrame time rugs w ds n = Some (w', n') ->
  Manager.chaseInvolved (chaseModeRef w') id = true ->
  socialOf w' id = socialOf w id.
Proof.
  intros H Hin.
  apply managerFrame_cases in H as (chase & n1 & w1 & Hc & Ew1 & [[-> ->]|H]).
  - subst w1. reflexivity.
  - destruct H as (_ & _ & Hscan).
    pose proof (scanPairs_frame _ _ _ _ _ _ _ _ Hscan) as (E1 & _).
    rewrite (scanPairs_social_chase _ _ _ _ _ _ _ _ _ Hscan)
      by (rewrite <- E1; exact Hin).
    subst w1. reflexivity.
Qed.

Lemma greet_scan_spares_chase_pair_witness :
  socialOf (fst Scene.afterDuringChase) "pet_a"
  = socialOf Scene.duringChase "pet_a".
Proof.
  apply (greet_scan_spares_chase_pair 10 Scene.rugs Scene.duringChase
           (fst Scene.afterDuringChase) (constDraws (1 # 2)) 0
           (snd Scene.afterDuringChase)).
  - vm_compute. reflexivity.
  - vm_compute. reflexivity.
Defined.

Lemma chaseDraws_valid : draws_valid Scene.chaseDraws.
Proof.
  intro n. unfold Scene.chaseDraws.
  destruct ((n =? 31) || (n =? 32))%nat; split; unfold Qle, Qlt; simpl; lia.
Qed.

Lemma start_reachable : Sim.reachable Scene.start.
Proof.
  unfold Scene.start. apply Sim.reach_init.
  intros id rt H. unfold Scene.twoPets in H.
  apply lookup_insert_Some in H as [[_ <-]|[_ H]]; [repeat split|].
  apply lookup_insert_Some in H as [[_ <-]|[_ H]]; [repeat split|].
  rewrite lookup_empty in H. discriminate H.
Qed.

Lemma petFrame_reachable (w : World) (time : Q) (id : string) :
  Sim.reachable {| Sim.world := w; Sim.clock := time |} ->
  Sim.reachable {| Sim.world := Sim.petFrame time id w; Sim.clock := time |}.
Proof.
  intro H. unfold Sim.petFrame.
  destruct (apiRef w !! id) as [rt|] eqn:E; [|exact H].
  exact (Sim.reach_pet {| Sim.world := w; Sim.clock := time |} id rt
           (vec_x (rt_pos rt)) (vec_z (rt_pos rt)) H E).
Qed.

Lemma petFrames_reachable (time : Q) (ids : list string) :
  forall w : World,
    Sim.reachable {| Sim.world := w; Sim.clock := time |} ->
    Sim.reachable {| Sim.world := Sim.petFrames time ids w; Sim.clock := time |}.
Proof.
  induction ids as [|id rest IH]; intros w H; simpl; [exact H|].
  apply IH. apply petFrame_reachable. exact H.
Qed.

Lemma runFrames_reachable (k : nat) (dt : Q) (rugs : list (Q * Q)) (ds : Draws) :
  0 < dt -> draws_valid ds ->
  forall (s s' : Sim.State) (n n' : nat),
    Sim.reachable s ->
    Sim.runFrames k dt rugs s ds n = Some (s', n') ->
    Sim.reachable s'.
Proof.
  intros Hdt Hv. induction k as [|k IH]; intros s s' n n' Hs H; simpl in H.
  - inv_M H. exact Hs.
  - apply bind_Some in H as (w1 & n1 & H1 & H2).
    eapply IH; [|exact H2].
    apply petFrames_reachable.
    eapply Sim.reach_manager; eauto.
Qed.

(** C1, as stated, fails: after a greet at frame 30 both pets are socially
    active, and at frame 31 chase arbitration picks them as chaser and
    runner; their social states are still active after their own callbacks
    of that frame. *)
Lemma chase_selects_socially_active_pet :
  Sim.reachable Scene.afterChaseStart /\
  ~ Sim.chaseSocialExclusive (Sim.world Scene.afterChaseStart).
Proof.
  split.
  - destruct (Sim.runFrames 31 (1 # 60) Scene.rugs Scene.start Scene.chaseDraws 0%nat)
      as [[s n']|] eqn:E.
    + assert (Es : Scene.afterChaseStart = s).
      { unfold Scene.afterChaseStart. rewrite E. reflexivity. }
      rewrite Es.
      eapply (runFrames_reachable 31 (1 # 60) Scene.rugs Scene.chaseDraws);
        [reflexivity | exact chaseDraws_valid | exact start_reachable | exact E].
    + vm_compute in E. discriminate E.
  - intro Hinv. pose proof (Hinv "pet_a") as H.
    destruct (apiRef (Sim.world Scene.afterChaseStart) !! "pet_a") as [rt|] eqn:E;
      [|vm_compute in E; discriminate E].
    specialize (H rt eq_refl).
    vm_compute in E. injection E as <-.
    specialize (H eq_refl). vm_compute in H. discriminate H.
Qed.

(** ** C2: the chaser and the runner of a new episode *)

(** The retry loop of [maybeStartChase] reads at most as many draws as it has
    retries left. *)
Lemma social_redraw_cursor (k : nat) (pets : list PetEntry) (a : PetEntry)
    (ds : Draws) :
  forall (b b' : PetEntry) (n n' : nat),
    Social.redraw k pets a b ds n = Some (b', n') ->
    (n <= n' <= n + k)%nat.
Proof.
  induction k as [|k IH]; intros b b' n n' H; simpl in H.
  - inv_M H. lia.
  - destruct (String.eqb (pet_id b) (pet_id a)).
    + apply bind_Some in H as (o & n1 & Hp & H).
      apply bind_Some in H as (b1 & n2 & Hd & H).
      unfold Utils.pick in Hp. inv_M Hp. inv_M Hd.
      apply IH in H. lia.
    + inv_M H. lia.
Qed.

(** [maybeStartChase] of [ai/social.js]: an episode it starts has two
    different pets, after at most six redraws (ten draws in all). *)
Lemma maybeStartChase_distinct (c c' : ChaseMode Q) (pets : list PetEntry)
    (time : Q) (ds : Draws) (n n' : nat) :
  Social.maybeStartChase c pets time ds n = Some ((true, c'), n') ->
  chase_active c' = true /\ chaserId c' <> runnerId c' /\
  is_Some (chaserId c') /\ is_Some (runnerId c') /\ (n' <= n + 10)%nat.
Proof.
  unfold Social.maybeStartChase. intro H.
  destruct (chase_active c); [inv_M H|].
  destruct (List.length pets <? 2)%nat; [inv_M H|].
  apply bind_Some in H as (r & n1 & Hr & H). inv_M Hr.
  destruct (Qgeb _ _); [inv_M H|].
  apply bind_Some in H as (a' & n2 & Ha' & H). unfold Utils.pick in Ha'. inv_M Ha'.
  apply bind_Some in H as (a & n3 & Ha & H). inv_M Ha.
  apply bind_Some in H as (b' & n4 & Hb' & H). unfold Utils.pick in Hb'. inv_M Hb'.
  apply bind_Some in H as (b0 & n5 & Hb0 & H). inv_M Hb0.
  apply bind_Some in H as (b & n6 & Hb & H).
  apply social_redraw_cursor in Hb.
  destruct (String.eqb (pet_id b) (pet_id a)) eqn:Eid; [inv_M H|].
  unfold Utils.randRange in H. inv_M H. simpl.
  apply String.eqb_neq in Eid.
  repeat split; eauto; [congruence | lia].
Qed.

(** C2 fails in [PetManager] of [GardenPets.jsx]: with two pets, when the
    chase draw succeeds and the two picks and the six redraws all land on
    index 0, the episode starts with pet_a as both chaser and runner.
    [maybeStartChase] of [ai/social.js] starts no episode on the same
    draws. *)
Theorem garden_chase_start_same_agent :
  (exists c n',
      Manager.chaseStep 10 [Scene.petA; Scene.petB] ∅ Social.createChaseMode
        Scene.sameIndexDraws 0%nat = Some (c, n') /\
      chase_active c = true /\
      chaserId c = Some "pet_a" /\ runnerId c = Some "pet_a" /\ n' = 10%nat) /\
  (exists n',
      Social.maybeStartChase Social.createChaseMode [Scene.petA; Scene.petB] 10
        Scene.sameIndexDraws 0%nat = Some ((false, Social.createChaseMode), n')).
Proof.
  split.
  - eexists. eexists. split; [vm_compute; reflexivity|].
    repeat split.
  - eexists. vm_compute. reflexivity.
Qed.

(** ** C3: following the player *)

Lemma Qle_bool_false (x y : Q) : Qle_bool x y = false <-> y < x.
Proof.
  rewrite <- Qltb_lt. unfold Qltb. rewrite negb_true_iff. reflexivity.
Qed.

(** The stages of [updateBrain] on a pet far from the player. *)
Lemma sleepCheck_far (p : Brain.Params) (now : Q) (b : BrainState Q)
    (ds : Draws) (n : nat) :
  64 < Brain.p_playerDist2 p ->
  Brain.sleepCheck p now b ds n = Some (b, n).
Proof.
  intro Hfar. unfold Brain.sleepCheck.
  replace (Qle_bool (Brain.p_playerDist2 p) 64) with false
    by (symmetry; apply Qle_bool_false; exact Hfar).
  rewrite andb_false_r. reflexivity.
Qed.

Lemma wanderStep_far (p : Brain.Params) (b : BrainState Q) (ds : Draws) (n : nat) :
  mode b = wandering -> 64 < Brain.p_playerDist2 p ->
  Brain.wanderStep p b ds n
  = Some (Brain.setMode (Brain.setWalkS b (walkS b + Brain.p_dt p)) following, n).
Proof.
  intros Hm Hfar. unfold Brain.wanderStep. rewrite Hm. cbn [Mode_eqb].
  replace (Qgtb (Brain.p_playerDist2 p) 64) with true
    by (symmetry; apply Qltb_lt; exact Hfar).
  reflexivity.
Qed.

Lemma wanderStep_other (p : Brain.Params) (b : BrainState Q) (ds : Draws) (n : nat) :
  mode b <> wandering -> Brain.wanderStep p b ds n = Some (b, n).
Proof.
  intro Hm. unfold Brain.wanderStep.
  destruct (Mode_eqb (mode b) wandering) eqn:E; [|reflexivity].
  apply Mode_eqb_eq in E. contradiction.
Qed.

Lemma settle_following_far (p : Brain.Params) (b : BrainState Q) :
  mode b = following -> 64 < Brain.p_playerDist2 p -> Brain.settle p b = b.
Proof.
  intros Hm Hfar. unfold Brain.settle. rewrite Hm. cbn [Mode_eqb].
  replace (Qle_bool (Brain.p_playerDist2 p) 64) with false
    by (symmetry; apply Qle_bool_false; exact Hfar).
  cbn [andb]. rewrite Hm. reflexivity.
Qed.

Lemma settle_following_near (p : Brain.Params) (b : BrainState Q) :
  mode b = following -> Brain.p_playerDist2 p <= 64 ->
  Brain.settle p b = Brain.setWalkS (Brain.setMode b wandering) 0.
Proof.
  intros Hm Hnear. unfold Brain.settle. rewrite Hm. cbn [Mode_eqb].
  replace (Qle_bool (Brain.p_playerDist2 p) 64) with true
    by (symmetry; apply Qle_bool_iff; exact Hnear).
  reflexivity.
Qed.

(** The idle-sleep check leaves the brain alone when the pet was touched in
    the last 22 seconds or the draw is not below [0.035 * dt]. *)
Lemma sleepCheck_idle (p : Brain.Params) (now : Q) (b : BrainState Q)
    (ds : Draws) (n : nat) :
  (now * (1 # 1000) - lastInteractAt b <= PERSONALITY.sleepAfterNoInteractS \/
   (35 # 1000) * Brain.p_dt p <= ds n) ->
  exists n', Brain.sleepCheck p now b ds n = Some (b, n').
Proof.
  intro Hidle. unfold Brain.sleepCheck.
  destruct (negb (Mode_eqb (mode b) sleeping)
            && Qle_bool (Brain.p_playerDist2 p) 64); [|eexists; reflexivity].
  destruct (Qgtb (now * (1 # 1000) - lastInteractAt b)
                 PERSONALITY.sleepAfterNoInteractS) eqn:Egt;
    [|eexists; reflexivity].
  destruct Hidle as [Hle|Hdraw].
  - apply Qltb_lt in Egt. exfalso. exact (Qlt_not_le _ _ Egt Hle).
  - unfold bind, random.
    replace (Qltb (ds n) ((35 # 1000) * Brain.p_dt p)) with false
      by (symmetry; apply Qltb_ge; exact Hdraw).
    eexists. reflexivity.
Qed.

(** ** C5: the pair cooldown *)


Lemma cooldownUntil_insert (m : gmap string Q) (k k' : string) (v : Q) :
  Manager.cooldownUntil (<[k := v]> m) k'
  = if decide (k = k') then v else Manager.cooldownUntil m k'.
Proof.
  unfold Manager.cooldownUntil. rewrite lookup_insert.
  destruct (decide (k = k')); reflexivity.
Qed.









(** ** C7: the greet *)

Lemma Qtrunc_nonneg (q : Q) : 0 <= q -> Manager.Qtrunc q = Qfloor q.
Proof.
  destruct q as [num den]. unfold Manager.Qtrunc, Qfloor, Qle. simpl.
  intro H. apply Z.quot_div_nonneg; lia.
Qed.

Lemma Qfloor_index (r : Q) (len : nat) :
  0 <= r -> r < 1 -> (0 < len)%nat ->
  (0 <= Qfloor (r * inject_Z (Z.of_nat len)) < Z.of_nat len)%Z.
Proof.
  intros H0 H1 Hlen.
  assert (Hl : 0 < inject_Z (Z.of_nat len)).
  { rewrite <- (Zlt_Qlt 0). lia. }
  assert (Hq0 : 0 <= r * inject_Z (Z.of_nat len)) by nra.
  assert (Hq1 : r * inject_Z (Z.of_nat len) < inject_Z (Z.of_nat len)) by nra.
  split.
  - change 0%Z with (Qfloor 0). apply Qfloor_resp_le. exact Hq0.
  - rewrite Zlt_Qlt. eapply Qle_lt_trans; [apply Qfloor_le | exact Hq1].
Qed.

(** [pick] of [GardenPets.jsx] on a non-empty array returns one of its
    elements. *)
Lemma manager_pick_Some {A : Type} (arr : list A) (ds : Draws) (n : nat) :
  draws_valid ds -> arr <> [] ->
  exists x, Manager.pick arr ds n = Some (Some x, S n) /\ In x arr.
Proof.
  intros Hv Hne. unfold Manager.pick, bind, random, ret.
  destruct (Hv n) as [H0 H1].
  assert (Hlen : (0 < List.length arr)%nat) by (destruct arr; simpl; [congruence | lia]).
  rewrite Qtrunc_nonneg by (assert (0 <= inject_Z (Z.of_nat (List.length arr)))
                              by (rewrite <- (Zle_Qle 0); lia); nra).
  pose proof (Qfloor_index (ds n) (List.length arr) H0 H1 Hlen) as [Hi0 Hi1].
  destruct (nth_error arr (Z.to_nat (Qfloor (ds n * inject_Z (Z.of_nat (List.length arr))))))
    as [x|] eqn:E.
  - exists x. split; [|eapply nth_error_In; exact E].
    destruct (Qfloor _); [rewrite E; reflexivity | rewrite E; reflexivity | lia].
  - apply nth_error_None in E. lia.
Qed.

Lemma nudge_total (s : Q * Q) (id : string) (w : World) (ds : Draws) (n : nat) :
  exists w' n', Manager.nudge (Some s) id w ds n = Some (w', n').
Proof.
  unfold Manager.nudge, bind, defined, ret.
  destruct (apiRef w !! id); [|eexists; eexists; reflexivity].
  unfold PetAPI.nudgeToSleepSpot, Utils.randRange, bind, random, ret.
  eexists. eexists. reflexivity.
Qed.

(** The cuddle bias never throws when there is a rest spot to pick. *)
Lemma cuddle_total (rugs : list (Q * Q)) (a b : PetEntry) (pa pb : Pose)
    (w : World) (ds : Draws) (n : nat) :
  draws_valid ds -> rugs <> [] ->
  exists w' n', Manager.cuddle rugs a b pa pb w ds n = Some (w', n').
Proof.
  intros Hv Hrugs. unfold Manager.cuddle.
  destruct (Mode_eqb (pose_mode pa) sleeping || Mode_eqb (pose_mode pb) sleeping);
    [|eexists; eexists; reflexivity].
  unfold bind at 1. unfold random at 1.
  destruct (Qltb (ds n) (35 # 100)); [|eexists; eexists; reflexivity].
  assert (Hspot : exists s n1,
    (match lastSleepSpotRef w with
     | Some s => ret (Some s)
     | None => Manager.pick rugs
     end) ds (S n) = Some (Some s, n1)).
  { destruct (lastSleepSpotRef w) as [s|].
    - exists s, (S n). reflexivity.
    - destruct (manager_pick_Some rugs ds (S n) Hv Hrugs) as (s & Hs & _).
      exists s. eexists. exact Hs. }
  destruct Hspot as (s & n1 & Hspot).
  unfold bind at 1. rewrite Hspot.
  set (w1 := Manager.withSleepSpot w (Some s)).
  assert (H2 : exists w2 n2,
    (if Mode_eqb (pose_mode pa) sleeping && negb (Mode_eqb (pose_mode pb) sleeping)
     then Manager.nudge (Some s) (pet_id b) w1 else ret w1) ds n1 = Some (w2, n2)).
  { destruct (Mode_eqb (pose_mode pa) sleeping
              && negb (Mode_eqb (pose_mode pb) sleeping));
      [apply nudge_total | eexists; eexists; reflexivity]. }
  destruct H2 as (w2 & n2 & H2).
  unfold bind at 1. rewrite H2.
  destruct (Mode_eqb (pose_mode pb) sleeping
            && negb (Mode_eqb (pose_mode pa) sleeping));
    [apply nudge_total | eexists; eexists; reflexivity].
Qed.

Lemma snapshot_fold_notin (apis : gmap string PetRuntime) (id : string)
    (arr : list PetEntry) :
  forall m : gmap string Pose,
    ~ In id (List.map pet_id arr) ->
    foldl (fun m p =>
             match apis !! pet_id p with
             | Some rt => <[pet_id p := PetAPI.getPose rt]> m
             | None => m
             end) m arr !! id = m !! id.
Proof.
  induction arr as [|p rest IH]; intros m Hnot; simpl; [reflexivity|].
  simpl in Hnot. rewrite IH by tauto.
  destruct (apis !! pet_id p); [|reflexivity].
  apply lookup_insert_ne. tauto.
Qed.

Lemma snapshot_fold_in (apis : gmap string PetRuntime) (id : string)
    (rt : PetRuntime) (arr : list PetEntry) :
  apis !! id = Some rt ->
  forall m : gmap string Pose,
    In id (List.map pet_id arr) ->
    foldl (fun m p =>
             match apis !! pet_id p with
             | Some rt => <[pet_id p := PetAPI.getPose rt]> m
             | None => m
             end) m arr !! id = Some (PetAPI.getPose rt).
Proof.
  intro Hrt. induction arr as [|p rest IH]; intros m Hin; simpl; [destruct Hin|].
  destruct (in_dec string_dec id (List.map pet_id rest)) as [Hr|Hr].
  - apply IH. exact Hr.
  - destruct Hin as [Hp|Hin]; [|contradiction].
    rewrite snapshot_fold_notin by exact Hr.
    rewrite Hp, Hrt. apply lookup_insert_eq.
Qed.

(** The snapshot holds the pose of every roster pet that registered. *)
Lemma snapshot_lookup (arr : list PetEntry) (apis : gmap string PetRuntime)
    (p : PetEntry) (rt : PetRuntime) :
  In p arr -> apis !! pet_id p = Some rt ->
  Manager.snapshot arr apis !! pet_id p = Some (PetAPI.getPose rt).
Proof.
  intros Hin Hrt. unfold Manager.snapshot.
  apply snapshot_fold_in; [exact Hrt|]. apply in_map. exact Hin.
Qed.

Lemma pairsOf_In (arr : list PetEntry) (a b : PetEntry) :
  In (a, b) (Manager.pairsOf arr) -> In a arr /\ In b arr.
Proof.
  induction arr as [|x rest IH]; simpl; [tauto|].
  intro H. apply in_app_or in H as [H|H].
  - apply in_map_iff in H as (y & E & Hy). injection E as <- <-. auto.
  - apply IH in H. tauto.
Qed.

Lemma pairsOf_length (arr : list PetEntry) :
  Manager.pairsOf arr <> [] -> (2 <= List.length arr)%nat.
Proof.
  destruct arr as [|x [|y rest]]; simpl; [congruence | congruence | lia].
Qed.

Lemma scanPairs_app (time : Q) (rugs : list (Q * Q))
    (ps1 ps2 : list (PetEntry * PetEntry)) (ds : Draws) :
  forall (w : World) (n : nat),
    Manager.scanPairs time rugs (ps1 ++ ps2) w ds n
    = bind (Manager.scanPairs time rugs ps1 w)
           (fun w' => Manager.scanPairs time rugs ps2 w') ds n.
Proof.
  induction ps1 as [|[a b] rest IH]; intros w n; simpl.
  - reflexivity.
  - unfold bind. destruct (Manager.greetPair time rugs a b w ds n) as [[w1 n1]|].
    + rewrite IH. unfold bind. reflexivity.
    + reflexivity.
Qed.

(** The pair-loop body does nothing on a pair that is apart. *)
Lemma greetPair_apart (time : Q) (rugs : list (Q * Q)) (a b : PetEntry)
    (w : World) (ds : Draws) (n : nat) :
  apart (posMapRef w) (a, b) ->
  Manager.greetPair time rugs a b w ds n = Some (w, n).
Proof.
  intro Hap. unfold Manager.greetPair.
  destruct (apiRef w !! pet_id a); [|reflexivity].
  destruct (apiRef w !! pet_id b); [|reflexivity].
  destruct (posMapRef w !! pet_id a) as [pa|] eqn:PA; [|reflexivity].
  destruct (posMapRef w !! pet_id b) as [pb|] eqn:PB; [|reflexivity].
  destruct (_ || _); [reflexivity|].
  destruct (Qltb time _); [reflexivity|].
  rewrite (Hap pa pb PA PB). reflexivity.
Qed.

Lemma scanPairs_apart (time : Q) (rugs : list (Q * Q))
    (ps : list (PetEntry * PetEntry)) (w : World) (ds : Draws) (n : nat) :
  Forall (apart (posMapRef w)) ps ->
  Manager.scanPairs time rugs ps w ds n = Some (w, n).
Proof.
  induction 1 as [|[a b] rest Hab _ IH]; simpl; [reflexivity|].
  unfold bind. rewrite greetPair_apart by exact Hab. exact IH.
Qed.

(** The pair-loop body on a pair that passes every test: both pets get the
    social state of the greet. *)
Lemma greetPair_greets (time : Q) (rugs : list (Q * Q)) (a b : PetEntry)
    (rtA rtB : PetRuntime) (pa pb : Pose) (w : World) (ds : Draws) (n : nat) :
  draws_valid ds -> rugs <> [] ->
  pet_id a <> pet_id b ->
  apiRef w !! pet_id a = Some rtA -> apiRef w !! pet_id b = Some rtB ->
  posMapRef w !! pet_id a = Some pa -> posMapRef w !! pet_id b = Some pb ->
  Manager.chaseInvolved (chaseModeRef w) (pet_id a) = false ->
  Manager.chaseInvolved (chaseModeRef w) (pet_id b) = false ->
  Manager.cooldownUntil (pairCooldown w) (Manager.pairKey (pet_id a) (pet_id b))
    <= time ->
  Manager.withinGreetDistance pa pb = true ->
  exists w' n' d,
    Manager.greetPair time rugs a b w ds n = Some (w', n') /\
    105 # 100 <= d /\ d <= 15 # 10 /\
    socialOf w' (pet_id a)
    = Some {| active := true; until := time + d; partnerId := Some (pet_id b);
              partnerPos := {| vec_x := pose_x pb; vec_y := BASE_Y;
                               vec_z := pose_z pb |};
              facePartnerYaw := YawAtan2 (pose_x pb - vec_x (rt_pos rtA))
                                         (pose_z pb - vec_z (rt_pos rtA)) |} /\
    socialOf w' (pet_id b)
    = Some {| active := true; until := time + d; partnerId := Some (pet_id a);
              partnerPos := {| vec_x := pose_x pa; vec_y := BASE_Y;
                               vec_z := pose_z pa |};
              facePartnerYaw := YawAtan2 (pose_x pa - vec_x (rt_pos rtB))
                                         (pose_z pa - vec_z (rt_pos rtB)) |} /\
    In {| greet_a := pet_id a; greet_b := pet_id b; greet_time := time;
          greet_mid := {| vec_x := (pose_x pa + pose_x pb) * (5 # 10);
                          vec_y := BASE_Y;
                          vec_z := (pose_z pa + pose_z pb) * (5 # 10) |} |}
       (greets w').
Proof.
  intros Hv Hrugs Hne HA HB PA PB CA CB Hcd Hwd.
  unfold Manager.greetPair. rewrite HA, HB, PA, PB, CA, CB. cbn [orb].
  replace (Qltb time _) with false by (symmetry; apply Qltb_ge; exact Hcd).
  rewrite Hwd. unfold bind at 1. unfold random at 1.
  destruct (cuddle_total rugs a b pa pb
              (Manager.greetWorld time a b pa pb (ds n) w) ds (S n) Hv Hrugs)
    as (w' & n' & Hcud).
  rewrite Hcud. exists w', n', ((105 # 100) + ds n * (45 # 100)).
  apply cuddle_frame in Hcud as (_ & _ & Egr & _ & _ & _ & Hsoc).
  destruct (Hv n) as [H0 H1].
  split; [reflexivity|]. split; [lra|]. split; [lra|].
  rewrite !Hsoc, Egr. unfold socialOf, Manager.greetWorld. cbn [apiRef greets].
  split; [|split].
  - rewrite lookup_alter_ne by congruence. rewrite lookup_alter_eq, HA. reflexivity.
  - rewrite lookup_alter_eq, lookup_alter_ne, HB by congruence. reflexivity.
  - apply in_or_app. right. left. reflexivity.
Qed.

(** The distance test the manager inlines is [isWithinSocialDistance] of
    [ai/social.js]. *)
Lemma isWithinSocialDistance_inline (pa pb : Pose) :
  Social.isWithinSocialDistance (pose_x pa, pose_z pa) (pose_x pb, pose_z pb)
  = Manager.withinGreetDistance pa pb.
Proof. reflexivity. Qed.

(** [startSocialInteraction] of [ai/social.js] sets both states the same
    way. *)
Lemma startSocialInteraction_mutual (socialA socialB : SocialState)
    (posA posB : Q * Q) (idA idB : string) (time baseY : Q) (ds : Draws)
    (n : nat) :
  draws_valid ds ->
  exists sa sb d,
    Social.startSocialInteraction socialA socialB posA posB idA idB time baseY
      ds n = Some ((sa, sb), S n) /\
    105 # 100 <= d /\ d <= 15 # 10 /\
    active sa = true /\ active sb = true /\
    partnerId sa = Some idB /\ partnerId sb = Some idA /\
    until sa = time + d /\ until sb = time + d.
Proof.
  intro Hv. destruct (Hv n) as [H0 H1].
  unfold Social.startSocialInteraction, Utils.randRange, bind, random, ret.
  eexists. eexists. exists (Utils.lerp (105 # 100) (15 # 10) (ds n)).
  split; [reflexivity|].
  unfold Utils.lerp. split; [lra|]. split; [lra|]. repeat split.
Qed.

(** C7, as amended.  For two distinct registered pets whose cooldown has
    expired, that the chase leaves uninvolved and whose poses are within
    greet distance, the greet of the pair (the body of the pair loop, in a
    scan frame on any roster) sets both social states active, each naming
    the other as partner, both with the same [until], the frame time plus
    one duration in [1.05, 1.5].  In a scan frame (the incremented frame
    counter is a multiple of 30) in which no other pair of the roster is
    within greet distance, both states are still so after the frame.
    [startSocialInteraction] of [ai/social.js] sets two social states in
    the same way. *)
Theorem greet_sets_both_social_states (time : Q) (rugs : list (Q * Q))
    (w : World) (ds : Draws) (n n1 : nat) (chase : ChaseMode Q)
    (a b : PetEntry) (rtA rtB : PetRuntime)
    (ps1 ps2 : list (PetEntry * PetEntry)) :
  draws_valid ds -> rugs <> [] ->
  Z.rem (frameCounter w + 1) SOCIAL_CHECK_EVERY_FRAMES = 0%Z ->
  Manager.pairsOf (petsRef w) = (ps1 ++ (a, b) :: ps2)%list ->
  Forall (apart (Manager.snapshot (petsRef w) (apiRef w))) ps1 ->
  Forall (apart (Manager.snapshot (petsRef w) (apiRef w))) ps2 ->
  pet_id a <> pet_id b ->
  apiRef w !! pet_id a = Some rtA -> apiRef w !! pet_id b = Some rtB ->
  Manager.chaseStep time (petsRef w) (Manager.snapshot (petsRef w) (apiRef w))
    (chaseModeRef w) ds n = Some (chase, n1) ->
  Manager.chaseInvolved chase (pet_id a) = false ->
  Manager.chaseInvolved chase (pet_id b) = false ->
  Manager.cooldownUntil (pairCooldown w) (Manager.pairKey (pet_id a) (pet_id b))
    <= time ->
  Manager.withinGreetDistance (PetAPI.getPose rtA) (PetAPI.getPose rtB) = true ->
  (exists w' n' d,
      Manager.managerFrame time rugs w ds n = Some (w', n') /\
      105 # 100 <= d /\ d <= 15 # 10 /\
      (exists sa sb,
          socialOf w' (pet_id a) = Some sa /\ socialOf w' (pet_id b) = Some sb /\
          active sa = true /\ active sb = true /\
          partnerId sa = Some (pet_id b) /\ partnerId sb = Some (pet_id a) /\
          until sa = time + d /\ until sb = time + d) /\
      exists e, In e (greets w') /\ greet_a e = pet_id a /\
                greet_b e = pet_id b /\ greet_time e = time) /\
  (forall (w1 : World) (rtA1 rtB1 : PetRuntime) (pa pb : Pose) (k : nat),
      apiRef w1 !! pet_id a = Some rtA1 -> apiRef w1 !! pet_id b = Some rtB1 ->
      posMapRef w1 !! pet_id a = Some pa -> posMapRef w1 !! pet_id b = Some pb ->
      Manager.chaseInvolved (chaseModeRef w1) (pet_id a) = false ->
      Manager.chaseInvolved (chaseModeRef w1) (pet_id b) = false ->
      Manager.cooldownUntil (pairCooldown w1)
        (Manager.pairKey (pet_id a) (pet_id b)) <= time ->
      Manager.withinGreetDistance pa pb = true ->
      exists w2 k' d,
        Manager.greetPair time rugs a b w1 ds k = Some (w2, k') /\
        105 # 100 <= d /\ d <= 15 # 10 /\
        exists sa sb,
          socialOf w2 (pet_id a) = Some sa /\ socialOf w2 (pet_id b) = Some sb /\
          active sa = true /\ active sb = true /\
          partnerId sa = Some (pet_id b) /\ partnerId sb = Some (pet_id a) /\
          until sa = time + d /\ until sb = time + d) /\
  (forall socialA socialB posA posB baseY k,
      exists sa sb d,
        Social.startSocialInteraction socialA socialB posA posB
          (pet_id a) (pet_id b) time baseY ds k = Some ((sa, sb), S k) /\
        105 # 100 <= d /\ d <= 15 # 10 /\
        active sa = true /\ active sb = true /\
        partnerId sa = Some (pet_id b) /\ partnerId sb = Some (pet_id a) /\
        until sa = time + d /\ until sb = time + d).
Proof.
  intros Hv Hrugs Hrem Hpairs Hap1 Hap2 Hne HA HB Hchase CA CB Hcd Hwd.
  split; [|split; [|intros; apply startSocialInteraction_mutual; exact Hv]].
  2:{ intros w1 rtA1 rtB1 pa pb k HA1 HB1 PA PB CA1 CB1 Hcd1 Hwd1.
      destruct (greetPair_greets time rugs a b rtA1 rtB1 pa pb w1 ds k
                  Hv Hrugs Hne HA1 HB1 PA PB CA1 CB1 Hcd1 Hwd1)
        as (w2 & k' & d & Hgreet & Hd0 & Hd1 & HsA & HsB & _).
      exists w2, k', d. split; [exact Hgreet|]. split; [exact Hd0|].
      split; [exact Hd1|].
      eexists. eexists. split; [exact HsA|]. split; [exact HsB|].
      repeat split; reflexivity. }
  assert (Hin : In (a, b) (Manager.pairsOf (petsRef w)))
    by (rewrite Hpairs; apply in_or_app; right; left; reflexivity).
  apply pairsOf_In in Hin as [HinA HinB].
  assert (Hlen : (2 <= List.length (petsRef w))%nat).
  { apply pairsOf_length. rewrite Hpairs. destruct ps1; discriminate. }
  set (posMap := Manager.snapshot (petsRef w) (apiRef w)) in *.
  set (w1 := {| petsRef := petsRef w; apiRef := apiRef w; posMapRef := posMap;
                chaseModeRef := chase; pairCooldown := pairCooldown w;
                frameCounter := (frameCounter w + 1)%Z;
                lastSleepSpotRef := lastSleepSpotRef w; greets := greets w |}).
  destruct (greetPair_greets time rugs a b rtA rtB (PetAPI.getPose rtA)
              (PetAPI.getPose rtB) w1 ds n1 Hv Hrugs Hne HA HB)
    as (w2 & n2 & d & Hgreet & Hd0 & Hd1 & HsA & HsB & Hev);
    try assumption.
  { apply snapshot_lookup; assumption. }
  { apply snapshot_lookup; assumption. }
  pose proof (greetPair_frame _ _ _ _ _ _ _ _ _ Hgreet) as (_ & _ & Epos & _).
  exists w2, n2, d. split; [|split; [exact Hd0 | split; [exact Hd1|]]].
  - unfold Manager.managerFrame. unfold bind at 1. fold posMap. rewrite Hchase.
    fold w1. rewrite Hrem. cbn [Z.eqb negb].
    replace (List.length (petsRef w) <? 2)%nat with false
      by (symmetry; apply Nat.ltb_ge; exact Hlen).
    rewrite Hpairs, scanPairs_app. unfold bind at 1.
    rewrite scanPairs_apart by exact Hap1.
    simpl Manager.scanPairs. unfold bind at 1. rewrite Hgreet.
    apply scanPairs_apart. rewrite Epos. exact Hap2.
  - split.
    + eexists. eexists. split; [exact HsA|]. split; [exact HsB|].
      repeat split; reflexivity.
    + eexists. split; [exact Hev|]. repeat split; reflexivity.
Qed.

Lemma constDraws_valid (q : Q) : 0 <= q -> q < 1 -> draws_valid (constDraws q).
Proof. intros H0 H1 n. unfold constDraws. auto. Qed.

Lemma greet_sets_both_social_states_witness :
  exists w' n' d,
    Manager.managerFrame 10 Scene.rugs Scene.beforeScan (constDraws (1 # 2)) 0%nat
    = Some (w', n') /\
    105 # 100 <= d /\ d <= 15 # 10 /\
    (exists sa sb,
        socialOf w' "pet_a" = Some sa /\ socialOf w' "pet_b" = Some sb /\
        active sa = true /\ active sb = true /\
        partnerId sa = Some "pet_b" /\ partnerId sb = Some "pet_a" /\
        until sa = 10 + d /\ until sb = 10 + d) /\
    exists e, In e (greets w') /\ greet_a e = "pet_a" /\ greet_b e = "pet_b" /\
              greet_time e = 10.
Proof.
  eapply proj1.
  apply (greet_sets_both_social_states 10 Scene.rugs Scene.beforeScan
           (constDraws (1 # 2)) 0 1 Social.createChaseMode
           Scene.petA Scene.petB
           (Scene.mounted 0 0 "cat") (Scene.mounted (15 # 10) 0 "dog") [] []).
  - apply constDraws_valid; unfold Qle, Qlt; simpl; lia.
  - discriminate.
  - reflexivity.
  - reflexivity.
  - constructor.
  - constructor.
  - discriminate.
  - vm_compute. reflexivity.
  - vm_compute. reflexivity.
  - vm_compute. reflexivity.
  - reflexivity.
  - reflexivity.
  - vm_compute. discriminate.
  - vm_compute. reflexivity.
Defined.

(** C7, as stated, fails.  Three pets stand within greet distance of one
    another in a scan frame, with no cooldown and no chase.  The pair
    (pet_a, pet_b) meets every condition of the claim and greets, but the
    scan goes on to (pet_a, pet_c) and (pet_b, pet_c), which greet too and
    overwrite what the first greet set: after the frame pet_a and pet_b both
    name pet_c as partner, and their [until] differ. *)
Lemma third_pet_overwrites_greeting :
  Manager.withinGreetDistance (PetAPI.getPose (Scene.mounted 0 0 "cat"))
    (PetAPI.getPose (Scene.mounted (15 # 10) 0 "dog")) = true /\
  Z.rem (frameCounter Scene.beforeScan3 + 1) SOCIAL_CHECK_EVERY_FRAMES = 0%Z /\
  Manager.cooldownUntil (pairCooldown Scene.beforeScan3)
    (Manager.pairKey "pet_a" "pet_b") <= 10 /\
  draws_valid Scene.alternatingDraws /\
  Manager.managerFrame 10 Scene.rugs Scene.beforeScan3 Scene.alternatingDraws 0%nat
  = Some Scene.afterScan3 /\
  Manager.chaseInvolved (chaseModeRef (fst Scene.afterScan3)) "pet_a" = false /\
  Manager.chaseInvolved (chaseModeRef (fst Scene.afterScan3)) "pet_b" = false /\
  (exists e, In e (greets (fst Scene.afterScan3)) /\
             greet_a e = "pet_a" /\ greet_b e = "pet_b" /\ greet_time e = 10) /\
  exists sa sb,
    socialOf (fst Scene.afterScan3) "pet_a" = Some sa /\
    socialOf (fst Scene.afterScan3) "pet_b" = Some sb /\
    partnerId sa = Some "pet_c" /\ partnerId sb = Some "pet_c" /\
    until sa = 10 + (105 # 100) + (1 # 4) * (45 # 100) /\
    until sb = 10 + (105 # 100) + (3 # 4) * (45 # 100) /\
    ~ until sa == until sb.
Proof.
  split; [vm_compute; reflexivity|]. split; [reflexivity|].
  split; [vm_compute; discriminate|].
  split.
  { intro n. unfold Scene.alternatingDraws.
    destruct (Nat.even n); split; unfold Qle, Qlt; simpl; lia. }
  split; [vm_compute; reflexivity|].
  split; [vm_compute; reflexivity|]. split; [vm_compute; reflexivity|].
  split.
  { exists (greetEventOf 10 Scene.petA Scene.petB
              (PetAPI.getPose (Scene.mounted 0 0 "cat"))
              (PetAPI.getPose (Scene.mounted (15 # 10) 0 "dog"))).
    split; [vm_compute; left; reflexivity|]. repeat split. }
  eexists. eexists.
  split; [vm_compute; reflexivity|]. split; [vm_compute; reflexivity|].
  cbn [partnerId until].
  split; [reflexivity|]. split; [reflexivity|].
  split; [vm_compute; reflexivity|]. split; [vm_compute; reflexivity|].
  vm_compute. discriminate.
Qed.

(** ** C8: love decay *)

Lemma loveDecay_love (dt : Q) (p : Pet.Petting) (ds : Draws) (n : nat) :
  exists r n', Pet.loveDecay dt p ds n = Some (r, n') /\
               Pet.love (fst r) = Qmax 0 (Pet.love p - dt * Pet.decayRate).
Proof.
  unfold Pet.loveDecay.
  destruct (Qgtb _ _); [|eexists; eexists; split; reflexivity].
  destruct (Qle_bool _ _); [|eexists; eexists; split; reflexivity].
  unfold bind, random, ret. eexists. eexists. split; reflexivity.
Qed.

Lemma Qmax_decay_compose (l d1 d2 k : Q) :
  0 <= d1 -> 0 <= d2 -> 0 <= k ->
  Qmax 0 (Qmax 0 (l - d1 * k) - d2 * k) == Qmax 0 (l - (d1 + d2) * k).
Proof.
  intros H1 H2 Hk.
  assert (0 <= d2 * k) by nra.
  destruct (Qlt_le_dec (l - d1 * k) 0) as [Hneg|Hpos].
  - rewrite (Q.max_l 0 (l - d1 * k)) by lra.
    rewrite Q.max_l by lra. rewrite Q.max_l by nra. reflexivity.
  - rewrite (Q.max_r 0 (l - d1 * k)) by exact Hpos.
    destruct (Qlt_le_dec (l - d1 * k - d2 * k) 0) as [Hn2|Hp2].
    + rewrite Q.max_l by lra. rewrite Q.max_l by nra. reflexivity.
    + rewrite Q.max_r by exact Hp2. rewrite Q.max_r by nra. ring.
Qed.

(** C8.  Over any run of frames with no rub event and non-negative frame
    times, starting from a non-negative love: the love after the run is
    [max(0, love - 0.55 * total time)], it is not larger than before, and it
    is not negative. *)
Theorem love_decays_linearly (dts : list Q) (p : Pet.Petting) (ds : Draws)
    (n : nat) :
  Forall (fun dt => 0 <= dt) dts -> 0 <= Pet.love p ->
  exists p' n',
    Pet.loveDecayRun dts p ds n = Some (p', n') /\
    Pet.love p' == Qmax 0 (Pet.love p - Qsum dts * Pet.decayRate) /\
    Pet.love p' <= Pet.love p /\ 0 <= Pet.love p'.
Proof.
  intros Hdts. revert p n.
  induction Hdts as [|dt rest Hdt Hrest IH]; intros p n Hlove; simpl.
  - exists p, n. split; [reflexivity|].
    unfold Pet.decayRate. split; [|split; [lra | exact Hlove]].
    rewrite Q.max_r by lra. ring.
  - destruct (loveDecay_love dt p ds n) as (r & n1 & Hrun & Er).
    unfold bind. rewrite Hrun.
    assert (Hr0 : 0 <= Pet.love (fst r)) by (rewrite Er; apply Q.le_max_l).
    assert (Hrle : Pet.love (fst r) <= Pet.love p).
    { rewrite Er. unfold Pet.decayRate. apply Q.max_lub; [exact Hlove | nra]. }
    destruct (IH (fst r) n1 Hr0) as (p' & n' & Hrun' & Eq & Hle & H0).
    exists p', n'. split; [exact Hrun'|]. split; [|split; [lra | exact H0]].
    rewrite Eq, Er.
    assert (Hs : 0 <= Qsum rest).
    { clear -Hrest. induction Hrest; simpl; [lra|]. unfold Qsum in *. simpl. lra. }
    rewrite Qmax_decay_compose by (unfold Pet.decayRate; lra).
    reflexivity.
Qed.

Lemma love_decays_linearly_witness :
  exists p' n',
    Pet.loveDecayRun [1 # 60; 1 # 30] Scene.lovedPet (constDraws (1 # 2)) 0%nat
    = Some (p', n') /\
    Pet.love p' == Qmax 0 (Pet.love Scene.lovedPet
                           - Qsum [1 # 60; 1 # 30] * Pet.decayRate) /\
    Pet.love p' <= Pet.love Scene.lovedPet /\ 0 <= Pet.love p'.
Proof.
  apply (love_decays_linearly [1 # 60; 1 # 30] Scene.lovedPet
           (constDraws (1 # 2)) 0).
  - repeat constructor; unfold Qle; simpl; lia.
  - unfold Qle; simpl; lia.
Defined.

(** ** C10: the roster limit *)




(** * Steering facts *)

Section SteeringFacts.

Local Open Scope R_scope.

(** [lra] and [nra] over the reals. *)
Ltac lraR := Lra.lra.
Ltac nraR := Lra.nra.

Lemma PI_bounds : 3 < PI /\ PI <= 4.
Proof. split; [pose proof PI2_3_2; lraR | exact PI_4]. Qed.

Lemma Int_part_unit (r : R) : 0 <= r < 1 -> Int_part r = 0%Z.
Proof. intros [H0 H1]. symmetry. apply Int_part_spec. simpl. lraR. Qed.

Lemma div_bounds (x y lo hi : R) :
  0 < y -> lo * y <= x -> x < hi * y -> lo <= x / y < hi.
Proof.
  intros Hy Hlo Hhi.
  assert (E : x = (x / y) * y) by (field; lraR).
  split.
  - apply Rmult_le_reg_r with y; [exact Hy | lraR].
  - apply Rmult_lt_reg_r with y; [exact Hy | lraR].
Qed.

Lemma div_unit (x y : R) : 0 < y -> 0 <= x < y -> 0 <= x / y < 1.
Proof.
  intros Hy [H0 H1]. apply div_bounds; [exact Hy | lraR | lraR].
Qed.

(** [x % y] is [x] itself when [|x| < y]. *)
Lemma jsRem_small (x y : R) : 0 < y -> - y < x < y -> Steering.jsRem x y = x.
Proof.
  intros Hy [Hlo Hhi]. unfold Steering.jsRem, Steering.trunc.
  destruct (Rle_dec 0 x) as [Hx|Hx].
  - pose proof (div_unit x y Hy (conj Hx Hhi)) as [Hq0 Hq1].
    destruct (Rle_dec 0 (x / y)) as [_|Hq]; [|contradiction].
    rewrite Int_part_unit by (split; assumption). simpl. lraR.
  - assert (Hneg : 0 <= - x < y) by lraR.
    pose proof (div_unit (- x) y Hy Hneg) as [Hq0 Hq1].
    replace (- x / y) with (- (x / y)) in Hq0, Hq1 by (field; lraR).
    destruct (Rle_dec 0 (x / y)) as [Hq|_].
    + assert (E0 : x / y = 0) by lraR.
      rewrite E0. rewrite Int_part_unit by lraR. simpl. lraR.
    + rewrite Int_part_unit by (split; assumption). rewrite Z.opp_0. simpl. lraR.
Qed.

(** On the side of the seam the code handles, [dampAngle] is a linear step
    toward the target along the shorter arc. *)
Lemma dampAngle_short_arc (a b t : R) :
  - PI < b - a < PI -> Steering.dampAngle a b t = a + (b - a) * t.
Proof.
  intros [Hlo Hhi]. unfold Steering.dampAngle. cbv zeta.
  pose proof PI_bounds as [HP _].
  rewrite jsRem_small by lraR. ring.
Qed.

Lemma angDist_first_turn (x y : R) :
  0 <= x - y < 2 * PI ->
  Steering.angDist x y = Rmin (x - y) (2 * PI - (x - y)).
Proof.
  intros [H0 H1]. unfold Steering.angDist, Steering.floor. cbv zeta.
  pose proof PI_bounds as [HP _].
  rewrite Int_part_unit.
  - simpl. replace (x - y - 2 * PI * 0) with (x - y) by ring. reflexivity.
  - apply div_bounds; lraR.
Qed.

(** C4 fails on the code: from yaw 3 toward the target -3 (shortest arc
    2 pi - 6, about 0.28, across the seam at pi) one step with factor 0.1
    moves the yaw to 2.4, the long way round, and the shortest angular
    distance to the target grows to 2 pi - 5.4, about 0.88. *)
Theorem dampAngle_long_way_round :
  Steering.dampAngle 3 (-3) (1 / 10) = 24 / 10 /\
  Steering.angDist 3 (-3) = 2 * PI - 6 /\
  Steering.angDist (Steering.dampAngle 3 (-3) (1 / 10)) (-3) = 2 * PI - 54 / 10 /\
  Steering.angDist 3 (-3)
  < Steering.angDist (Steering.dampAngle 3 (-3) (1 / 10)) (-3).
Proof.
  pose proof PI_bounds as [HP3 HP4].
  assert (E1 : Steering.dampAngle 3 (-3) (1 / 10) = 24 / 10).
  { unfold Steering.dampAngle. cbv zeta. rewrite jsRem_small by lraR. field. }
  assert (E2 : Steering.angDist 3 (-3) = 2 * PI - 6).
  { rewrite angDist_first_turn by lraR. rewrite Rmin_right by lraR. ring. }
  assert (E3 : Steering.angDist (24 / 10) (-3) = 2 * PI - 54 / 10).
  { rewrite angDist_first_turn by lraR. rewrite Rmin_right by lraR. field. }
  rewrite E1, E2, E3. repeat split; lraR.
Qed.

(** ** Guarded divisions *)

Lemma fsqrt_sumsq (x z : R) :
  Steering.fsqrt (x * x + z * z) = Some (sqrt (x * x + z * z)).
Proof.
  unfold Steering.fsqrt. destruct (Rlt_dec (x * x + z * z) 0) as [H|_]; [|reflexivity].
  exfalso. nraR.
Qed.

Lemma fdiv_nonzero (x y : R) : y <> 0 -> Steering.fdiv x y = Some (x / y).
Proof.
  intro H. unfold Steering.fdiv. destruct (Req_dec_T y 0); [contradiction | reflexivity].
Qed.

Lemma damp_pos (base dt : R) : 0 < Steering.damp base dt.
Proof. unfold Steering.damp, Rpower. apply exp_pos. Qed.

Lemma seek_defined (dx dz k dt : R) (vel : R * R) :
  exists v, Steering.seek dx dz k dt vel = Some v.
Proof.
  unfold Steering.seek. rewrite fsqrt_sumsq. simpl.
  destruct (Rlt_dec 0.001 (sqrt (dx * dx + dz * dz))) as [H|H].
  - rewrite !fdiv_nonzero by lraR. simpl. eexists. reflexivity.
  - simpl. eexists. reflexivity.
Qed.

(** Below the epsilon the seek branches only damp the velocity. *)
Lemma seek_near (dx dz k dt : R) (vel : R * R) :
  sqrt (dx * dx + dz * dz) <= 0.001 ->
  Steering.seek dx dz k dt vel
  = Some (fst vel * Steering.damp 0.86 dt, snd vel * Steering.damp 0.86 dt).
Proof.
  intro H. unfold Steering.seek. rewrite fsqrt_sumsq. simpl.
  destruct (Rlt_dec 0.001 (sqrt (dx * dx + dz * dz))) as [Hgt|_]; [lraR|].
  reflexivity.
Qed.

Lemma wander_defined (brain : BrainState R) (pos vel : R * R)
    (p : Steering.MoveParams) :
  exists v, Steering.wander brain pos vel p = Some v.
Proof.
  unfold Steering.wander. cbv zeta. rewrite fsqrt_sumsq. simpl.
  destruct (Rlt_dec 0.001 _) as [H|H].
  - rewrite !fdiv_nonzero by lraR. simpl. eexists. reflexivity.
  - simpl. eexists. reflexivity.
Qed.

(** Below the epsilon the wander branch skips the normalisation but still
    adds the direction vector to the velocity. *)
Lemma wander_near (brain : BrainState R) (pos vel : R * R)
    (p : Steering.MoveParams) :
  let d := Steering.wanderDir brain pos p in
  sqrt (fst d * fst d + snd d * snd d) <= 0.001 ->
  Steering.wander brain pos vel p
  = Some ((fst vel + fst d * 1.25 * Steering.m_dt p * 2.6)
            * Steering.damp 0.88 (Steering.m_dt p),
          (snd vel + snd d * 1.25 * Steering.m_dt p * 2.6)
            * Steering.damp 0.88 (Steering.m_dt p)).
Proof.
  intros d H. unfold Steering.wander. cbv zeta. fold d.
  set (dx := fst d) in *. set (dz := snd d) in *.
  rewrite fsqrt_sumsq. unfold mbind, option_bind.
  destruct (Rlt_dec 0.001 (sqrt (dx * dx + dz * dz))) as [Hgt|_]; [lraR|].
  reflexivity.
Qed.

Lemma rest_defined (brain : BrainState R) (pos vel : R * R) (dt : R) :
  exists v,
    (d ← Steering.fsqrt ((vec_x (restSpot brain) - fst pos) * (vec_x (restSpot brain) - fst pos)
                         + (vec_z (restSpot brain) - snd pos) * (vec_z (restSpot brain) - snd pos));
     if Rlt_dec 0.20 d then
       nx ← Steering.fdiv (vec_x (restSpot brain) - fst pos) d;
       nz ← Steering.fdiv (vec_z (restSpot brain) - snd pos) d;
       Some (fst vel + nx * dt * 2.2, snd vel + nz * dt * 2.2)
     else Some (fst vel * Steering.damp 0.70 dt, snd vel * Steering.damp 0.70 dt))
    = Some v.
Proof.
  rewrite fsqrt_sumsq. simpl.
  destruct (Rlt_dec 0.20 _) as [H|H].
  - rewrite !fdiv_nonzero by lraR. simpl. eexists. reflexivity.
  - eexists. reflexivity.
Qed.

Lemma calculateMovement_defined (brain : BrainState R) (pos vel : R * R)
    (p : Steering.MoveParams) :
  exists v, Steering.calculateMovement brain pos vel p = Some v.
Proof.
  unfold Steering.calculateMovement. cbv zeta.
  destruct (mode brain), (Steering.m_chaseMode p);
    try apply wander_defined; try apply seek_defined; try apply rest_defined;
    eexists; reflexivity.
Qed.

Lemma separationLoop_defined (pos : R * R) (selfId : string) (radius : R)
    (entries : list (string * (R * R))) :
  forall sep, exists s,
    Steering.separationLoop pos entries selfId radius sep = Some s.
Proof.
  induction entries as [|[id p2] rest IH]; intro sep; simpl.
  - eexists. reflexivity.
  - destruct (String.eqb id selfId); [apply IH|].
    destruct (Rlt_dec _ (radius * radius)) as [Hr|_]; [|apply IH].
    destruct (Rlt_dec 0.0001 _) as [Hd|_]; [|apply IH].
    rewrite fsqrt_sumsq. simpl.
    assert (Hs : 0 < sqrt ((fst pos - fst p2) * (fst pos - fst p2)
                           + (snd pos - snd p2) * (snd pos - snd p2)))
      by (apply sqrt_lt_R0; lraR).
    set (d := sqrt _) in *.
    rewrite (fdiv_nonzero 1 d) by (apply Rgt_not_eq; exact Hs).
    rewrite (fdiv_nonzero d radius) by (intro E; subst radius; nraR).
    simpl. apply IH.
Qed.

Lemma calculatePlayerSeparation_defined (petPos playerPos : R * R) (radius : R) :
  exists s, Steering.calculatePlayerSeparation petPos playerPos radius = Some s.
Proof.
  unfold Steering.calculatePlayerSeparation. cbv zeta.
  destruct (Rlt_dec _ (radius * radius)) as [Hr|_]; [|eexists; reflexivity].
  destruct (Rlt_dec 0.0001 _) as [Hd|_]; [|eexists; reflexivity].
  rewrite fsqrt_sumsq. simpl.
  rewrite fdiv_nonzero.
  - simpl. eexists. reflexivity.
  - apply Rgt_not_eq. apply sqrt_lt_R0. lraR.
Qed.

Lemma frameMove_defined (brain : BrainState R) (selfId : string)
    (pos vel : R * R) (posMap : option (list (string * (R * R))))
    (camera : R * R) (dt time : R) (b : Steering.Bounds)
    (chase : option (ChaseMode R)) (isMobile : bool) :
  exists newVel,
    Steering.frameMove brain selfId pos vel posMap camera dt time b chase isMobile
    = Some (Steering.integrate pos newVel dt b, newVel).
Proof.
  unfold Steering.frameMove.
  assert (Hsep : exists sep,
    match posMap with
    | Some m => Steering.calculateSeparation pos m selfId 2.2
    | None => Some (0, 0)
    end = Some sep).
  { destruct posMap; [apply separationLoop_defined | eexists; reflexivity]. }
  destruct Hsep as (sep & ->).
  destruct (calculatePlayerSeparation_defined pos camera 1.6) as (ps & ->).
  simpl.
  match goal with
  | |- context [Steering.calculateMovement ?br ?po ?ve ?pa] =>
      destruct (calculateMovement_defined br po ve pa) as (v & ->)
  end.
  simpl. exists v. reflexivity.
Qed.

Lemma clamp_bounds (v a b : R) : a <= b -> a <= Steering.clamp v a b <= b.
Proof.
  intro H. unfold Steering.clamp. split.
  - apply Rmax_l.
  - apply Rmax_lub; [exact H | apply Rmin_l].
Qed.

(** ** C6: the committed position *)

(** C6.  For world bounds with [minX <= maxX] and [minZ <= maxZ]: the
    movement step of a pet's frame always produces a position, and that
    position lies within the bounds on both axes, whatever the brain, the
    velocity, the frame time and the other inputs are; the position a
    dragged pet is set to lies within the bounds as well. *)
Theorem position_stays_in_bounds (brain : BrainState R) (selfId : string)
    (pos vel : R * R) (posMap : option (list (string * (R * R))))
    (camera : R * R) (dt time : R) (b : Steering.Bounds)
    (chase : option (ChaseMode R)) (isMobile : bool) (hit : R * R) :
  Steering.minX b <= Steering.maxX b ->
  Steering.minZ b <= Steering.maxZ b ->
  (exists pos' vel',
      Steering.frameMove brain selfId pos vel posMap camera dt time b chase
        isMobile = Some (pos', vel') /\
      Steering.minX b <= fst pos' <= Steering.maxX b /\
      Steering.minZ b <= snd pos' <= Steering.maxZ b) /\
  (Steering.minX b <= fst (Steering.dragTo hit b) <= Steering.maxX b /\
   Steering.minZ b <= snd (Steering.dragTo hit b) <= Steering.maxZ b).
Proof.
  intros HX HZ. split.
  - destruct (frameMove_defined brain selfId pos vel posMap camera dt time b
                chase isMobile) as (newVel & E).
    eexists. eexists. split; [exact E|].
    unfold Steering.integrate. cbn [fst snd].
    split; apply clamp_bounds; assumption.
  - unfold Steering.dragTo. cbn [fst snd].
    split; apply clamp_bounds; assumption.
Qed.

Lemma position_stays_in_bounds_witness :
  (exists pos' vel',
      Steering.frameMove (SteerScene.brainIn following) "pet_a" (9, -9) (2, -3)
        None (20, 0) (1 / 60) 0 SteerScene.room None false = Some (pos', vel') /\
      -9.5 <= fst pos' <= 9.5 /\ -9.5 <= snd pos' <= 9.5) /\
  (-9.5 <= fst (Steering.dragTo (40, -40) SteerScene.room) <= 9.5 /\
   -9.5 <= snd (Steering.dragTo (40, -40) SteerScene.room) <= 9.5).
Proof.
  apply (position_stays_in_bounds (SteerScene.brainIn following) "pet_a"
           (9, -9) (2, -3) None (20, 0) (1 / 60) 0 SteerScene.room None false
           (40, -40)); simpl; lraR.
Defined.

(** ** C9: divisions by a vector length *)

Lemma rest_near (brain : BrainState R) (pos vel : R * R) (p : Steering.MoveParams) :
  mode brain = resting \/ mode brain = sleeping ->
  sqrt ((vec_x (restSpot brain) - fst pos) * (vec_x (restSpot brain) - fst pos)
        + (vec_z (restSpot brain) - snd pos) * (vec_z (restSpot brain) - snd pos))
    <= 0.20 ->
  Steering.calculateMovement brain pos vel p
  = Some (fst vel * Steering.damp 0.70 (Steering.m_dt p),
          snd vel * Steering.damp 0.70 (Steering.m_dt p)).
Proof.
  intros Hm H. unfold Steering.calculateMovement. cbv zeta.
  set (dx := vec_x (restSpot brain) - fst pos) in *.
  set (dz := vec_z (restSpot brain) - snd pos) in *.
  assert (E : (d ← Steering.fsqrt (dx * dx + dz * dz);
               if Rlt_dec 0.20 d then
                 nx ← Steering.fdiv dx d;
                 nz ← Steering.fdiv dz d;
                 Some (fst vel + nx * Steering.m_dt p * 2.2,
                       snd vel + nz * Steering.m_dt p * 2.2)
               else Some (fst vel * Steering.damp 0.70 (Steering.m_dt p),
                          snd vel * Steering.damp 0.70 (Steering.m_dt p)))
              = Some (fst vel * Steering.damp 0.70 (Steering.m_dt p),
                      snd vel * Steering.damp 0.70 (Steering.m_dt p))).
  { rewrite fsqrt_sumsq. unfold mbind, option_bind.
    destruct (Rlt_dec 0.20 (sqrt (dx * dx + dz * dz))) as [Hgt|_]; [lraR|].
    reflexivity. }
  destruct Hm as [-> | ->]; destruct (Steering.m_chaseMode p); exact E.
Qed.

Lemma playerSeparation_near (petPos playerPos : R * R) (radius : R) :
  (fst petPos - fst playerPos) * (fst petPos - fst playerPos)
  + (snd petPos - snd playerPos) * (snd petPos - snd playerPos) <= 0.0001 ->
  Steering.calculatePlayerSeparation petPos playerPos radius = Some (0, 0).
Proof.
  intro H. unfold Steering.calculatePlayerSeparation. cbv zeta.
  destruct (Rlt_dec _ (radius * radius)); [|reflexivity].
  destruct (Rlt_dec 0.0001 _) as [Hgt|_]; [lraR | reflexivity].
Qed.

Lemma separationLoop_near (pos : R * R) (id : string) (p2 : R * R)
    (rest : list (string * (R * R))) (selfId : string) (radius : R)
    (sep : R * R) :
  (fst pos - fst p2) * (fst pos - fst p2)
  + (snd pos - snd p2) * (snd pos - snd p2) <= 0.0001 ->
  Steering.separationLoop pos ((id, p2) :: rest) selfId radius sep
  = Steering.separationLoop pos rest selfId radius sep.
Proof.
  intro H. simpl. destruct (String.eqb id selfId); [reflexivity|].
  destruct (Rlt_dec _ (radius * radius)); [|reflexivity].
  destruct (Rlt_dec 0.0001 _) as [Hgt|_]; [lraR | reflexivity].
Qed.

(** C9, as amended.  In exact real arithmetic, [calculateMovement],
    [calculateSeparation] and [calculatePlayerSeparation] always produce a
    result: every division by a vector length is taken only when the length
    exceeds its epsilon.  When the length is at or below the epsilon, the
    rest, follow, chase and run branches only damp the velocity and the two
    separation functions add nothing; the wander branch skips the
    normalisation but still adds the unnormalised direction vector (of
    length at most 0.001) to the velocity. *)
Theorem steering_divisions_guarded :
  (forall brain pos vel p,
      exists v, Steering.calculateMovement brain pos vel p = Some v) /\
  (forall pos posMap selfId radius,
      exists s, Steering.calculateSeparation pos posMap selfId radius = Some s) /\
  (forall petPos playerPos radius,
      exists s, Steering.calculatePlayerSeparation petPos playerPos radius = Some s) /\
  (forall (brain : BrainState R) pos vel p,
      mode brain = resting \/ mode brain = sleeping ->
      sqrt ((vec_x (restSpot brain) - fst pos) * (vec_x (restSpot brain) - fst pos)
            + (vec_z (restSpot brain) - snd pos) * (vec_z (restSpot brain) - snd pos))
        <= 0.20 ->
      Steering.calculateMovement brain pos vel p
      = Some (fst vel * Steering.damp 0.70 (Steering.m_dt p),
              snd vel * Steering.damp 0.70 (Steering.m_dt p))) /\
  (forall (brain : BrainState R) pos vel p,
      mode brain = following ->
      sqrt ((fst (Steering.m_playerPos p) - fst pos) * (fst (Steering.m_playerPos p) - fst pos)
            + (snd (Steering.m_playerPos p) - snd pos) * (snd (Steering.m_playerPos p) - snd pos))
        <= 0.001 ->
      Steering.calculateMovement brain pos vel p
      = Some (fst vel * Steering.damp 0.86 (Steering.m_dt p),
              snd vel * Steering.damp 0.86 (Steering.m_dt p))) /\
  (forall (brain : BrainState R) pos vel p c,
      mode brain = chasing -> Steering.m_chaseMode p = Some c ->
      sqrt ((vec_x (runnerPos c) - fst pos) * (vec_x (runnerPos c) - fst pos)
            + (vec_z (runnerPos c) - snd pos) * (vec_z (runnerPos c) - snd pos))
        <= 0.001 ->
      Steering.calculateMovement brain pos vel p
      = Some (fst vel * Steering.damp 0.86 (Steering.m_dt p),
              snd vel * Steering.damp 0.86 (Steering.m_dt p))) /\
  (forall (brain : BrainState R) pos vel p c,
      mode brain = running -> Steering.m_chaseMode p = Some c ->
      sqrt ((fst pos - vec_x (chaserPos c)) * (fst pos - vec_x (chaserPos c))
            + (snd pos - vec_z (chaserPos c)) * (snd pos - vec_z (chaserPos c)))
        <= 0.001 ->
      Steering.calculateMovement brain pos vel p
      = Some (fst vel * Steering.damp 0.86 (Steering.m_dt p),
              snd vel * Steering.damp 0.86 (Steering.m_dt p))) /\
  (forall petPos playerPos radius,
      (fst petPos - fst playerPos) * (fst petPos - fst playerPos)
      + (snd petPos - snd playerPos) * (snd petPos - snd playerPos) <= 0.0001 ->
      Steering.calculatePlayerSeparation petPos playerPos radius = Some (0, 0)) /\
  (forall pos id p2 rest selfId radius sep,
      (fst pos - fst p2) * (fst pos - fst p2)
      + (snd pos - snd p2) * (snd pos - snd p2) <= 0.0001 ->
      Steering.separationLoop pos ((id, p2) :: rest) selfId radius sep
      = Steering.separationLoop pos rest selfId radius sep) /\
  (forall (brain : BrainState R) pos vel p,
      mode brain = wandering ->
      let d := Steering.wanderDir brain pos p in
      sqrt (fst d * fst d + snd d * snd d) <= 0.001 ->
      Steering.calculateMovement brain pos vel p
      = Some ((fst vel + fst d * 1.25 * Steering.m_dt p * 2.6)
                * Steering.damp 0.88 (Steering.m_dt p),
              (snd vel + snd d * 1.25 * Steering.m_dt p * 2.6)
                * Steering.damp 0.88 (Steering.m_dt p))).
Proof.
  split; [exact calculateMovement_defined|].
  split; [intros; apply separationLoop_defined|].
  split; [exact calculatePlayerSeparation_defined|].
  split; [exact rest_near|].
  split.
  { intros brain pos vel p Hm H. unfold Steering.calculateMovement. rewrite Hm.
    destruct (Steering.m_chaseMode p); apply seek_near; exact H. }
  split.
  { intros brain pos vel p c Hm Hc H. unfold Steering.calculateMovement.
    rewrite Hm, Hc. apply seek_near; exact H. }
  split.
  { intros brain pos vel p c Hm Hc H. unfold Steering.calculateMovement.
    rewrite Hm, Hc. apply seek_near; exact H. }
  split; [exact playerSeparation_near|].
  split; [exact separationLoop_near|].
  intros brain pos vel p Hm d H. unfold Steering.calculateMovement. rewrite Hm.
  destruct (Steering.m_chaseMode p); apply wander_near; exact H.
Qed.

Lemma sqrt_zero_sumsq (x z : R) : x = 0 -> z = 0 -> sqrt (x * x + z * z) = 0.
Proof.
  intros -> ->. replace (0 * 0 + 0 * 0) with 0 by lraR. exact sqrt_0.
Qed.

Lemma steering_divisions_guarded_witness :
  Steering.calculateMovement (SteerScene.brainIn following) (0, 0) (1, 2)
    SteerScene.onPlayer
  = Some (1 * Steering.damp 0.86 (1 / 60), 2 * Steering.damp 0.86 (1 / 60)).
Proof.
  destruct steering_divisions_guarded as (_ & _ & _ & _ & Hfollow & _).
  apply (Hfollow (SteerScene.brainIn following) (0, 0) (1, 2) SteerScene.onPlayer).
  - reflexivity.
  - simpl. rewrite sqrt_zero_sumsq by lraR. lraR.
Defined.

Lemma cancelling_dir :
  Steering.wanderDir (SteerScene.brainIn wandering) (0, 0) SteerScene.cancelling
  = (Steering.noise1D (0 * 0.55) 0 + (0.0005 - Steering.noise1D (0 * 0.55) 0),
     Steering.noise1D (0 * 0.55 + 100) 0 + - Steering.noise1D (0 * 0.55 + 100) 0).
Proof.
  unfold Steering.wanderDir, SteerScene.cancelling, SteerScene.room.
  cbn [Steering.m_bounds Steering.m_time Steering.m_separationVec
       Steering.minX Steering.maxX Steering.minZ Steering.maxZ fst snd seed
       SteerScene.brainIn].
  repeat (destruct (Rlt_dec _ _) as [Hc|_]; [exfalso; lraR|]).
  reflexivity.
Qed.

(** C9, as stated, fails in the wander branch: with a steering vector of
    length 0.0005, below the epsilon 0.001, the velocity of a pet at rest
    does not stay the damped old velocity (0, 0): the vector is added
    unnormalised. *)
Lemma wander_steers_on_near_zero_vector :
  let brain := SteerScene.brainIn wandering in
  let d := Steering.wanderDir brain (0, 0) SteerScene.cancelling in
  sqrt (fst d * fst d + snd d * snd d) <= 0.001 /\
  exists v,
    Steering.calculateMovement brain (0, 0) (0, 0) SteerScene.cancelling = Some v /\
    v <> (0 * Steering.damp 0.88 (1 / 60), 0 * Steering.damp 0.88 (1 / 60)).
Proof.
  cbv zeta. rewrite cancelling_dir. cbn [fst snd].
  set (N1 := Steering.noise1D (0 * 0.55) 0).
  set (N2 := Steering.noise1D (0 * 0.55 + 100) 0).
  assert (Hlen : sqrt ((N1 + (0.0005 - N1)) * (N1 + (0.0005 - N1))
                       + (N2 + - N2) * (N2 + - N2)) = 0.0005).
  { replace ((N1 + (0.0005 - N1)) * (N1 + (0.0005 - N1)) + (N2 + - N2) * (N2 + - N2))
      with (0.0005 * 0.0005) by nraR.
    apply sqrt_square. lraR. }
  split; [rewrite Hlen; lraR|].
  eexists. split.
  - unfold Steering.calculateMovement. cbn [mode SteerScene.brainIn].
    cbn [Steering.m_chaseMode SteerScene.cancelling].
    apply wander_near. cbv zeta. rewrite cancelling_dir. cbn [fst snd].
    fold N1 N2. rewrite Hlen. lraR.
  - rewrite cancelling_dir. cbn [fst snd Steering.m_dt SteerScene.cancelling].
    fold N1 N2. intro E. injection E as E1 _.
    pose proof (damp_pos 0.88 (1 / 60)) as Hpos.
    replace (N1 + (0.0005 - N1)) with 0.0005 in E1 by lraR.
    nraR.
Qed.

(** ** Further steering facts *)

Lemma frac_unit (x : R) : 0 <= x - Steering.floor x < 1.
Proof.
  unfold Steering.floor. destruct (base_Int_part x) as [H1 H2]. split; lraR.
Qed.

Lemma hash1_unit (n : R) : 0 <= Steering.hash1 n < 1.
Proof. unfold Steering.hash1. cbv zeta. apply frac_unit. Qed.

Lemma smoothstep_unit (u : R) : 0 <= u <= 1 -> 0 <= Steering.smoothstep u <= 1.
Proof.
  intros [H0 H1]. unfold Steering.smoothstep. split.
  - assert (0 <= u * u) by nraR. nraR.
  - assert (E : 1 - u * u * (3 - 2 * u) = (1 - u) * (1 - u) * (1 + 2 * u)) by ring.
    assert (0 <= (1 - u) * (1 - u) * (1 + 2 * u)).
    { apply Rmult_le_pos; [nraR | lraR]. }
    lraR.
Qed.

(** X1.  The value noise stays in its range: [hash1] is in [[0, 1)],
    [smoothstep] maps [[0, 1]] into [[0, 1]], and [noise1D] is in
    [[-1, 1)] for every coordinate and seed, so each component of the wander
    direction before wall avoidance and separation is in [[-1, 1)]. *)
Theorem noise1D_range (x seed : R) :
  0 <= Steering.hash1 x < 1 /\
  (0 <= x <= 1 -> 0 <= Steering.smoothstep x <= 1) /\
  -1 <= Steering.noise1D x seed < 1.
Proof.
  split; [apply hash1_unit|]. split; [apply smoothstep_unit|].
  unfold Steering.noise1D, Steering.lerp. cbv zeta.
  set (a := Steering.hash1 (Steering.floor x * 127.1 + seed * 311.7)).
  set (b := Steering.hash1 ((Steering.floor x + 1) * 127.1 + seed * 311.7)).
  set (s := Steering.smoothstep (x - Steering.floor x)).
  assert (Ha : 0 <= a < 1) by apply hash1_unit.
  assert (Hb : 0 <= b < 1) by apply hash1_unit.
  assert (Hs : 0 <= s <= 1).
  { apply smoothstep_unit. pose proof (frac_unit x). lraR. }
  assert (E : a + (b - a) * s = a * (1 - s) + b * s) by ring.
  rewrite E.
  assert (0 <= a * (1 - s)) by (apply Rmult_le_pos; lraR).
  assert (0 <= b * s) by (apply Rmult_le_pos; lraR).
  assert (a * (1 - s) + b * s < 1).
  { destruct (Req_dec s 0) as [->|Hs0]; [lraR|].
    assert (b * s < 1 * s) by (apply Rmult_lt_compat_r; lraR).
    assert (a * (1 - s) <= 1 * (1 - s)) by (apply Rmult_le_compat_r; lraR).
    lraR. }
  split; lraR.
Qed.

Lemma noise1D_range_witness :
  0 <= Steering.smoothstep (1 / 2) <= 1.
Proof.
  apply (noise1D_range (1 / 2) 0). lraR.
Defined.

Lemma damp_unit (base dt : R) : 0 < base < 1 -> 0 <= dt ->
  0 < Steering.damp base dt <= 1.
Proof.
  intros [Hb0 Hb1] Hdt. unfold Steering.damp, Rpower. split; [apply exp_pos|].
  assert (Hln : ln base < 0).
  { rewrite <- ln_1. apply ln_increasing; assumption. }
  assert (Hy : dt * 60 * ln base <= 0).
  { assert (0 <= dt * 60) by lraR.
    assert (0 <= (dt * 60) * (- ln base)) by (apply Rmult_le_pos; lraR).
    lraR. }
  rewrite <- exp_0. destruct Hy as [Hy|Hy].
  - left. apply exp_increasing. exact Hy.
  - rewrite Hy. right. reflexivity.
Qed.

(** X2.  A socializing or curious pet only slows down.  In these modes
    [calculateMovement] multiplies both velocity components by the same
    factor, which is in [(0, 1]] for a non-negative frame time: the
    direction of the velocity is kept and no component grows in absolute
    value, whatever the position, the player, the chase mode and the
    separation vector are. *)
Theorem social_and_curious_slow_down (brain : BrainState R) (pos vel : R * R)
    (p : Steering.MoveParams) :
  mode brain = socializing \/ mode brain = curious ->
  0 <= Steering.m_dt p ->
  exists k,
    0 < k <= 1 /\
    Steering.calculateMovement brain pos vel p = Some (fst vel * k, snd vel * k) /\
    Rabs (fst vel * k) <= Rabs (fst vel) /\
    Rabs (snd vel * k) <= Rabs (snd vel).
Proof.
  intros Hm Hdt.
  assert (Hshrink : forall v k : R, 0 < k <= 1 -> Rabs (v * k) <= Rabs v).
  { intros v k [Hk0 Hk1]. rewrite Rabs_mult, (Rabs_right k) by lraR.
    pose proof (Rabs_pos v).
    assert (Rabs v * k <= Rabs v * 1) by (apply Rmult_le_compat_l; lraR).
    lraR. }
  unfold Steering.calculateMovement. cbv zeta.
  destruct Hm as [-> | ->].
  - exists (Steering.damp 0.72 (Steering.m_dt p)).
    assert (Hk : 0 < Steering.damp 0.72 (Steering.m_dt p) <= 1)
      by (apply damp_unit; [lraR | exact Hdt]).
    split; [exact Hk|]. split; [reflexivity|]. split; apply Hshrink; exact Hk.
  - exists (Steering.damp 0.70 (Steering.m_dt p)).
    assert (Hk : 0 < Steering.damp 0.70 (Steering.m_dt p) <= 1)
      by (apply damp_unit; [lraR | exact Hdt]).
    split; [exact Hk|]. split; [reflexivity|]. split; apply Hshrink; exact Hk.
Qed.

Lemma social_and_curious_slow_down_witness :
  exists k,
    0 < k <= 1 /\
    Steering.calculateMovement (SteerScene.brainIn curious) (0, 0) (1, 0)
      SteerScene.onPlayer = Some (fst (1, 0) * k, snd (1, 0) * k) /\
    Rabs (fst (1, 0) * k) <= Rabs (fst (1, 0)) /\
    Rabs (snd (1, 0) * k) <= Rabs (snd (1, 0)).
Proof.
  apply social_and_curious_slow_down.
  - right. reflexivity.
  - simpl. lraR.
Defined.

(** X3.  The push away from the player has a fixed length.
    [calculatePlayerSeparation] always returns a vector.  When the squared
    distance is above 0.0001 and below the squared radius it is the offset
    from the player to the pet scaled to length 0.022, that is
    [0.022 * o / |o|]: its length is 0.022, it is parallel to the offset and
    points the same way.  Otherwise it is the zero vector. *)
Theorem player_push_has_fixed_length (petPos playerPos : R * R) (radius : R) :
  exists s,
    Steering.calculatePlayerSeparation petPos playerPos radius = Some s /\
    let ox := fst petPos - fst playerPos in
    let oz := snd petPos - snd playerPos in
    ((0.0001 < ox * ox + oz * oz < radius * radius /\
      s = (0.022 * (ox / sqrt (ox * ox + oz * oz)),
           0.022 * (oz / sqrt (ox * ox + oz * oz))) /\
      fst s * fst s + snd s * snd s = 0.022 * 0.022 /\
      fst s * oz = snd s * ox /\
      0 < fst s * ox + snd s * oz) \/
     ((ox * ox + oz * oz <= 0.0001 \/ radius * radius <= ox * ox + oz * oz) /\
      s = (0, 0))).
Proof.
  unfold Steering.calculatePlayerSeparation. cbv zeta.
  set (ox := fst petPos - fst playerPos).
  set (oz := snd petPos - snd playerPos).
  destruct (Rlt_dec (ox * ox + oz * oz) (radius * radius)) as [Hr|Hr].
  2:{ exists (0, 0). split; [reflexivity|]. right. split; [right; lraR | reflexivity]. }
  destruct (Rlt_dec 0.0001 (ox * ox + oz * oz)) as [He|He].
  2:{ exists (0, 0). split; [reflexivity|]. right. split; [left; lraR | reflexivity]. }
  rewrite fsqrt_sumsq. cbn [mbind option_bind].
  set (d := sqrt (ox * ox + oz * oz)).
  assert (Hd : 0 < d) by (apply sqrt_lt_R0; lraR).
  assert (Hdd : d * d = ox * ox + oz * oz) by (apply sqrt_sqrt; lraR).
  rewrite (fdiv_nonzero 1 d) by lraR. cbn [mbind option_bind].
  eexists. split; [reflexivity|]. left. split; [lraR|]. cbn [fst snd].
  assert (Hinv : 0 < 1 / d) by (apply Rdiv_lt_0_compat; lraR).
  split; [|split; [|split]].
  - f_equal; field; lraR.
  - replace (ox * (1 / d) * 0.022 * (ox * (1 / d) * 0.022)
             + oz * (1 / d) * 0.022 * (oz * (1 / d) * 0.022))
      with ((ox * ox + oz * oz) / (d * d) * (0.022 * 0.022)) by (field; lraR).
    rewrite <- Hdd. field. lraR.
  - ring.
  - replace (ox * (1 / d) * 0.022 * ox + oz * (1 / d) * 0.022 * oz)
      with ((ox * ox + oz * oz) * ((1 / d) * 0.022)) by ring.
    apply Rmult_lt_0_compat; [lraR|]. apply Rmult_lt_0_compat; lraR.
Qed.

(** X4.  Yaw convergence away from the seam.  When the target differs from
    the yaw by less than half a turn, every [dampAngle] step with a factor
    in [[0, 1]] keeps the difference below half a turn and multiplies it by
    [1 - t]: after [n] steps the remaining difference is [(1 - t)^n] times
    the first one, so the yaw approaches the target without overshooting. *)
Theorem yaw_converges_off_seam (a b t : R) (n : nat) :
  - PI < b - a < PI -> 0 <= t <= 1 ->
  b - Nat.iter n (fun y => Steering.dampAngle y b t) a = (1 - t) ^ n * (b - a) /\
  Rabs (b - Nat.iter n (fun y => Steering.dampAngle y b t) a) <= Rabs (b - a).
Proof.
  intros Hab Ht.
  assert (Hpow : forall k : nat, 0 <= (1 - t) ^ k <= 1).
  { induction k as [|k IH]; simpl; [lraR|].
    split; [apply Rmult_le_pos; lraR|].
    assert ((1 - t) * (1 - t) ^ k <= 1 * 1)
      by (apply Rmult_le_compat; lraR).
    lraR. }
  assert (Hshrink : forall k : nat, Rabs ((1 - t) ^ k * (b - a)) <= Rabs (b - a)).
  { intro k. rewrite Rabs_mult, (Rabs_right ((1 - t) ^ k))
      by (destruct (Hpow k); lraR).
    pose proof (Rabs_pos (b - a)). destruct (Hpow k).
    assert ((1 - t) ^ k * Rabs (b - a) <= 1 * Rabs (b - a))
      by (apply Rmult_le_compat_r; lraR).
    lraR. }
  assert (Hiter : b - Nat.iter n (fun y => Steering.dampAngle y b t) a
                  = (1 - t) ^ n * (b - a)).
  { induction n as [|n IH]; [simpl; ring|].
    rewrite Nat.iter_succ.
    set (y := Nat.iter n (fun y => Steering.dampAngle y b t) a) in *.
    assert (Hy : - PI < b - y < PI).
    { rewrite IH. pose proof (Hshrink n) as Hs.
      assert (Hlt : Rabs (b - a) < PI) by (apply Rabs_def1; lraR).
      assert (Hlt' : Rabs ((1 - t) ^ n * (b - a)) < PI) by lraR.
      apply Rabs_def2 in Hlt'. lraR. }
    rewrite (dampAngle_short_arc y b t Hy). simpl.
    replace (b - (y + (b - y) * t)) with ((1 - t) * (b - y)) by ring.
    rewrite IH. ring. }
  split; [exact Hiter|]. rewrite Hiter. apply Hshrink.
Qed.

Lemma yaw_converges_off_seam_witness :
  1 - Nat.iter 2 (fun y => Steering.dampAngle y 1 (1 / 10)) 0
  = (1 - 1 / 10) ^ 2 * (1 - 0).
Proof.
  apply (yaw_converges_off_seam 0 1 (1 / 10) 2).
  - pose proof PI_bounds. lraR.
  - lraR.
Defined.

Lemma push_small (o o2 d radius : R) :
  0 < radius -> 0 < d -> d * d = o * o + o2 * o2 -> d * d < radius * radius ->
  Rabs (o * (1 / d) * ((1.0 - d / radius) * 0.018)) <= 0.018.
Proof.
  intros Hr Hd Hdd Hlt.
  assert (Hdr : d < radius) by nraR.
  assert (Ho : Rabs o <= d).
  { apply Rabs_le. split; nraR. }
  assert (Hq : 0 < d / radius < 1).
  { split; [apply Rdiv_lt_0_compat; lraR|].
    apply Rmult_lt_reg_r with radius; [exact Hr|].
    replace (d / radius * radius) with d by (field; lraR). lraR. }
  replace 1.0 with 1 by lraR.
  replace (o * (1 / d) * ((1 - d / radius) * 0.018))
    with ((o / d) * ((1 - d / radius) * 0.018)) by (field; lraR).
  rewrite Rabs_mult.
  assert (Hod : Rabs (o / d) <= 1).
  { unfold Rdiv. rewrite Rabs_mult, (Rabs_right (/ d))
      by (left; apply Rinv_0_lt_compat; exact Hd).
    apply Rmult_le_reg_r with d; [exact Hd|].
    replace (Rabs o * / d * d) with (Rabs o) by (field; lraR). lraR. }
  rewrite (Rabs_right ((1 - d / radius) * 0.018)) by nraR.
  pose proof (Rabs_pos (o / d)).
  assert (Rabs (o / d) * ((1 - d / radius) * 0.018) <= 1 * 0.018).
  { apply Rmult_le_compat; [assumption | nraR | assumption | nraR]. }
  lraR.
Qed.

Lemma separationLoop_bounded (pos : R * R) (selfId : string) (radius : R)
    (entries : list (string * (R * R))) :
  0 < radius ->
  forall sep, exists s,
    Steering.separationLoop pos entries selfId radius sep = Some s /\
    Rabs (fst s - fst sep)
    <= 0.018 * INR (List.length
                      (List.filter (fun e => negb (String.eqb (fst e) selfId))
                         entries)) /\
    Rabs (snd s - snd sep)
    <= 0.018 * INR (List.length
                      (List.filter (fun e => negb (String.eqb (fst e) selfId))
                         entries)).
Proof.
  intro Hr. induction entries as [|[id p2] rest IH]; intro sep.
  - exists sep. split; [reflexivity|]. simpl.
    replace (fst sep - fst sep) with 0 by ring.
    replace (snd sep - snd sep) with 0 by ring.
    rewrite Rabs_R0. split; lraR.
  - cbn [Steering.separationLoop List.filter fst].
    destruct (String.eqb id selfId); cbn [negb]; [apply IH|].
    cbn [List.length]. rewrite S_INR.
    set (k := INR (List.length
                     (List.filter (fun e => negb (String.eqb (fst e) selfId))
                        rest))) in *.
    assert (Hweak : forall s : R * R,
               Rabs (fst s - fst sep) <= 0.018 * k /\
               Rabs (snd s - snd sep) <= 0.018 * k ->
               Rabs (fst s - fst sep) <= 0.018 * (k + 1) /\
               Rabs (snd s - snd sep) <= 0.018 * (k + 1)).
    { intros s [H1 H2]. split; lraR. }
    destruct (Rlt_dec _ (radius * radius)) as [Hlt|_].
    2:{ destruct (IH sep) as (s & E & Hb). exists s. split; [exact E|].
        apply Hweak. exact Hb. }
    destruct (Rlt_dec 0.0001 _) as [Hd|_].
    2:{ destruct (IH sep) as (s & E & Hb). exists s. split; [exact E|].
        apply Hweak. exact Hb. }
    rewrite fsqrt_sumsq. cbn [mbind option_bind].
    set (ox := fst pos - fst p2) in *. set (oz := snd pos - snd p2) in *.
    assert (Hs : 0 < sqrt (ox * ox + oz * oz)) by (apply sqrt_lt_R0; lraR).
    assert (Hdd : sqrt (ox * ox + oz * oz) * sqrt (ox * ox + oz * oz)
                  = ox * ox + oz * oz) by (apply sqrt_sqrt; lraR).
    set (d := sqrt (ox * ox + oz * oz)) in *.
    rewrite (fdiv_nonzero 1 d) by lraR.
    rewrite (fdiv_nonzero d radius) by lraR.
    cbn [mbind option_bind].
    destruct (IH (fst sep + ox * (1 / d) * ((1.0 - d / radius) * 0.018),
                  snd sep + oz * (1 / d) * ((1.0 - d / radius) * 0.018)))
      as (s & E & Hx & Hz).
    exists s. split; [exact E|]. cbn [fst snd] in Hx, Hz.
    assert (Px : Rabs (ox * (1 / d) * ((1.0 - d / radius) * 0.018)) <= 0.018)
      by (apply (push_small ox oz d radius); lraR).
    assert (Pz : Rabs (oz * (1 / d) * ((1.0 - d / radius) * 0.018)) <= 0.018)
      by (apply (push_small oz ox d radius); lraR).
    split.
    + replace (fst s - fst sep)
        with ((fst s - (fst sep + ox * (1 / d) * ((1.0 - d / radius) * 0.018)))
              + ox * (1 / d) * ((1.0 - d / radius) * 0.018)) by ring.
      eapply Rle_trans; [apply Rabs_triang|]. lraR.
    + replace (snd s - snd sep)
        with ((snd s - (snd sep + oz * (1 / d) * ((1.0 - d / radius) * 0.018)))
              + oz * (1 / d) * ((1.0 - d / radius) * 0.018)) by ring.
      eapply Rle_trans; [apply Rabs_triang|]. lraR.
Qed.

(** X5.  The separation from the other pets is bounded.  For a positive
    radius [calculateSeparation] always returns a vector, and each of its
    components is at most 0.018 in absolute value times the number of
    entries of the position map under another id than the pet's own: each
    neighbour pushes by less than 0.018, and the pet's own entry does not
    push at all. *)
Theorem separation_is_bounded (pos : R * R) (posMap : list (string * (R * R)))
    (selfId : string) (radius : R) :
  0 < radius ->
  exists s,
    Steering.calculateSeparation pos posMap selfId radius = Some s /\
    Rabs (fst s)
    <= 0.018 * INR (List.length
                      (List.filter (fun e => negb (String.eqb (fst e) selfId))
                         posMap)) /\
    Rabs (snd s)
    <= 0.018 * INR (List.length
                      (List.filter (fun e => negb (String.eqb (fst e) selfId))
                         posMap)).
Proof.
  intro Hr. unfold Steering.calculateSeparation.
  destruct (separationLoop_bounded pos selfId radius posMap Hr (0, 0))
    as (s & E & Hx & Hz).
  exists s. split; [exact E|]. cbn [fst snd] in Hx, Hz.
  replace (fst s - 0) with (fst s) in Hx by ring.
  replace (snd s - 0) with (snd s) in Hz by ring.
  split; assumption.
Qed.

Lemma separation_is_bounded_witness :
  exists s,
    Steering.calculateSeparation (0, 0) [("pet_a", (0, 0)); ("pet_b", (1, 0))]
      "pet_a" 2.2 = Some s /\
    Rabs (fst s) <= 0.018 * INR 1 /\ Rabs (snd s) <= 0.018 * INR 1.
Proof.
  apply (separation_is_bounded (0, 0) [("pet_a", (0, 0)); ("pet_b", (1, 0))]
           "pet_a" 2.2).
  lraR.
Defined.

End SteeringFacts.

(** * Further properties of the code *)

(** ** The chase episode ([ai/social.js], chase block of [PetManager]) *)

(** X6.  While an episode is active, the chase block of [PetManager] computes
    what [updateChaseMode] of [ai/social.js] computes with [baseY = BASE_Y],
    and reads no draw. *)
Theorem chaseStep_active_updateChaseMode (time : Q) (arr : list PetEntry)
    (posMap : gmap string Pose) (c : ChaseMode Q) (ds : Draws) (n : nat) :
  chase_active c = true ->
  Manager.chaseStep time arr posMap c ds n
  = Some (Social.updateChaseMode c posMap time BASE_Y, n).
Proof.
  intro Hact. unfold Manager.chaseStep, Social.updateChaseMode, Manager.setXZ.
  rewrite Hact. cbn [negb].
  destruct (Qgtb time (chase_until c)); reflexivity.
Qed.

Lemma chaseStep_active_updateChaseMode_witness :
  Manager.chaseStep 10 [Scene.petA; Scene.petB]
    (Manager.snapshot [Scene.petA; Scene.petB] Scene.twoPets)
    (chaseModeRef Scene.duringChase) (constDraws (1 # 2)) 0%nat
  = Some (Social.updateChaseMode (chaseModeRef Scene.duringChase)
            (Manager.snapshot [Scene.petA; Scene.petB] Scene.twoPets) 10 BASE_Y,
          0%nat).
Proof.
  apply chaseStep_active_updateChaseMode. reflexivity.
Defined.

(** [updateChaseMode] never starts an episode and never changes its end
    time.  The episode is active afterwards exactly when it was active and
    [time] has not passed [until]; it then keeps its chaser and runner.  An
    episode that expires has both ids cleared, and an inactive chase mode is
    returned as it is. *)
Theorem updateChaseMode_expiry (c : ChaseMode Q) (posMap : gmap string Pose)
    (time baseY : Q) :
  chase_until (Social.updateChaseMode c posMap time baseY) = chase_until c /\
  (chase_active (Social.updateChaseMode c posMap time baseY) = true <->
   chase_active c = true /\ time <= chase_until c) /\
  (chase_active (Social.updateChaseMode c posMap time baseY) = true ->
   chaserId (Social.updateChaseMode c posMap time baseY) = chaserId c /\
   runnerId (Social.updateChaseMode c posMap time baseY) = runnerId c) /\
  (chase_active c = true ->
   chase_active (Social.updateChaseMode c posMap time baseY) = false ->
   chaserId (Social.updateChaseMode c posMap time baseY) = None /\
   runnerId (Social.updateChaseMode c posMap time baseY) = None) /\
  (chase_active c = false -> Social.updateChaseMode c posMap time baseY = c).
Proof.
  unfold Social.updateChaseMode.
  destruct (chase_active c) eqn:Hact; cbn [negb].
  - destruct (Qgtb time (chase_until c)) eqn:Hexp; cbn.
    + apply Qltb_lt in Hexp.
      repeat split; try discriminate; auto.
      intros [_ Hle]. exfalso. exact (Qlt_not_le _ _ Hexp Hle).
    + apply Qltb_ge in Hexp. repeat split; auto; discriminate.
  - rewrite Hact. repeat split; auto; try discriminate.
    intros [H _]. discriminate H.
Qed.

(** The cached positions of an active episode: the chaser's position is
    its snapshot position at height [baseY] when the snapshot has the
    chaser, and the position of the call before otherwise; likewise for the
    runner. *)
Theorem updateChaseMode_positions (c : ChaseMode Q) (posMap : gmap string Pose)
    (time baseY : Q) (id : string) :
  chase_active c = true ->
  (chaserId c = Some id ->
   chaserPos (Social.updateChaseMode c posMap time baseY)
   = match posMap !! id with
     | Some p => {| vec_x := pose_x p; vec_y := baseY; vec_z := pose_z p |}
     | None => chaserPos c
     end) /\
  (runnerId c = Some id ->
   runnerPos (Social.updateChaseMode c posMap time baseY)
   = match posMap !! id with
     | Some p => {| vec_x := pose_x p; vec_y := baseY; vec_z := pose_z p |}
     | None => runnerPos c
     end).
Proof.
  intro Hact. unfold Social.updateChaseMode. rewrite Hact. cbn [negb].
  split; intro Hid; rewrite Hid; cbn [mbind option_bind];
    destruct (Qgtb time (chase_until c)); reflexivity.
Qed.

Lemma updateChaseMode_positions_witness :
  chaserPos (Social.updateChaseMode (chaseModeRef Scene.duringChase)
               (Manager.snapshot [Scene.petA; Scene.petB] Scene.twoPets)
               10 BASE_Y)
  = {| vec_x := 0; vec_y := BASE_Y; vec_z := 0 |}.
Proof.
  exact (proj1 (updateChaseMode_positions (chaseModeRef Scene.duringChase)
                  (Manager.snapshot [Scene.petA; Scene.petB] Scene.twoPets)
                  10 BASE_Y "pet_a" eq_refl) eq_refl).
Defined.

(** ** The social state ([ai/social.js]) *)

(** [updateSocialState] reports the end of an interaction exactly when
    the state was active and [time] has passed [until]; the state stays
    active exactly when [time] has not passed it.  An ended interaction has
    no partner left, and its end is reported once: on the state returned, no
    later call reports an end or changes anything. *)
Theorem updateSocialState_reports_end_once (s : SocialState) (time time' : Q) :
  (snd (Social.updateSocialState s time) = true <->
   active s = true /\ until s < time) /\
  (active (fst (Social.updateSocialState s time)) = true <->
   active s = true /\ time <= until s) /\
  (snd (Social.updateSocialState s time) = true ->
   partnerId (fst (Social.updateSocialState s time)) = None /\
   Social.updateSocialState (fst (Social.updateSocialState s time)) time'
   = (fst (Social.updateSocialState s time), false)) /\
  (snd (Social.updateSocialState s time) = false ->
   fst (Social.updateSocialState s time) = s).
Proof.
  unfold Social.updateSocialState.
  destruct (active s) eqn:Hact; cbn [andb].
  - destruct (Qgtb time (until s)) eqn:Hexp; cbn.
    + apply Qltb_lt in Hexp. repeat split; auto; try discriminate.
      intros [_ Hle]. exfalso. exact (Qlt_not_le _ _ Hexp Hle).
    + apply Qltb_ge in Hexp. rewrite Hact. repeat split; auto; try discriminate.
      intros [_ Hlt]. exfalso. exact (Qlt_not_le _ _ Hlt Hexp).
  - cbn. rewrite Hact. repeat split; auto; try discriminate.
    all: intros [H _]; discriminate H.
Qed.

(** X7.  A greeting started by [startSocialInteraction] at [time] lasts at
    least 1.05 s and less than 1.5 s, for both pets alike: up to
    [time + 1.05] no expiry check ends it, and from [time + 1.5] on the first
    expiry check ends it. *)
Theorem greeting_lasts (socialA socialB sa sb : SocialState)
    (posA posB : Q * Q) (idA idB : string) (time baseY time' : Q)
    (ds : Draws) (n n' : nat) :
  draws_valid ds ->
  Social.startSocialInteraction socialA socialB posA posB idA idB time baseY
    ds n = Some ((sa, sb), n') ->
  (time' <= time + (105 # 100) ->
   Social.updateSocialState sa time' = (sa, false) /\
   Social.updateSocialState sb time' = (sb, false)) /\
  (time + (15 # 10) <= time' ->
   snd (Social.updateSocialState sa time') = true /\
   snd (Social.updateSocialState sb time') = true).
Proof.
  intros Hv H. destruct (Hv n) as [H0 H1].
  unfold Social.startSocialInteraction, Utils.randRange in H.
  inv_M H.
  unfold Social.updateSocialState, Social.greetDuration, Utils.lerp. cbn.
  split; intro Ht.
  - replace (Qgtb time' _) with false; [split; reflexivity|].
    symmetry. apply Qltb_ge. lra.
  - replace (Qgtb time' _) with true; [split; reflexivity|].
    symmetry. apply Qltb_lt. lra.
Qed.

Lemma greeting_lasts_witness :
  Social.updateSocialState
    {| active := true; until := 10 + Utils.lerp (105 # 100) (15 # 10) (1 # 2);
       partnerId := Some "pet_b";
       partnerPos := {| vec_x := 15 # 10; vec_y := BASE_Y; vec_z := 0 |};
       facePartnerYaw := YawAtan2 ((15 # 10) - 0) (0 - 0) |} 11
  = ({| active := true; until := 10 + Utils.lerp (105 # 100) (15 # 10) (1 # 2);
        partnerId := Some "pet_b";
        partnerPos := {| vec_x := 15 # 10; vec_y := BASE_Y; vec_z := 0 |};
        facePartnerYaw := YawAtan2 ((15 # 10) - 0) (0 - 0) |}, false).
Proof.
  assert (Hv : draws_valid (constDraws (1 # 2)))
    by (apply constDraws_valid; unfold Qle, Qlt; simpl; lia).
  apply (greeting_lasts Social.createSocialState Social.createSocialState
           _ _ (0, 0) (15 # 10, 0) "pet_a" "pet_b" 10 BASE_Y 11
           (constDraws (1 # 2)) 0 1 Hv eq_refl).
  vm_compute. discriminate.
Defined.

(** ** Random choices ([utils.js], [GardenPets.jsx]) *)

(** [pick] of [utils.js] on a non-empty array returns one of its elements. *)
Lemma utils_pick_Some {A : Type} (arr : list A) (ds : Draws) (n : nat) :
  draws_valid ds -> arr <> [] ->
  exists x, Utils.pick arr ds n = Some (Some x, S n) /\ In x arr.
Proof.
  intros Hv Hne. unfold Utils.pick, bind, random, ret.
  destruct (Hv n) as [H0 H1].
  assert (Hlen : (0 < List.length arr)%nat)
    by (destruct arr; simpl; [congruence | lia]).
  pose proof (Qfloor_index (ds n) (List.length arr) H0 H1 Hlen) as [Hi0 Hi1].
  destruct (nth_error arr (Z.to_nat (Qfloor (ds n * inject_Z (Z.of_nat (List.length arr))))))
    as [x|] eqn:E.
  - exists x. split; [|eapply nth_error_In; exact E].
    destruct (Qfloor _); [rewrite E; reflexivity | rewrite E; reflexivity | lia].
  - apply nth_error_None in E. lia.
Qed.

(** X8.  On draws in [[0, 1)] the two [pick] functions of the repository,
    [arr[Math.floor(Math.random() * arr.length)]] of [utils.js] and
    [arr[(Math.random() * arr.length) | 0]] of [GardenPets.jsx], read one
    draw and choose the same element; it is an element of the array, unless
    the array is empty, where both return [undefined]. *)
Theorem pick_variants_agree {A : Type} (arr : list A) (ds : Draws) (n : nat) :
  draws_valid ds ->
  Manager.pick arr ds n = Utils.pick arr ds n /\
  exists o, Utils.pick arr ds n = Some (o, S n) /\
            (arr = [] -> o = None) /\
            (arr <> [] -> exists x, o = Some x /\ In x arr).
Proof.
  intro Hv. split.
  - unfold Manager.pick, Utils.pick, bind, random, ret.
    destruct (Hv n) as [H0 H1].
    rewrite Qtrunc_nonneg; [reflexivity|].
    assert (0 <= inject_Z (Z.of_nat (List.length arr)))
      by (rewrite <- (Zle_Qle 0); lia).
    nra.
  - destruct arr as [|a rest].
    + exists None. split; [|split; [reflexivity | congruence]].
      unfold Utils.pick, bind, random, ret.
      destruct (Qfloor _) as [|q|q]; try reflexivity.
      destruct (Z.to_nat (Z.pos q)); reflexivity.
    + destruct (utils_pick_Some (a :: rest) ds n Hv) as (x & E & Hin);
        [discriminate|].
      exists (Some x). split; [exact E|]. split; [discriminate|].
      intros _. exists x. auto.
Qed.

Lemma pick_variants_agree_witness :
  Manager.pick Scene.rugs (constDraws (1 # 2)) 0%nat
  = Utils.pick Scene.rugs (constDraws (1 # 2)) 0%nat.
Proof.
  apply (pick_variants_agree Scene.rugs (constDraws (1 # 2)) 0).
  apply constDraws_valid; unfold Qle, Qlt; simpl; lia.
Defined.

(** [randRange(a, b)] with [a <= b] reads one draw and returns a value
    in [[a, b]]; the value is below [b] when [a < b]. *)
Theorem randRange_within (a b : Q) (ds : Draws) (n : nat) :
  draws_valid ds -> a <= b ->
  exists x, Utils.randRange a b ds n = Some (x, S n) /\
            a <= x /\ x <= b /\ (a < b -> x < b).
Proof.
  intros Hv Hab. destruct (Hv n) as [H0 H1].
  exists (Utils.lerp a b (ds n)). split; [reflexivity|].
  unfold Utils.lerp. repeat split; try nra.
Qed.

Lemma randRange_within_witness :
  exists x, Utils.randRange 3 6 (constDraws (1 # 2)) 0%nat = Some (x, 1%nat) /\
            3 <= x /\ x <= 6 /\ (3 < 6 -> x < 6).
Proof.
  apply randRange_within.
  - apply constDraws_valid; unfold Qle, Qlt; simpl; lia.
  - unfold Qle; simpl; lia.
Defined.

(** ** Starting a chase ([maybeStartChase] of [ai/social.js]) *)

(** The retry loop returns a roster pet and reads at most one draw per
    retry. *)
Lemma social_redraw_total (k : nat) (pets : list PetEntry) (a : PetEntry)
    (ds : Draws) :
  draws_valid ds -> pets <> [] ->
  forall (b : PetEntry) (n : nat),
    In b pets ->
    exists b' n', Social.redraw k pets a b ds n = Some (b', n') /\
                  In b' pets /\ (n <= n' <= n + k)%nat.
Proof.
  intros Hv Hne. induction k as [|k IH]; intros b n Hb; simpl.
  - exists b, n. split; [reflexivity|]. split; [exact Hb | lia].
  - destruct (String.eqb (pet_id b) (pet_id a)).
    + destruct (utils_pick_Some pets ds n Hv Hne) as (x & E & Hx).
      destruct (IH x (S n) Hx) as (b' & n' & E' & Hb' & Hn).
      exists b', n'. unfold bind. rewrite E. simpl. unfold ret.
      fold (@bind PetEntry PetEntry).
      split; [exact E'|]. split; [exact Hb' | lia].
    + exists b, n. split; [reflexivity|]. split; [exact Hb | lia].
Qed.

(** X9.  On draws in [[0, 1)] [maybeStartChase] always returns, after at
    most ten draws.  When it reports a start, no episode was active, the
    roster has at least two pets, the chaser and the runner are two roster
    pets with different ids, and the episode ends between 3.8 s and 5.2 s
    after [time].  When it reports no start, the chase mode is returned as it
    was. *)
Theorem maybeStartChase_episode (c : ChaseMode Q) (pets : list PetEntry)
    (time : Q) (ds : Draws) (n : nat) :
  draws_valid ds ->
  exists started c' n',
    Social.maybeStartChase c pets time ds n = Some ((started, c'), n') /\
    (n <= n' <= n + 10)%nat /\
    (started = true ->
     chase_active c = false /\ (2 <= List.length pets)%nat /\
     chase_active c' = true /\
     (exists a b, In a pets /\ In b pets /\ pet_id a <> pet_id b /\
                  chaserId c' = Some (pet_id a) /\
                  runnerId c' = Some (pet_id b)) /\
     time + (38 # 10) <= chase_until c' /\ chase_until c' < time + (52 # 10)) /\
    (started = false -> c' = c).
Proof.
  intro Hv. unfold Social.maybeStartChase.
  destruct (chase_active c) eqn:Hact.
  { exists false, c, n. split; [reflexivity|]. split; [lia|].
    split; [discriminate | reflexivity]. }
  destruct (List.length pets <? 2)%nat eqn:Hlen.
  { exists false, c, n. split; [reflexivity|]. split; [lia|].
    split; [discriminate | reflexivity]. }
  apply Nat.ltb_ge in Hlen.
  assert (Hne : pets <> []) by (destruct pets; simpl in Hlen; [lia | discriminate]).
  unfold bind at 1. unfold random at 1.
  destruct (Qgeb (ds n) (PERSONALITY.chaseChancePerS * (1 / 60))).
  { exists false, c, (S n). split; [reflexivity|]. split; [lia|].
    split; [discriminate | reflexivity]. }
  destruct (utils_pick_Some pets ds (S n) Hv Hne) as (a & Ea & Ha).
  destruct (utils_pick_Some pets ds (S (S n)) Hv Hne) as (b0 & Eb0 & Hb0).
  destruct (social_redraw_total 6 pets a ds Hv Hne b0 (S (S (S n))) Hb0)
    as (b & n1 & Eb & Hb & Hn1).
  unfold bind at 1. rewrite Ea. unfold bind at 1. cbn [defined]. unfold ret at 1.
  unfold bind at 1. rewrite Eb0. unfold bind at 1. cbn [defined]. unfold ret at 1.
  unfold bind at 1. rewrite Eb.
  destruct (String.eqb (pet_id b) (pet_id a)) eqn:Eid.
  { exists false, c, n1. split; [reflexivity|]. split; [lia|].
    split; [discriminate | reflexivity]. }
  apply String.eqb_neq in Eid.
  destruct (Hv n1) as [H0 H1].
  eexists true, _, (S n1). split; [reflexivity|]. split; [lia|].
  split; [|discriminate]. intros _. cbn.
  split; [reflexivity|]. split; [exact Hlen|]. split; [reflexivity|].
  split.
  - exists a, b. repeat split; auto.
  - unfold Utils.lerp. split; lra.
Qed.

Lemma maybeStartChase_episode_witness :
  exists started c' n',
    Social.maybeStartChase Social.createChaseMode [Scene.petA; Scene.petB] 10
      (constDraws (1 # 2)) 0%nat = Some ((started, c'), n') /\
    (0 <= n' <= 0 + 10)%nat /\
    (started = true ->
     chase_active Social.createChaseMode = false /\
     (2 <= List.length [Scene.petA; Scene.petB])%nat /\
     chase_active c' = true /\
     (exists a b, In a [Scene.petA; Scene.petB] /\
                  In b [Scene.petA; Scene.petB] /\ pet_id a <> pet_id b /\
                  chaserId c' = Some (pet_id a) /\
                  runnerId c' = Some (pet_id b)) /\
     10 + (38 # 10) <= chase_until c' /\ chase_until c' < 10 + (52 # 10)) /\
    (started = false -> c' = Social.createChaseMode).
Proof.
  apply maybeStartChase_episode.
  apply constDraws_valid; unfold Qle, Qlt; simpl; lia.
Defined.

(** ** The pair key ([getPairKey] of [ai/social.js], inline in [PetManager]) *)

Lemma append_bar_inj (x x' y y' : string) :
  noBar x = true -> noBar x' = true ->
  String.append x (String.append "|" y) = String.append x' (String.append "|" y') ->
  x = x' /\ y = y'.
Proof.
  change (String.append "|" y) with (String "|"%char y).
  change (String.append "|" y') with (String "|"%char y').
  revert x'. induction x as [|c r IH]; intros [|c' r'] Hx Hx' E.
  - change (String "|"%char y = String "|"%char y') in E.
    injection E as E. subst y'. auto.
  - change (String "|"%char y = String c' (String.append r' (String "|"%char y'))) in E.
    injection E as Ec _. subst c'. simpl in Hx'. discriminate Hx'.
  - change (String c (String.append r (String "|"%char y)) = String "|"%char y') in E.
    injection E as Ec _. subst c. simpl in Hx. discriminate Hx.
  - change (String c (String.append r (String "|"%char y))
            = String c' (String.append r' (String "|"%char y'))) in E.
    injection E as Ec E. subst c'.
    simpl in Hx, Hx'.
    apply andb_true_iff in Hx as [_ Hx]. apply andb_true_iff in Hx' as [_ Hx'].
    destruct (IH r' Hx Hx' E) as [Er Ey]. subst. auto.
Qed.

(** X10.  For ids that do not contain the separator [|], two pairs have the
    same cooldown key, whether computed by [getPairKey] or by the inline
    expression of [PetManager], only if they are the same unordered pair.
    (Without the condition the keys can collide: the pairs [("a|b", "c")]
    and [("a", "b|c")] share one.) *)
Theorem getPairKey_injective (idA idB idC idD : string) :
  noBar idA = true -> noBar idB = true -> noBar idC = true -> noBar idD = true ->
  Social.getPairKey idA idB = Social.getPairKey idC idD \/
  Manager.pairKey idA idB = Manager.pairKey idC idD ->
  (idA = idC /\ idB = idD) \/ (idA = idD /\ idB = idC).
Proof.
  intros HA HB HC HD E.
  assert (E' : Social.getPairKey idA idB = Social.getPairKey idC idD)
    by (destruct E as [E|E]; exact E).
  clear E. unfold Social.getPairKey in E'.
  destruct (String.ltb idA idB), (String.ltb idC idD);
    apply append_bar_inj in E'; try assumption; destruct E' as [-> ->]; auto.
Qed.

Lemma getPairKey_injective_witness :
  ("pet_a" = "pet_b" /\ "pet_b" = "pet_a") \/
  ("pet_a" = "pet_a" /\ "pet_b" = "pet_b").
Proof.
  apply (getPairKey_injective "pet_a" "pet_b" "pet_b" "pet_a");
    try (vm_compute; reflexivity).
  left. vm_compute. reflexivity.
Defined.

Lemma getPairKey_collision :
  Social.getPairKey "a|b" "c" = Social.getPairKey "a" "b|c".
Proof. vm_compute. reflexivity. Qed.

(** ** The brain ([updateBrain] of [ai/brain.js]) *)

Lemma pickRestSpot_spec (rugs : list (Q * Q)) (b : BrainState Q) (ds : Draws)
    (n : nat) :
  draws_valid ds ->
  exists b' n',
    Brain.pickRestSpot rugs b ds n = Some (b', n') /\ (n <= n' <= n + 1)%nat /\
    mode b' = mode b /\ t b' = t b /\ walkS b' = walkS b /\
    seed b' = seed b /\ lastInteractAt b' = lastInteractAt b /\
    restSpotPicked rugs b b'.
Proof.
  intro Hv. unfold Brain.pickRestSpot. destruct rugs as [|s rest] eqn:Er.
  - exists b, n. split; [reflexivity|]. split; [lia|].
    repeat split. left. auto.
  - destruct (utils_pick_Some (s :: rest) ds n Hv) as (x & E & Hin);
      [discriminate|].
    eexists. exists (S n). unfold bind. rewrite E. cbn [defined]. unfold ret.
    split; [reflexivity|]. split; [lia|]. repeat split.
    right. exists x. split; [exact Hin | reflexivity].
Qed.

(** The idle-sleep check either leaves the brain alone or puts a pet to
    sleep that is awake, near the player and untouched for more than 22 s. *)
Lemma sleepCheck_spec (p : Brain.Params) (now : Q) (b : BrainState Q)
    (ds : Draws) (n : nat) :
  draws_valid ds ->
  exists b1 n1,
    Brain.sleepCheck p now b ds n = Some (b1, n1) /\
    seed b1 = seed b /\ lastInteractAt b1 = lastInteractAt b /\
    walkS b1 = walkS b /\
    ((b1 = b /\ (n <= n1 <= n + 1)%nat) \/
     (mode b <> sleeping /\ mode b1 = sleeping /\
      Brain.p_playerDist2 p <= 64 /\
      PERSONALITY.sleepAfterNoInteractS < now * (1 # 1000) - lastInteractAt b /\
      3 <= t b1 /\ t b1 < 6 /\ restSpotPicked (Brain.p_rugs p) b b1 /\
      (n <= n1 <= n + 3)%nat)).
Proof.
  intro Hv. unfold Brain.sleepCheck.
  destruct (Mode_eqb (mode b) sleeping) eqn:Em; cbn [negb andb].
  { exists b, n. repeat split; auto. left. split; [reflexivity | lia]. }
  destruct (Qle_bool (Brain.p_playerDist2 p) 64) eqn:Ed.
  2:{ exists b, n. repeat split; auto. left. split; [reflexivity | lia]. }
  destruct (Qgtb _ _) eqn:Es.
  2:{ exists b, n. repeat split; auto. left. split; [reflexivity | lia]. }
  unfold bind at 1. unfold random at 1.
  destruct (Qltb (ds n) _) eqn:Er.
  2:{ exists b, (S n). repeat split; auto. left. split; [reflexivity | lia]. }
  unfold Utils.randRange. unfold bind at 1. unfold bind at 1.
  unfold random at 1. unfold ret at 1.
  destruct (pickRestSpot_spec (Brain.p_rugs p)
              (Brain.setT (Brain.setMode b sleeping)
                          (Utils.lerp 3 6 (ds (S n)))) ds (S (S n)) Hv)
    as (b1 & n1 & E & Hn & Hm & Ht & Hw & Hs & Hl & Hr).
  exists b1, n1. split; [exact E|]. simpl in Hm, Ht, Hw, Hs, Hl.
  split; [exact Hs|]. split; [exact Hl|]. split; [exact Hw|].
  right. destruct (Hv (S n)) as [H0 H1].
  split.
  { intro Hc. rewrite Hc in Em. discriminate Em. }
  split; [exact Hm|]. split; [apply Qle_bool_iff; exact Ed|].
  split; [apply Qltb_lt; exact Es|].
  rewrite Ht. unfold Utils.lerp.
  split; [lra|]. split; [lra|]. split; [exact Hr | lia].
Qed.

(** The wandering transitions: a pet in another mode is left alone; a
    wandering pet follows, rests, gets curious or keeps wandering. *)
Lemma wanderStep_spec (p : Brain.Params) (b : BrainState Q) (ds : Draws)
    (n : nat) :
  draws_valid ds ->
  exists b2 n2,
    Brain.wanderStep p b ds n = Some (b2, n2) /\
    seed b2 = seed b /\ lastInteractAt b2 = lastInteractAt b /\
    (n <= n2 <= n + 3)%nat /\
    ((mode b <> wandering /\ b2 = b /\ n2 = n) \/
     (mode b = wandering /\
      ((mode b2 = following /\ 64 < Brain.p_playerDist2 p /\ t b2 = t b /\
        restSpot b2 = restSpot b /\ walkS b2 = walkS b + Brain.p_dt p) \/
       (mode b2 = resting /\ Brain.p_playerDist2 p <= 64 /\
        PERSONALITY.restAfterWalkS < walkS b + Brain.p_dt p /\
        26 # 10 <= t b2 /\ t b2 < 48 # 10 /\ walkS b2 = 0 /\
        restSpotPicked (Brain.p_rugs p) b b2) \/
       (mode b2 = curious /\ Brain.p_playerDist2 p <= 64 /\
        12 # 10 <= t b2 /\ t b2 < 22 # 10 /\
        restSpot b2 = restSpot b /\ walkS b2 = walkS b + Brain.p_dt p) \/
       (mode b2 = wandering /\ Brain.p_playerDist2 p <= 64 /\ t b2 = t b /\
        restSpot b2 = restSpot b /\ walkS b2 = walkS b + Brain.p_dt p)))).
Proof.
  intro Hv. unfold Brain.wanderStep.
  destruct (Mode_eqb (mode b) wandering) eqn:Em.
  2:{ exists b, n. repeat split; auto; try lia. left.
      split; [|auto]. intro Hc. rewrite Hc in Em. discriminate Em. }
  apply Mode_eqb_eq in Em.
  destruct (Qgtb (Brain.p_playerDist2 p) 64) eqn:Ed.
  { eexists. exists n. split; [reflexivity|]. repeat split; try lia.
    right. split; [exact Em|]. left. apply Qltb_lt in Ed. repeat split. exact Ed. }
  apply Qltb_ge in Ed.
  (* the curiosity draw, reading the draw at cursor [k] *)
  assert (Hcur : forall k : nat, (n <= k <= n + 1)%nat ->
    exists b2 n2,
      (let* r := random in
       if Qltb r (PERSONALITY.curiosityChancePerS * Brain.p_dt p)
       then let* d := Utils.randRange (fst PERSONALITY.curiosityDuration)
                                      (snd PERSONALITY.curiosityDuration) in
            ret (Brain.setT (Brain.setMode
                               (Brain.setWalkS b (walkS b + Brain.p_dt p))
                               curious) d)
       else ret (Brain.setWalkS b (walkS b + Brain.p_dt p))) ds k
      = Some (b2, n2) /\
      seed b2 = seed b /\ lastInteractAt b2 = lastInteractAt b /\
      (k <= n2 <= k + 2)%nat /\
      ((mode b2 = curious /\ 12 # 10 <= t b2 /\ t b2 < 22 # 10 /\
        restSpot b2 = restSpot b /\ walkS b2 = walkS b + Brain.p_dt p) \/
       (mode b2 = wandering /\ t b2 = t b /\
        restSpot b2 = restSpot b /\ walkS b2 = walkS b + Brain.p_dt p))).
  { intros k Hk. unfold bind at 1. unfold random at 1.
    destruct (Qltb (ds k) _).
    - eexists. exists (S (S k)). split; [reflexivity|].
      destruct (Hv (S k)) as [H0 H1].
      repeat split; try lia. left. simpl. unfold Utils.lerp.
      repeat split; lra.
    - eexists. exists (S k). split; [reflexivity|].
      repeat split; try lia. right. simpl. repeat split. exact Em. }
  cbn [walkS Brain.setWalkS].
  destruct (Qgtb (walkS b + Brain.p_dt p) PERSONALITY.restAfterWalkS) eqn:Ew.
  - unfold bind at 1. unfold random at 1.
    destruct (Qltb (ds n) (PERSONALITY.restChancePerS * Brain.p_dt p)) eqn:Er.
    + unfold Utils.randRange. unfold bind at 1. unfold bind at 1.
      unfold random at 1. unfold ret at 1.
      destruct (pickRestSpot_spec (Brain.p_rugs p)
                  (Brain.setWalkS
                     (Brain.setT
                        (Brain.setMode
                           (Brain.setWalkS b (walkS b + Brain.p_dt p)) resting)
                        (Utils.lerp (fst PERSONALITY.restDuration)
                                    (snd PERSONALITY.restDuration) (ds (S n))))
                     0) ds (S (S n)) Hv)
        as (b2 & n2 & E & Hn & Hm & Ht & Hw2 & Hs & Hl & Hr).
      exists b2, n2. split; [exact E|]. simpl in Hm, Ht, Hw2, Hs, Hl.
      split; [exact Hs|]. split; [exact Hl|]. split; [lia|].
      right. split; [exact Em|]. right. left.
      destruct (Hv (S n)) as [H0 H1].
      split; [exact Hm|]. split; [exact Ed|].
      split; [apply Qltb_lt; exact Ew|].
      rewrite Ht. unfold Utils.lerp.
      split; [lra|]. split; [lra|]. split; [exact Hw2|].
      destruct Hr as [[E1 E2]|(spot & Hin & E2)]; [left | right].
      * split; [exact E1 | exact E2].
      * exists spot. split; [exact Hin | exact E2].
    + destruct (Hcur (S n)) as (b2 & n2 & E & Hs & Hl & Hn & Hc); [lia|].
      exists b2, n2. split; [exact E|]. split; [exact Hs|]. split; [exact Hl|].
      split; [lia|]. right. split; [exact Em|].
      destruct Hc as [(M1 & T1 & T2 & R1 & W1)|(M1 & T1 & R1 & W1)].
      * right. right. left. repeat split; assumption.
      * right. right. right. repeat split; assumption.
  - destruct (Hcur n) as (b2 & n2 & E & Hs & Hl & Hn & Hc); [lia|].
    exists b2, n2. split; [exact E|]. split; [exact Hs|]. split; [exact Hl|].
    split; [lia|]. right. split; [exact Em|].
    destruct Hc as [(M1 & T1 & T2 & R1 & W1)|(M1 & T1 & R1 & W1)].
    + right. right. left. repeat split; assumption.
    + right. right. right. repeat split; assumption.
Qed.

(** The last stage of [updateBrain]: a following pet near the player and a
    timed mode whose timer has run out go back to wandering; nothing else
    changes. *)
Lemma settle_spec (p : Brain.Params) (b : BrainState Q) :
  seed (Brain.settle p b) = seed b /\
  lastInteractAt (Brain.settle p b) = lastInteractAt b /\
  t (Brain.settle p b) = t b /\ restSpot (Brain.settle p b) = restSpot b /\
  ((Brain.settle p b = b /\
    (mode b = following -> 64 < Brain.p_playerDist2 p) /\
    (mode b = curious \/ mode b = resting \/ mode b = sleeping -> 0 < t b)) \/
   (mode b = following /\ Brain.p_playerDist2 p <= 64 /\
    mode (Brain.settle p b) = wandering /\ walkS (Brain.settle p b) = 0) \/
   ((mode b = curious \/ mode b = resting \/ mode b = sleeping) /\ t b <= 0 /\
    mode (Brain.settle p b) = wandering /\
    walkS (Brain.settle p b) = walkS b)).
Proof.
  unfold Brain.settle.
  destruct (Qle_bool (Brain.p_playerDist2 p) 64) eqn:Ed;
    destruct (Qle_bool (t b) 0) eqn:Et;
    destruct b as [m tt sd ws rs li]; destruct m; cbn in *;
    rewrite ?Et; cbn;
    repeat match goal with |- _ /\ _ => split end; try reflexivity;
    try (apply Qle_bool_iff in Ed); try (apply Qle_bool_false in Ed);
    try (apply Qle_bool_iff in Et); try (apply Qle_bool_false in Et);
    first
      [ left; split; [reflexivity|]; split;
        [ intro Hm; first [discriminate Hm | exact Ed]
        | intros [Hm|[Hm|Hm]]; first [discriminate Hm | exact Et] ]
      | right; left; repeat split; assumption
      | right; right; split; [auto|]; repeat split; assumption ].
Qed.

(** What one call of the autonomous part of [updateBrain] can do to a
    brain. *)
Lemma autonomous_spec (p : Brain.Params) (now : Q) (b : BrainState Q)
    (ds : Draws) (n : nat) :
  draws_valid ds ->
  exists b' n',
    Brain.autonomous p now b ds n = Some (b', n') /\ (n <= n' <= n + 4)%nat /\
    seed b' = seed b /\ lastInteractAt b' = lastInteractAt b /\
    ((mode b' = mode b /\ t b' = t b /\ restSpot b' = restSpot b) \/
     (mode b <> sleeping /\ mode b' = sleeping /\
      Brain.p_playerDist2 p <= 64 /\
      PERSONALITY.sleepAfterNoInteractS < now * (1 # 1000) - lastInteractAt b /\
      3 <= t b' /\ t b' < 6 /\ restSpotPicked (Brain.p_rugs p) b b') \/
     (mode b = wandering /\ mode b' = following /\
      64 < Brain.p_playerDist2 p /\ t b' = t b) \/
     (mode b = wandering /\ mode b' = resting /\
      Brain.p_playerDist2 p <= 64 /\
      26 # 10 <= t b' /\ t b' < 48 # 10 /\ walkS b' = 0 /\
      restSpotPicked (Brain.p_rugs p) b b') \/
     (mode b = wandering /\ mode b' = curious /\
      Brain.p_playerDist2 p <= 64 /\ 12 # 10 <= t b' /\ t b' < 22 # 10) \/
     (mode b = following /\ mode b' = wandering /\
      Brain.p_playerDist2 p <= 64 /\ walkS b' = 0 /\ t b' = t b) \/
     ((mode b = curious \/ mode b = resting \/ mode b = sleeping) /\
      mode b' = wandering /\ t b <= 0 /\ t b' = t b)).
Proof.
  intro Hv. unfold Brain.autonomous.
  destruct (sleepCheck_spec p now b ds n Hv)
    as (b1 & n1 & E1 & Hs1 & Hl1 & Hw1 & Hc1).
  destruct (wanderStep_spec p b1 ds n1 Hv)
    as (b2 & n2 & E2 & Hs2 & Hl2 & Hn2 & Hc2).
  exists (Brain.settle p b2), n2.
  unfold bind at 1. rewrite E1. unfold bind at 1. rewrite E2. unfold ret.
  split; [reflexivity|].
  destruct (settle_spec p b2) as (Hs3 & Hl3 & Ht3 & Hr3 & Hc3).
  assert (Hcur : (n <= n2 <= n + 4)%nat).
  { destruct Hc1 as [[_ Hn1]|(_ & Hm1 & _ & _ & _ & _ & _ & Hn1)]; [lia|].
    destruct Hc2 as [(_ & _ & ->)|[Hm2 _]]; [lia|]. congruence. }
  split; [exact Hcur|].
  split; [congruence|]. split; [congruence|].
  destruct Hc1 as [[-> _]|(Hm & Hm1 & Hd & Hi & T1 & T2 & Hr & _)].
  - (* the sleep check left the brain alone *)
    destruct Hc2 as [(Hm & -> & _)|[Hm Hc2]].
    + destruct Hc3 as [(-> & _)|[(M1 & D1 & M2 & W2)|(M1 & T1 & M2 & W2)]].
      * left. auto.
      * right. right. right. right. right. left. repeat split; assumption.
      * right. right. right. right. right. right. repeat split; assumption.
    + destruct Hc2 as [(M2 & D2 & T2 & R2 & W2)|[(M2 & D2 & W0 & T1 & T2 & W2 & R2)
                      |[(M2 & D2 & T1 & T2 & R2 & W2)|(M2 & D2 & T2 & R2 & W2)]]].
      * destruct Hc3 as [(-> & _)|[(M3 & D3 & _)|([M3|[M3|M3]] & _)]];
          try congruence.
        -- right. right. left. repeat split; assumption.
        -- exfalso. exact (Qlt_not_le _ _ D2 D3).
      * destruct Hc3 as [(-> & _)|[(M3 & _)|(_ & T3 & _)]]; try congruence.
        -- right. right. right. left. repeat split; assumption.
        -- exfalso. lra.
      * destruct Hc3 as [(-> & _)|[(M3 & _)|(_ & T3 & _)]]; try congruence.
        -- right. right. right. right. left. repeat split; assumption.
        -- exfalso. lra.
      * destruct Hc3 as [(-> & _)|[(M3 & _)|([M3|[M3|M3]] & _)]];
          try congruence.
        left. split; [congruence|]. split; assumption.
  - (* the pet fell asleep *)
    destruct Hc2 as [(_ & -> & _)|[Hm2 _]]; [|congruence].
    destruct Hc3 as [(-> & _)|[(M3 & _)|(_ & T3 & _)]]; try congruence.
    + right. left. repeat split; assumption.
    + exfalso. lra.
Qed.

Lemma updateBrain_free (brain : BrainState Q) (p : Brain.Params) (now : Q) :
  freePet p ->
  Brain.updateBrain brain p now
  = Brain.autonomous p now (Brain.setT brain (t brain - Brain.p_dt p)).
Proof.
  intros (Hh & Hc & Hs). unfold Brain.updateBrain. rewrite Hh, Hc, Hs.
  reflexivity.
Qed.

(** A pet that is held, part of the world of an active chase episode, or
    socially active gets its mode from outside: no draw is read. *)
Lemma updateBrain_driven (brain : BrainState Q) (p : Brain.Params) (now : Q)
    (ds : Draws) (n : nat) :
  ~ freePet p ->
  exists b',
    Brain.updateBrain brain p now ds n = Some (b', n) /\
    seed b' = seed brain /\ lastInteractAt b' = lastInteractAt brain /\
    walkS b' = walkS brain /\ restSpot b' = restSpot brain /\
    (mode b' = mode brain \/ mode b' = held \/ mode b' = chasing \/
     mode b' = running \/ mode b' = socializing).
Proof.
  intro Hnf. unfold Brain.updateBrain.
  destruct (Brain.p_isHeld p) eqn:Hh.
  { eexists. split; [reflexivity|]. repeat split. auto. }
  destruct (Brain.chaseOn p) as [c|] eqn:Hc.
  { destruct (idIs (Brain.p_petId p) (chaserId c)).
    - eexists. split; [reflexivity|]. repeat split. auto.
    - destruct (idIs (Brain.p_petId p) (runnerId c)).
      + eexists. split; [reflexivity|]. repeat split. auto.
      + eexists. split; [reflexivity|]. repeat split. auto. }
  destruct (Brain.p_socialActive p) eqn:Hs.
  { eexists. split; [reflexivity|]. repeat split. auto 6. }
  exfalso. apply Hnf. repeat split; assumption.
Qed.

Lemma freePet_dec (p : Brain.Params) : {freePet p} + {~ freePet p}.
Proof.
  unfold freePet.
  destruct (Brain.p_isHeld p); [right; intros (H & _); discriminate H|].
  destruct (Brain.chaseOn p); [right; intros (_ & H & _); discriminate H|].
  destruct (Brain.p_socialActive p); [right; intros (_ & _ & H); discriminate H|].
  left. auto.
Qed.

(** X11.  On draws in [[0, 1)] [updateBrain] always returns: no pick reads
    outside the rest-spot list.  It reads at most four draws, and none for a
    pet that is held, that lives under an active chase episode, or that is
    socially active.  It never writes [seed] or [lastInteractAt]. *)
Theorem updateBrain_total (brain : BrainState Q) (p : Brain.Params) (now : Q)
    (ds : Draws) (n : nat) :
  draws_valid ds ->
  exists b' n',
    Brain.updateBrain brain p now ds n = Some (b', n') /\
    (n <= n' <= n + 4)%nat /\
    (Brain.p_isHeld p = true \/ is_Some (Brain.chaseOn p) \/
     Brain.p_socialActive p = true -> n' = n) /\
    seed b' = seed brain /\ lastInteractAt b' = lastInteractAt brain.
Proof.
  intro Hv. destruct (freePet_dec p) as [Hf|Hnf].
  - rewrite (updateBrain_free brain p now Hf).
    destruct (autonomous_spec p now (Brain.setT brain (t brain - Brain.p_dt p))
                ds n Hv) as (b' & n' & E & Hn & Hs & Hl & _).
    exists b', n'. split; [exact E|]. split; [exact Hn|].
    split; [|split; [exact Hs | exact Hl]].
    destruct Hf as (Hh & Hc & Hso).
    intros [H|[H|H]]; [congruence | | congruence].
    rewrite Hc in H. destruct H as [x H]. discriminate H.
  - destruct (updateBrain_driven brain p now ds n Hnf)
      as (b' & E & Hs & Hl & _).
    exists b', n. split; [exact E|]. split; [lia|]. auto.
Qed.

Lemma updateBrain_total_witness :
  exists b' n',
    Brain.updateBrain (Scene.brainIn wandering 0) (Scene.freeParams 100) 0
      (constDraws (1 # 2)) 0%nat = Some (b', n') /\
    (0 <= n' <= 0 + 4)%nat /\
    (Brain.p_isHeld (Scene.freeParams 100) = true \/
     is_Some (Brain.chaseOn (Scene.freeParams 100)) \/
     Brain.p_socialActive (Scene.freeParams 100) = true -> n' = 0%nat) /\
    seed b' = seed (Scene.brainIn wandering 0) /\
    lastInteractAt b' = lastInteractAt (Scene.brainIn wandering 0).
Proof.
  apply updateBrain_total.
  apply constDraws_valid; unfold Qle, Qlt; simpl; lia.
Defined.

(** X12.  The mode graph of a pet whose brain runs on its own (not held, no
    active chase episode, not socially active).  When [updateBrain] changes
    the mode, the pet falls asleep, or it was wandering and now follows,
    rests or is curious, or it was following, curious, resting or sleeping
    and now wanders.  In particular the modes held, socializing, chasing and
    running are left only by falling asleep. *)
Theorem updateBrain_mode_graph (brain b' : BrainState Q) (p : Brain.Params)
    (now : Q) (ds : Draws) (n n' : nat) :
  draws_valid ds -> freePet p ->
  Brain.updateBrain brain p now ds n = Some (b', n') ->
  mode b' <> mode brain ->
  mode b' = sleeping \/
  (mode brain = wandering /\
   (mode b' = following \/ mode b' = resting \/ mode b' = curious)) \/
  (mode b' = wandering /\
   (mode brain = following \/ mode brain = curious \/ mode brain = resting \/
    mode brain = sleeping)).
Proof.
  intros Hv Hf E Hne. rewrite (updateBrain_free brain p now Hf) in E.
  destruct (autonomous_spec p now (Brain.setT brain (t brain - Brain.p_dt p))
              ds n Hv) as (b2 & n2 & E2 & _ & _ & _ & Hc).
  rewrite E2 in E. injection E as <- <-. cbn [mode Brain.setT] in Hc.
  destruct Hc as [(M & _)|[(_ & M & _)|[(M0 & M & _)|[(M0 & M & _)
                 |[(M0 & M & _)|[(M0 & M & _)|(M0 & M & _)]]]]]].
  - contradiction.
  - left. exact M.
  - right. left. auto.
  - right. left. auto.
  - right. left. auto.
  - right. right. auto.
  - right. right. split; [exact M|]. tauto.
Qed.

Lemma updateBrain_mode_graph_witness :
  following = sleeping \/
  (wandering = wandering /\
   (following = following \/ following = resting \/ following = curious)) \/
  (following = wandering /\
   (wandering = following \/ wandering = curious \/ wandering = resting \/
    wandering = sleeping)).
Proof.
  assert (Hv : draws_valid (constDraws (1 # 2)))
    by (apply constDraws_valid; unfold Qle, Qlt; simpl; lia).
  refine (updateBrain_mode_graph (Scene.brainIn wandering 0)
            (Brain.setMode
               (Brain.setWalkS
                  (Brain.setT (Scene.brainIn wandering 0) (0 - (1 # 60)))
                  (0 + (1 # 60))) following)
            (Scene.freeParams 100) 0 (constDraws (1 # 2)) 0 0 Hv _ _ _).
  - repeat split.
  - reflexivity.
  - discriminate.
Defined.

(** X13.  Timers of the timed modes.  When [updateBrain] moves a pet into
    resting, the timer is in [[2.6, 4.8)], [walkS] is reset to 0 and the rest
    spot is one of the rest spots given (the old one if none is given); into
    curious, the timer is in [[1.2, 2.2)]; into sleeping, the timer is in
    [[3, 6)] and the rest spot is chosen the same way. *)
Theorem timed_mode_entry (brain b' : BrainState Q) (p : Brain.Params)
    (now : Q) (ds : Draws) (n n' : nat) :
  draws_valid ds ->
  Brain.updateBrain brain p now ds n = Some (b', n') ->
  mode b' <> mode brain ->
  (mode b' = resting ->
   26 # 10 <= t b' /\ t b' < 48 # 10 /\ walkS b' = 0 /\
   restSpotPicked (Brain.p_rugs p) brain b') /\
  (mode b' = curious -> 12 # 10 <= t b' /\ t b' < 22 # 10) /\
  (mode b' = sleeping ->
   3 <= t b' /\ t b' < 6 /\ restSpotPicked (Brain.p_rugs p) brain b').
Proof.
  intros Hv E Hne. destruct (freePet_dec p) as [Hf|Hnf].
  - rewrite (updateBrain_free brain p now Hf) in E.
    destruct (autonomous_spec p now (Brain.setT brain (t brain - Brain.p_dt p))
                ds n Hv) as (b2 & n2 & E2 & _ & _ & _ & Hc).
    rewrite E2 in E. injection E as <- <-.
    unfold restSpotPicked in *. cbn [mode restSpot Brain.setT] in Hc.
    destruct Hc as [(M & _)|[(_ & M & _ & _ & T1 & T2 & R)
                   |[(_ & M & _)|[(_ & M & _ & T1 & T2 & W & R)
                   |[(_ & M & _ & T1 & T2)|[(_ & M & _)|(_ & M & _)]]]]]];
      try contradiction;
      (split; [|split]); intro M'; try congruence; auto.
  - destruct (updateBrain_driven brain p now ds n Hnf)
      as (b2 & E2 & _ & _ & _ & _ & Hc).
    rewrite E2 in E. injection E as <- _.
    destruct Hc as [M|[M|[M|[M|M]]]]; try contradiction;
      (split; [|split]); intro M'; congruence.
Qed.

Lemma timed_mode_entry_witness :
  exists b' n',
    Brain.updateBrain (Scene.brainIn wandering 0) (Scene.freeParams 1) 0
      (constDraws (1 # 1000)) 0%nat = Some (b', n') /\
    mode b' = curious /\ 12 # 10 <= t b' /\ t b' < 22 # 10.
Proof.
  assert (Hv : draws_valid (constDraws (1 # 1000)))
    by (apply constDraws_valid; unfold Qle, Qlt; simpl; lia).
  eexists. eexists. split; [vm_compute; reflexivity|].
  split; [reflexivity|].
  refine (proj1 (proj2 (timed_mode_entry (Scene.brainIn wandering 0) _
                          (Scene.freeParams 1) 0 (constDraws (1 # 1000)) 0 _
                          Hv _ _)) _).
  - vm_compute. reflexivity.
  - discriminate.
  - reflexivity.
Defined.

(** X14.  A pet that was awake is put to sleep by [updateBrain] only when
    its brain runs on its own, the squared distance to the player is at most
    64 and the last interaction is more than 22 s old. *)
Theorem falls_asleep_only_idle (brain b' : BrainState Q) (p : Brain.Params)
    (now : Q) (ds : Draws) (n n' : nat) :
  draws_valid ds ->
  Brain.updateBrain brain p now ds n = Some (b', n') ->
  mode brain <> sleeping -> mode b' = sleeping ->
  freePet p /\ Brain.p_playerDist2 p <= 64 /\
  22 < now * (1 # 1000) - lastInteractAt brain.
Proof.
  intros Hv E Hm Hm'. destruct (freePet_dec p) as [Hf|Hnf].
  - split; [exact Hf|].
    rewrite (updateBrain_free brain p now Hf) in E.
    destruct (autonomous_spec p now (Brain.setT brain (t brain - Brain.p_dt p))
                ds n Hv) as (b2 & n2 & E2 & _ & _ & _ & Hc).
    rewrite E2 in E. injection E as <- <-.
    cbn [mode lastInteractAt Brain.setT] in Hc.
    destruct Hc as [(M & _)|[(_ & _ & D & I & _)|[(_ & M & _)|[(_ & M & _)
                   |[(_ & M & _)|[(_ & M & _)|(_ & M & _)]]]]]];
      try congruence.
    split; [exact D | exact I].
  - destruct (updateBrain_driven brain p now ds n Hnf)
      as (b2 & E2 & _ & _ & _ & _ & Hc).
    rewrite E2 in E. injection E as <- _.
    destruct Hc as [M|[M|[M|[M|M]]]]; congruence.
Qed.

Lemma falls_asleep_only_idle_witness :
  freePet (Scene.freeParams 1) /\
  Brain.p_playerDist2 (Scene.freeParams 1) <= 64 /\
  22 < 30000 * (1 # 1000) - lastInteractAt (Scene.brainIn wandering 0).
Proof.
  assert (Hv : draws_valid (constDraws (1 # 10000)))
    by (apply constDraws_valid; unfold Qle, Qlt; simpl; lia).
  assert (E : exists b' n',
             Brain.updateBrain (Scene.brainIn wandering 0) (Scene.freeParams 1)
               30000 (constDraws (1 # 10000)) 0%nat = Some (b', n') /\
             mode b' = sleeping)
    by (eexists; eexists; split; vm_compute; reflexivity).
  destruct E as (b' & n' & E & M).
  apply (falls_asleep_only_idle _ b' _ _ _ _ _ Hv E); [discriminate | exact M].
Defined.

(** One update of a sleeping pet whose brain runs on its own: the timer goes
    down by [dt], the pet wakes when it reaches zero, no draw is read. *)
Lemma updateBrain_sleeping (brain : BrainState Q) (p : Brain.Params) (now : Q)
    (ds : Draws) (n : nat) :
  freePet p -> mode brain = sleeping ->
  Brain.updateBrain brain p now ds n
  = Some (Brain.setMode (Brain.setT brain (t brain - Brain.p_dt p))
            (if Qle_bool (t brain - Brain.p_dt p) 0 then wandering else sleeping),
          n).
Proof.
  intros Hf Hm. rewrite (updateBrain_free brain p now Hf).
  unfold Brain.autonomous, Brain.sleepCheck.
  cbn [mode Brain.setT]. rewrite Hm. cbn [Mode_eqb negb andb].
  unfold bind, ret. cbn beta iota.
  rewrite wanderStep_other by (cbn; rewrite Hm; discriminate).
  f_equal. f_equal.
  destruct brain as [m tt sd ws rs li]. cbn in Hm. subst m.
  unfold Brain.settle. cbn.
  destruct (Qle_bool (tt - Brain.p_dt p) 0); reflexivity.
Qed.

(** X15.  A sleeping pet that is left alone (not held, no chase episode, not
    socially active) sleeps through every run of frames whose total time is
    below its timer: no draw is read, the rest spot is kept and the timer
    goes down by the total time.  In the first frame that brings the timer
    to zero or below, it wakes and wanders. *)
Theorem sleeps_until_timer (frames : list (Brain.Params * Q))
    (b : BrainState Q) (ds : Draws) (n : nat) :
  Forall (fun f => freePet (fst f) /\ 0 <= Brain.p_dt (fst f)) frames ->
  mode b = sleeping ->
  Qsum (List.map (fun f => Brain.p_dt (fst f)) frames) < t b ->
  exists b',
    updateBrainRun frames b ds n = Some (b', n) /\
    mode b' = sleeping /\ restSpot b' = restSpot b /\
    t b' == t b - Qsum (List.map (fun f => Brain.p_dt (fst f)) frames) /\
    forall (p : Brain.Params) (now : Q),
      freePet p -> t b' - Brain.p_dt p <= 0 ->
      exists b'', Brain.updateBrain b' p now ds n = Some (b'', n) /\
                  mode b'' = wandering.
Proof.
  revert b n. induction frames as [|[p now] rest IH]; intros b n Hall Hm Hsum.
  - exists b. simpl. split; [reflexivity|]. split; [exact Hm|].
    split; [reflexivity|]. split; [unfold Qsum; simpl; ring|].
    intros p now Hf Ht. rewrite (updateBrain_sleeping b p now ds n Hf Hm).
    eexists. split; [reflexivity|].
    replace (Qle_bool (t b - Brain.p_dt p) 0) with true
      by (symmetry; apply Qle_bool_iff; exact Ht).
    reflexivity.
  - inversion Hall as [|f fs [Hf Hdt] Hrest]; subst. cbn [fst] in Hf, Hdt.
    cbn [List.map Qsum fold_right fst] in Hsum |- *.
    fold (Qsum (List.map (fun f => Brain.p_dt (fst f)) rest)) in Hsum |- *.
    assert (Hnn : 0 <= Qsum (List.map (fun f => Brain.p_dt (fst f)) rest)).
    { clear -Hrest. induction Hrest as [|f fs [_ Hd] _ IH]; simpl.
      - unfold Qsum; simpl; lra.
      - unfold Qsum in *; simpl. lra. }
    cbn [updateBrainRun]. unfold bind at 1.
    rewrite (updateBrain_sleeping b p now ds n Hf Hm).
    replace (Qle_bool (t b - Brain.p_dt p) 0) with false
      by (symmetry; apply Qle_bool_false; lra).
    destruct (IH (Brain.setMode (Brain.setT b (t b - Brain.p_dt p)) sleeping)
                 n Hrest eq_refl) as (b' & E & M & R & T & W).
    { cbn. lra. }
    exists b'. split; [exact E|]. split; [exact M|].
    split; [exact R|]. split; [|exact W].
    rewrite T. cbn. ring.
Qed.

Lemma sleeps_until_timer_witness :
  exists b',
    updateBrainRun [(Scene.freeParams 1, 0); (Scene.freeParams 1, 0)]
      (Scene.brainIn sleeping 3) (constDraws (1 # 2)) 0%nat = Some (b', 0%nat) /\
    mode b' = sleeping.
Proof.
  destruct (sleeps_until_timer
              [(Scene.freeParams 1, 0); (Scene.freeParams 1, 0)]
              (Scene.brainIn sleeping 3) (constDraws (1 # 2)) 0)
    as (b' & E & M & _).
  - repeat constructor; unfold Qle; simpl; lia.
  - reflexivity.
  - vm_compute. reflexivity.
  - exists b'. split; [exact E | exact M].
Defined.

(** ** C3: following and returning *)

(** The idle-sleep check fires on a pet that is awake, near the player and
    untouched for more than 22 s when the draw is below [0.035 * dt]. *)
Lemma sleepCheck_fires (p : Brain.Params) (now : Q) (b : BrainState Q)
    (ds : Draws) (n : nat) :
  draws_valid ds ->
  mode b <> sleeping -> Brain.p_playerDist2 p <= 64 ->
  PERSONALITY.sleepAfterNoInteractS < now * (1 # 1000) - lastInteractAt b ->
  ds n < (35 # 1000) * Brain.p_dt p ->
  exists b1 n1,
    Brain.sleepCheck p now b ds n = Some (b1, n1) /\
    mode b1 = sleeping /\ 3 <= t b1.
Proof.
  intros Hv Hm Hnear Hidle Hdraw. unfold Brain.sleepCheck.
  replace (Mode_eqb (mode b) sleeping) with false
    by (symmetry; destruct (Mode_eqb (mode b) sleeping) eqn:E; [|reflexivity];
        apply Mode_eqb_eq in E; contradiction).
  replace (Qle_bool (Brain.p_playerDist2 p) 64) with true
    by (symmetry; apply Qle_bool_iff; exact Hnear).
  cbn [negb andb].
  replace (Qgtb (now * (1 # 1000) - lastInteractAt b)
                PERSONALITY.sleepAfterNoInteractS) with true
    by (symmetry; apply Qltb_lt; exact Hidle).
  unfold bind at 1. unfold random at 1.
  replace (Qltb (ds n) ((35 # 1000) * Brain.p_dt p)) with true
    by (symmetry; apply Qltb_lt; exact Hdraw).
  unfold Utils.randRange. unfold bind at 1. unfold bind at 1.
  unfold random at 1. unfold ret at 1.
  destruct (pickRestSpot_spec (Brain.p_rugs p)
              (Brain.setT (Brain.setMode b sleeping)
                          (Utils.lerp 3 6 (ds (S n)))) ds (S (S n)) Hv)
    as (b1 & n1 & E & _ & Hm1 & Ht1 & _).
  exists b1, n1. split; [exact E|]. split; [exact Hm1|].
  rewrite Ht1. cbn [t Brain.setT]. unfold Utils.lerp.
  destruct (Hv (S n)) as [H0 H1]. lra.
Qed.

(** C3, as amended.  For a pet that is not held and not socially active,
    while no chase episode is active: a wandering pet, or one that follows
    already, whose squared distance to the player exceeds 64 is following
    after the update, and no draw is read; a following pet whose squared
    distance is at most 64 is wandering with [walkS = 0] after the update,
    unless the idle-sleep transition fires in that update (no interaction
    for more than 22 s and a draw below [0.035 * dt]), in which case it is
    sleeping. *)
Theorem follow_and_return (b : BrainState Q) (p : Brain.Params) (now : Q)
    (ds : Draws) (n : nat) :
  draws_valid ds ->
  Brain.p_isHeld p = false ->
  Brain.chaseOn p = None ->
  Brain.p_socialActive p = false ->
  (mode b = wandering \/ mode b = following -> 64 < Brain.p_playerDist2 p ->
   exists b', Brain.updateBrain b p now ds n = Some (b', n) /\
              mode b' = following) /\
  (mode b = following -> Brain.p_playerDist2 p <= 64 ->
   exists b' n',
     Brain.updateBrain b p now ds n = Some (b', n') /\
     ((mode b' = wandering /\ walkS b' = 0 /\
       (now * (1 # 1000) - lastInteractAt b <= PERSONALITY.sleepAfterNoInteractS \/
        (35 # 1000) * Brain.p_dt p <= ds n)) \/
      (mode b' = sleeping /\
       PERSONALITY.sleepAfterNoInteractS < now * (1 # 1000) - lastInteractAt b /\
       ds n < (35 # 1000) * Brain.p_dt p))).
Proof.
  intros Hv Hheld Hchase Hsocial. unfold Brain.updateBrain.
  rewrite Hheld, Hchase, Hsocial. unfold Brain.autonomous.
  set (b0 := Brain.setT b (t b - Brain.p_dt p)).
  split.
  - intros Hm Hfar.
    unfold bind at 1. rewrite (sleepCheck_far p now b0 ds n Hfar).
    unfold bind. destruct Hm as [Hm|Hm].
    + rewrite (wanderStep_far p b0 ds n Hm Hfar).
      unfold ret. rewrite settle_following_far by (try exact Hfar; reflexivity).
      eexists. split; reflexivity.
    + rewrite (wanderStep_other p b0 ds n)
        by (change (mode b0) with (mode b); rewrite Hm; discriminate).
      unfold ret. rewrite (settle_following_far p b0 Hm Hfar).
      eexists. split; [reflexivity | exact Hm].
  - intros Hm Hnear.
    assert (Hquiet :
      now * (1 # 1000) - lastInteractAt b <= PERSONALITY.sleepAfterNoInteractS \/
      (35 # 1000) * Brain.p_dt p <= ds n ->
      exists b' n',
        bind (Brain.sleepCheck p now b0)
          (fun b1 => bind (Brain.wanderStep p b1)
                       (fun b2 => ret (Brain.settle p b2))) ds n = Some (b', n') /\
        mode b' = wandering /\ walkS b' = 0).
    { intro Hidle.
      destruct (sleepCheck_idle p now b0 ds n Hidle) as (n' & Hsleep).
      unfold bind at 1. rewrite Hsleep.
      unfold bind. rewrite (wanderStep_other p b0 ds n')
        by (change (mode b0) with (mode b); rewrite Hm; discriminate).
      unfold ret. rewrite (settle_following_near p b0 Hm Hnear).
      eexists. eexists. repeat split; reflexivity. }
    destruct (Qlt_le_dec PERSONALITY.sleepAfterNoInteractS
                (now * (1 # 1000) - lastInteractAt b)) as [Hidle|Hidle].
    2:{ destruct (Hquiet (or_introl Hidle)) as (b' & n' & E & Hw & Hs).
        exists b', n'. split; [exact E|]. left. auto. }
    destruct (Qlt_le_dec (ds n) ((35 # 1000) * Brain.p_dt p)) as [Hdraw|Hdraw].
    2:{ destruct (Hquiet (or_intror Hdraw)) as (b' & n' & E & Hw & Hs).
        exists b', n'. split; [exact E|]. left. auto. }
    destruct (sleepCheck_fires p now b0 ds n Hv) as (b1 & n1 & E1 & Hm1 & Ht1);
      try assumption.
    { change (mode b0) with (mode b). rewrite Hm. discriminate. }
    exists b1, n1. split; [|right; auto].
    unfold bind at 1. rewrite E1.
    unfold bind. rewrite (wanderStep_other p b1 ds n1)
      by (rewrite Hm1; discriminate).
    unfold ret. f_equal. f_equal. unfold Brain.settle. rewrite Hm1.
    cbn [Mode_eqb andb orb]. rewrite Hm1. cbn [Mode_eqb andb orb].
    replace (Qle_bool (t b1) 0) with false; [reflexivity|].
    symmetry. apply Qle_bool_false. lra.
Qed.

Lemma follow_and_return_witness :
  (exists b', Brain.updateBrain (Scene.brainIn wandering 0) (Scene.freeParams 100)
                30000 (constDraws (1 # 2)) 0%nat = Some (b', 0%nat) /\
              mode b' = following) /\
  (exists b' n', Brain.updateBrain (Scene.brainIn following 0) (Scene.freeParams 50)
                   30000 (constDraws (1 # 2)) 0%nat = Some (b', n') /\
                 mode b' = wandering /\ walkS b' = 0).
Proof.
  assert (Hv : draws_valid (constDraws (1 # 2)))
    by (apply constDraws_valid; unfold Qle, Qlt; simpl; lia).
  split.
  - apply (follow_and_return (Scene.brainIn wandering 0) (Scene.freeParams 100)
             30000 (constDraws (1 # 2)) 0 Hv eq_refl eq_refl eq_refl).
    + left. reflexivity.
    + reflexivity.
  - destruct (follow_and_return (Scene.brainIn following 0) (Scene.freeParams 50)
                30000 (constDraws (1 # 2)) 0 Hv eq_refl eq_refl eq_refl)
      as [_ H].
    destruct H as (b' & n' & E & [(Hw & Hs & _)|(_ & _ & Hd)]).
    + reflexivity.
    + unfold Qle. simpl. lia.
    + exists b', n'. auto.
    + exfalso. revert Hd. unfold constDraws, Qlt. simpl. lia.
Defined.

(** C3, as stated, fails on pets that are neither sleeping, nor held, nor
    chaser or runner, nor socially active.  Far from the player (squared
    distance 100): a curious pet stays curious and a resting pet stays
    resting; a wandering pet stays wandering while two other pets chase each
    other.  Back near the player (squared distance 50): a following pet
    that has not been touched for 30 s falls asleep when the idle-sleep
    draw succeeds. *)
Lemma pets_that_do_not_follow :
  (mode (Scene.brainIn curious 5) <> sleeping /\
   64 < Brain.p_playerDist2 (Scene.freeParams 100) /\
   exists b',
     Brain.updateBrain (Scene.brainIn curious 5) (Scene.freeParams 100) 30000
       (constDraws (1 # 2)) 0%nat = Some (b', 0%nat) /\
     mode b' = curious) /\
  (mode (Scene.brainIn resting 5) <> sleeping /\
   exists b',
     Brain.updateBrain (Scene.brainIn resting 5) (Scene.freeParams 100) 30000
       (constDraws (1 # 2)) 0%nat = Some (b', 0%nat) /\
     mode b' = resting) /\
  (Brain.p_isHeld (Scene.bystanderParams 100) = false /\
   Brain.p_socialActive (Scene.bystanderParams 100) = false /\
   64 < Brain.p_playerDist2 (Scene.bystanderParams 100) /\
   (exists c, Brain.p_chaseMode (Scene.bystanderParams 100) = Some c /\
              Manager.chaseInvolved c (Brain.p_petId (Scene.bystanderParams 100))
              = false) /\
   exists b',
     Brain.updateBrain (Scene.brainIn wandering 0) (Scene.bystanderParams 100)
       30000 (constDraws (1 # 2)) 0%nat = Some (b', 0%nat) /\
     mode b' = wandering) /\
  (Brain.p_playerDist2 (Scene.freeParams 50) <= 64 /\
   exists b' n',
     Brain.updateBrain (Scene.brainIn following 0) (Scene.freeParams 50) 30000
       (constDraws (1 # 4000)) 0%nat = Some (b', n') /\
     mode b' = sleeping).
Proof.
  split; [|split; [|split]].
  - split; [discriminate|]. split; [reflexivity|].
    eexists. split; [vm_compute; reflexivity | reflexivity].
  - split; [discriminate|].
    eexists. split; [vm_compute; reflexivity | reflexivity].
  - split; [reflexivity|]. split; [reflexivity|]. split; [reflexivity|].
    split; [eexists; split; [reflexivity | vm_compute; reflexivity]|].
    eexists. split; [vm_compute; reflexivity | reflexivity].
  - split; [unfold Qle; simpl; lia|].
    eexists. eexists. split; [vm_compute; reflexivity | reflexivity].
Qed.

(** ** The frame callback and the pointer handlers of a pet ([Pet.jsx]) *)

Lemma socialExpiry_held (time : Q) (rt : PetRuntime) :
  rt_held (Pet.socialExpiry time rt) = rt_held rt /\
  rt_pos (Pet.socialExpiry time rt) = rt_pos rt /\
  rt_social (Pet.socialExpiry time rt)
  = fst (Social.updateSocialState (rt_social rt) time) /\
  (rt_held rt = true -> rt_brain (Pet.socialExpiry time rt) = rt_brain rt).
Proof.
  unfold Pet.socialExpiry.
  destruct (Social.updateSocialState (rt_social rt) time) as [s ended].
  cbn. repeat split. intros ->. rewrite andb_false_r. reflexivity.
Qed.

(** The love decay always returns, and reads one draw for each heart it
    emits: at most one. *)
Lemma loveDecay_draws (dt : Q) (p : Pet.Petting) (ds : Draws) (n : nat) :
  exists lv, Pet.loveDecay dt p ds n = Some (lv, (n + snd lv)%nat) /\
             (snd lv <= 1)%nat.
Proof.
  unfold Pet.loveDecay.
  destruct (Qgtb _ _).
  2:{ refine (ex_intro _ (_, 0%nat) _). cbn [snd]. rewrite Nat.add_0_r.
      split; [reflexivity | lia]. }
  destruct (Qle_bool _ _).
  2:{ refine (ex_intro _ (_, 0%nat) _). cbn [snd]. rewrite Nat.add_0_r.
      split; [reflexivity | lia]. }
  unfold bind, random, ret. refine (ex_intro _ (_, 1%nat) _). cbn [snd].
  rewrite Nat.add_1_r. split; [reflexivity | lia].
Qed.

(** One frame of a held pet: only the social expiry and the love decay
    run. *)
Lemma frameBrain_held (time dt now hoverBaseY : Q) (id : string)
    (camera : Q * Q) (chase : option (ChaseMode Q)) (rugs : list (Q * Q))
    (rt : PetRuntime) (petting : Pet.Petting) (ds : Draws) (n : nat) :
  rt_held rt = true ->
  exists rt' lv,
    Pet.loveDecay dt petting ds n = Some (lv, (n + snd lv)%nat) /\
    (snd lv <= 1)%nat /\
    Pet.frameBrain time dt now hoverBaseY id camera chase rugs rt petting ds n
    = Some ((rt', fst lv, snd lv), (n + snd lv)%nat) /\
    rt_held rt' = true /\ rt_brain rt' = rt_brain rt /\ rt_pos rt' = rt_pos rt /\
    rt_social rt' = fst (Social.updateSocialState (rt_social rt) time).
Proof.
  intro Hh. unfold Pet.frameBrain.
  destruct (socialExpiry_held time rt) as (E1 & E2 & E3 & E4).
  destruct (loveDecay_draws dt petting ds n) as (lv & EL & Hl).
  unfold bind at 1. rewrite EL, E1, Hh.
  eexists. exists lv. split; [reflexivity|]. split; [exact Hl|].
  split; [reflexivity|].
  cbn. rewrite E1, E2, E3, (E4 Hh), Hh.
  repeat split. unfold Pet.chaseInfluence.
  destruct chase as [c|]; reflexivity.
Qed.

(** The love decay of a pet whose love is at most 0.2 emits no heart and
    reads no draw. *)
Lemma loveDecay_calm (dt : Q) (p : Pet.Petting) (ds : Draws) (n : nat) :
  0 <= dt -> Pet.love p <= 2 # 10 ->
  exists p', Pet.loveDecay dt p ds n = Some ((p', 0%nat), n) /\
             Pet.love p' <= 2 # 10.
Proof.
  intros Hdt Hl. unfold Pet.loveDecay.
  assert (Hmax : Qmax 0 (Pet.love p - dt * Pet.decayRate) <= 2 # 10).
  { apply Q.max_lub; [unfold Qle; simpl; lia|].
    unfold Pet.decayRate. lra. }
  replace (Qgtb (Qmax 0 (Pet.love p - dt * Pet.decayRate)) (2 # 10)) with false
    by (symmetry; apply Qltb_ge; exact Hmax).
  eexists. split; [reflexivity|]. exact Hmax.
Qed.

(** X16.  The frame callback never touches the brain of a held pet: over any
    run of frames the mode, the timer, the walking time, the rest spot and
    the position stay as they are, whatever the chase mode says.  Only the
    social expiry and the love decay run (the [isHeld] branch of
    [updateBrain] is never reached from the frame callback): the petting
    state after the run and the draws read are those of the love decay
    alone, at most one heart is emitted per frame, and a pet whose love is
    at most 0.2 emits no heart and reads no draw. *)
Theorem held_pet_brain_frozen (hoverBaseY : Q) (id : string)
    (rugs : list (Q * Q)) (frames : list FrameInput) (rt : PetRuntime)
    (petting : Pet.Petting) (ds : Draws) (n : nat) :
  rt_held rt = true ->
  exists rt' petting' hearts n',
    frameBrainRun hoverBaseY id rugs frames rt petting ds n
    = Some ((rt', petting', hearts), n') /\
    rt_held rt' = true /\ rt_brain rt' = rt_brain rt /\ rt_pos rt' = rt_pos rt /\
    Pet.loveDecayRun (List.map f_dt frames) petting ds n = Some (petting', n') /\
    (hearts <= List.length frames)%nat /\
    (Forall (fun f => 0 <= f_dt f) frames -> Pet.love petting <= 2 # 10 ->
     hearts = 0%nat /\ n' = n).
Proof.
  revert rt petting n. induction frames as [|f rest IH]; intros rt petting n Hh.
  - exists rt, petting, 0%nat, n.
    split; [reflexivity|]. repeat split; auto.
  - destruct (frameBrain_held (f_time f) (f_dt f) (f_now f) hoverBaseY id
                (f_camera f) (f_chase f) rugs rt petting ds n Hh)
      as (rt1 & lv & EL & Hl & E1 & H1 & B1 & P1 & _).
    destruct (IH rt1 (fst lv) (n + snd lv)%nat H1)
      as (rt' & petting' & hearts & n' & E & H' & B' & P' & ER & Hn & Hcalm).
    exists rt', petting', (snd lv + hearts)%nat, n'.
    split; [|split; [exact H'|split; [congruence|split; [congruence|split;
                                                          [|split]]]]].
    + cbn [frameBrainRun]. unfold bind at 1. rewrite E1. cbn [fst snd].
      unfold bind at 1. rewrite E. reflexivity.
    + cbn [List.map Pet.loveDecayRun]. unfold bind at 1. rewrite EL. exact ER.
    + cbn [List.length]. lia.
    + intros Hdts Hlove. inversion Hdts as [|f0 rest0 Hdt Hrest]; subst.
      destruct (loveDecay_calm (f_dt f) petting ds n Hdt Hlove)
        as (p1 & Ecalm & Hp1).
      rewrite Ecalm in EL. injection EL as Elv En.
      rewrite <- Elv in Hcalm, En |- *. cbn [fst snd] in *.
      destruct (Hcalm Hrest Hp1) as [-> ->]. split; lia.
Qed.

Lemma held_pet_brain_frozen_witness :
  exists rt' petting' hearts n',
    frameBrainRun BASE_Y "pet_a" Scene.rugs
      [{| f_time := 1; f_dt := 1 # 60; f_now := 1000; f_camera := (0, 0);
          f_chase := Some (chaseModeRef Scene.duringChase) |}]
      (Pet.dragFirst 0 (Scene.mounted 0 0 "cat")) Scene.lovedPet
      (constDraws (1 # 2)) 0%nat
    = Some ((rt', petting', hearts), n') /\
    rt_held rt' = true /\
    rt_brain rt' = rt_brain (Pet.dragFirst 0 (Scene.mounted 0 0 "cat")) /\
    rt_pos rt' = rt_pos (Pet.dragFirst 0 (Scene.mounted 0 0 "cat")) /\
    Pet.loveDecayRun [1 # 60] Scene.lovedPet (constDraws (1 # 2)) 0%nat
    = Some (petting', n') /\
    (hearts <= 1)%nat.
Proof.
  destruct (held_pet_brain_frozen BASE_Y "pet_a" Scene.rugs
              [{| f_time := 1; f_dt := 1 # 60; f_now := 1000; f_camera := (0, 0);
                  f_chase := Some (chaseModeRef Scene.duringChase) |}]
              (Pet.dragFirst 0 (Scene.mounted 0 0 "cat")) Scene.lovedPet
              (constDraws (1 # 2)) 0%nat eq_refl)
    as (rt' & petting' & hearts & n' & E & H1 & H2 & H3 & H4 & H5 & _).
  exists rt', petting', hearts, n'. auto 10.
Defined.

(** In that run the love decay does read a draw: the pet, rubbed shortly
    before it was picked up, emits a heart in the first frame. *)
Lemma held_pet_reads_a_draw :
  exists rt' petting',
    frameBrainRun BASE_Y "pet_a" Scene.rugs
      [{| f_time := 1; f_dt := 1 # 60; f_now := 1000; f_camera := (0, 0);
          f_chase := Some (chaseModeRef Scene.duringChase) |}]
      (Pet.dragFirst 0 (Scene.mounted 0 0 "cat")) Scene.lovedPet
      (constDraws (1 # 2)) 0%nat
    = Some ((rt', petting', 1%nat), 1%nat).
Proof. eexists. eexists. vm_compute. reflexivity. Qed.

Lemma chaseInfluence_mode (time hoverBaseY : Q) (id : string)
    (chase : option (ChaseMode Q)) (isHeld : bool) (b : BrainState Q) :
  mode (Pet.chaseInfluence time hoverBaseY id chase isHeld b) = mode b \/
  mode (Pet.chaseInfluence time hoverBaseY id chase isHeld b) = chasing \/
  mode (Pet.chaseInfluence time hoverBaseY id chase isHeld b) = running.
Proof.
  unfold Pet.chaseInfluence. destruct chase as [c|]; [|auto].
  destruct (negb isHeld && chase_active c); [|auto].
  destruct (idIs id (chaserId c)); [cbn; auto|].
  destruct (idIs id (runnerId c)); cbn; auto.
Qed.

(** [updateBrain] never makes a pet socializing that is not socially
    active. *)
Lemma updateBrain_not_socializing (brain b' : BrainState Q) (p : Brain.Params)
    (now : Q) (ds : Draws) (n n' : nat) :
  draws_valid ds -> Brain.p_isHeld p = false -> Brain.p_socialActive p = false ->
  Brain.updateBrain brain p now ds n = Some (b', n') ->
  mode brain <> socializing -> mode b' <> socializing.
Proof.
  intros Hv Hh Hs E Hm. unfold Brain.updateBrain in E. rewrite Hh, Hs in E.
  destruct (Brain.chaseOn p) as [c|].
  - destruct (idIs (Brain.p_petId p) (chaserId c));
      [inv_M E; cbn; discriminate|].
    destruct (idIs (Brain.p_petId p) (runnerId c));
      [inv_M E; cbn; discriminate|].
    inv_M E. exact Hm.
  - destruct (autonomous_spec p now (Brain.setT brain (t brain - Brain.p_dt p))
                ds n Hv) as (b2 & n2 & E2 & _ & _ & _ & Hc).
    rewrite E2 in E. injection E as <- <-. cbn [mode Brain.setT] in Hc.
    destruct Hc as [(M & _)|[(_ & M & _)|[(_ & M & _)|[(_ & M & _)
                   |[(_ & M & _)|[(_ & M & _)|(_ & M & _)]]]]]];
      congruence.
Qed.

(** X17.  After the frame callback of a pet that is not held, a socially
    active pet is in mode socializing, also when it is the chaser or the
    runner of the active episode: in the frame callback the social state
    wins over the chase, the other way round than inside [updateBrain].  If
    before the frame the pet was socializing only while socially active,
    then after the frame it is socializing exactly when it is socially
    active. *)
Theorem frame_social_override (time dt now hoverBaseY : Q) (id : string)
    (camera : Q * Q) (chase : option (ChaseMode Q)) (rugs : list (Q * Q))
    (rt rt' : PetRuntime) (petting petting' : Pet.Petting) (hearts : nat)
    (ds : Draws) (n n' : nat) :
  draws_valid ds -> rt_held rt = false ->
  Pet.frameBrain time dt now hoverBaseY id camera chase rugs rt petting ds n
  = Some ((rt', petting', hearts), n') ->
  (active (rt_social rt') = true -> mode (rt_brain rt') = socializing) /\
  ((mode (rt_brain rt) = socializing -> active (rt_social rt) = true) ->
   mode (rt_brain rt') = socializing -> active (rt_social rt') = true).
Proof.
  intros Hv Hh E. unfold Pet.frameBrain in E.
  destruct (socialExpiry_held time rt) as (E1 & E2 & E3 & _).
  apply bind_Some in E as (lv & n0 & _ & E).
  rewrite E1, Hh in E.
  apply bind_Some in E as (B1 & n1 & EB & E). inv_M E. cbn.
  split.
  - intros ->. reflexivity.
  - intros Hinv Hm.
    destruct (active (rt_social (Pet.socialExpiry time rt))) eqn:Hact;
      [reflexivity|].
    exfalso. revert Hm.
    eapply (updateBrain_not_socializing _ _ _ _ _ _ _ Hv); [| |exact EB|].
    + reflexivity.
    + reflexivity.
    + (* the brain handed to [updateBrain] is not socializing *)
      assert (Hpre : mode (rt_brain (Pet.socialExpiry time rt)) <> socializing).
      { clear EB. revert Hact. unfold Pet.socialExpiry, Social.updateSocialState.
        rewrite Hh.
        destruct (active (rt_social rt)) eqn:Ha; cbn [andb].
        - destruct (Qgtb time (until (rt_social rt))); cbn.
          + intros _.
            destruct (Mode_eqb (mode (rt_brain rt)) socializing) eqn:Em; cbn.
            * discriminate.
            * intro Hc. rewrite Hc in Em. discriminate Em.
          + rewrite Ha. discriminate.
        - cbn. intros _ Hc. specialize (Hinv Hc). congruence. }
      destruct (chaseInfluence_mode time hoverBaseY id chase false
                  (rt_brain (Pet.socialExpiry time rt))) as [M|[M|M]];
        rewrite M; [exact Hpre | discriminate | discriminate].
Qed.

Lemma frame_social_override_witness :
  exists rt' petting' hearts n',
    Pet.frameBrain 1 (1 # 60) 1000 BASE_Y "pet_a" (0, 0)
      (Some (chaseModeRef Scene.duringChase)) Scene.rugs
      (PetAPI.setSocial true 2 (Some "pet_b") None (Scene.mounted 0 0 "cat"))
      Scene.lovedPet (constDraws (1 # 2)) 0%nat
    = Some ((rt', petting', hearts), n') /\
    mode (rt_brain rt') = socializing.
Proof.
  assert (Hv : draws_valid (constDraws (1 # 2)))
    by (apply constDraws_valid; unfold Qle, Qlt; simpl; lia).
  eexists. eexists. eexists. eexists. split; [vm_compute; reflexivity|].
  refine (proj1 (frame_social_override 1 (1 # 60) 1000 BASE_Y "pet_a" (0, 0)
                   (Some (chaseModeRef Scene.duringChase)) Scene.rugs
                   (PetAPI.setSocial true 2 (Some "pet_b") None
                      (Scene.mounted 0 0 "cat"))
                   _ Scene.lovedPet _ _ (constDraws (1 # 2)) 0 _ Hv eq_refl _) _).
  - vm_compute. reflexivity.
  - reflexivity.
Defined.

(** ** Petting ([onPetMove] and the love decay of [Pet.jsx]) *)

Lemma clamp_unit (v : Q) : 0 <= Utils.clamp v 0 1 /\ Utils.clamp v 0 1 <= 1.
Proof.
  unfold Utils.clamp. split.
  - apply Q.le_max_l.
  - apply Q.max_lub; [unfold Qle; simpl; lia | apply Q.le_min_l].
Qed.

(** One pointer move over a pet that is not held, with the flip
    counter below 3 as every move leaves it: the counter stays in
    [[0, 3)] and [lastX] is the pointer position.  Either nothing else
    happens to love, brain and hearts, or this move is the third flip (the
    counter was 2, the direction is not zero and is opposite to the last
    one): then the counter is reset, love is raised by 0.22 and capped at 1,
    one heart is emitted and the interaction time is set.  A move over a
    held pet changes nothing. *)
Theorem rub_raises_love_on_third_flip (localX now : Q) (p : Pet.Petting)
    (b : BrainState Q) :
  (0 <= Pet.flips p < 3)%Z ->
  Pet.onPetMove true localX now p b = (p, b, 0%nat) /\
  (0 <= Pet.flips (fst (fst (Pet.onPetMove false localX now p b))) < 3)%Z /\
  Pet.lastX (fst (fst (Pet.onPetMove false localX now p b))) = localX /\
  Pet.emitT (fst (fst (Pet.onPetMove false localX now p b))) = Pet.emitT p /\
  ((snd (Pet.onPetMove false localX now p b) = 0%nat /\
    Pet.love (fst (fst (Pet.onPetMove false localX now p b))) = Pet.love p /\
    snd (fst (Pet.onPetMove false localX now p b)) = b) \/
   (snd (Pet.onPetMove false localX now p b) = 1%nat /\
    Pet.flips p = 2%Z /\
    Pet.moveDir (localX - Pet.lastX p) <> 0%Z /\ Pet.lastDir p <> 0%Z /\
    Pet.moveDir (localX - Pet.lastX p) <> Pet.lastDir p /\
    Pet.flips (fst (fst (Pet.onPetMove false localX now p b))) = 0%Z /\
    Pet.love (fst (fst (Pet.onPetMove false localX now p b)))
    = Utils.clamp (Pet.love p + (22 # 100)) 0 1 /\
    snd (fst (Pet.onPetMove false localX now p b)) = Pet.touch b now)).
Proof.
  intro Hf. split; [reflexivity|]. unfold Pet.onPetMove.
  set (dir := Pet.moveDir (localX - Pet.lastX p)).
  destruct (dir =? 0)%Z eqn:Ed; cbn [negb andb].
  - replace (3 <=? Pet.flips p)%Z with false by (symmetry; apply Z.leb_gt; lia).
    cbn. repeat split; try lia. left. auto.
  - destruct (Pet.lastDir p =? 0)%Z eqn:El; cbn [negb andb].
    + replace (3 <=? Pet.flips p)%Z with false by (symmetry; apply Z.leb_gt; lia).
      cbn. repeat split; try lia. left. auto.
    + destruct (dir =? Pet.lastDir p)%Z eqn:Es; cbn [negb].
      * replace (3 <=? Pet.flips p)%Z with false
          by (symmetry; apply Z.leb_gt; lia).
        cbn. repeat split; try lia. left. auto.
      * destruct (3 <=? Pet.flips p + 1)%Z eqn:E3.
        -- apply Z.leb_le in E3. cbn. repeat split; try lia.
           right. apply Z.eqb_neq in Ed, El, Es. repeat split; auto. lia.
        -- apply Z.leb_gt in E3. cbn. repeat split; try lia. left. auto.
Qed.

Lemma rub_raises_love_on_third_flip_witness :
  Pet.love (fst (fst (Pet.onPetMove false 1 5000
                        {| Pet.lastX := 0; Pet.lastDir := (-1); Pet.flips := 2;
                           Pet.love := 0; Pet.emitT := 0 |}
                        (Scene.brainIn wandering 0))))
  = Utils.clamp (0 + (22 # 100)) 0 1.
Proof.
  destruct (rub_raises_love_on_third_flip 1 5000
              {| Pet.lastX := 0; Pet.lastDir := (-1); Pet.flips := 2;
                 Pet.love := 0; Pet.emitT := 0 |}
              (Scene.brainIn wandering 0))
    as (_ & _ & _ & _ & [(H & _)|(_ & _ & _ & _ & _ & _ & H & _)]).
  - cbn. lia.
  - vm_compute in H. discriminate H.
  - exact H.
Defined.

(** The pointer moves a petting state still needs before love can rise:
    three flips less the flips counted, and one more move to set a first
    direction. *)
Lemma rub_step_need (localX now : Q) (p : Pet.Petting) (b : BrainState Q) :
  (0 <= Pet.flips p)%Z ->
  (1 < 3 - Pet.flips p + (if (Pet.lastDir p =? 0)%Z then 1 else 0))%Z ->
  Pet.love (fst (fst (Pet.onPetMove false localX now p b))) = Pet.love p /\
  snd (fst (Pet.onPetMove false localX now p b)) = b /\
  (0 <= Pet.flips (fst (fst (Pet.onPetMove false localX now p b))))%Z /\
  (3 - Pet.flips p + (if (Pet.lastDir p =? 0)%Z then 1 else 0) - 1
   <= 3 - Pet.flips (fst (fst (Pet.onPetMove false localX now p b)))
      + (if (Pet.lastDir (fst (fst (Pet.onPetMove false localX now p b))) =? 0)%Z
         then 1 else 0))%Z.
Proof.
  intros Hf Hneed. unfold Pet.onPetMove.
  set (dir := Pet.moveDir (localX - Pet.lastX p)).
  destruct (dir =? 0)%Z eqn:Ed; cbn [negb andb].
  - replace (3 <=? Pet.flips p)%Z with false
      by (symmetry; apply Z.leb_gt; destruct (Pet.lastDir p =? 0)%Z; lia).
    cbn. repeat split; try lia.
  - destruct (Pet.lastDir p =? 0)%Z eqn:El; cbn [negb andb].
    + replace (3 <=? Pet.flips p)%Z with false by (symmetry; apply Z.leb_gt; lia).
      cbn. rewrite Ed. repeat split; lia.
    + destruct (dir =? Pet.lastDir p)%Z eqn:Es; cbn [negb].
      * replace (3 <=? Pet.flips p)%Z with false
          by (symmetry; apply Z.leb_gt; lia).
        cbn. rewrite Ed. repeat split; lia.
      * replace (3 <=? Pet.flips p + 1)%Z with false
          by (symmetry; apply Z.leb_gt; lia).
        cbn. rewrite Ed. repeat split; lia.
Qed.

(** X18.  The rub debounce.  Love is not raised by a run of pointer moves
    shorter than the moves still needed: three flips less the flips already
    counted, and one more move if no direction has been seen yet.  From the
    initial petting state (no flip, no direction) no three moves raise
    love. *)
Theorem rub_debounce (evs : list Pet.PettingEvent) (p : Pet.Petting)
    (b : BrainState Q) (ds : Draws) (n : nat) :
  Forall (fun ev => exists localX now, ev = Pet.Rub false localX now) evs ->
  (0 <= Pet.flips p)%Z ->
  (Z.of_nat (List.length evs)
   < 3 - Pet.flips p + (if (Pet.lastDir p =? 0)%Z then 1 else 0))%Z ->
  exists p',
    Pet.pettingRun evs p b ds n = Some ((p', b), n) /\
    Pet.love p' = Pet.love p.
Proof.
  revert p. induction evs as [|ev rest IH]; intros p Hall Hf Hlen.
  - exists p. split; reflexivity.
  - inversion Hall as [|e es (localX & now & ->) Hrest]; subst.
    cbn [List.length] in Hlen. cbn [Pet.pettingRun].
    destruct (rub_step_need localX now p b Hf) as (L & B & F & N); [lia|].
    rewrite B.
    destruct (IH (fst (fst (Pet.onPetMove false localX now p b))) Hrest F)
      as (p' & E & L'); [lia|].
    exists p'. split; [exact E | congruence].
Qed.

Lemma rub_debounce_witness :
  exists p',
    Pet.pettingRun [Pet.Rub false 1 0; Pet.Rub false 0 0; Pet.Rub false 1 0]
      {| Pet.lastX := 0; Pet.lastDir := 0; Pet.flips := 0; Pet.love := 0;
         Pet.emitT := 0 |}
      (Scene.brainIn wandering 0) (constDraws (1 # 2)) 0%nat
    = Some ((p', Scene.brainIn wandering 0), 0%nat) /\
    Pet.love p' = 0.
Proof.
  apply (rub_debounce
           [Pet.Rub false 1 0; Pet.Rub false 0 0; Pet.Rub false 1 0]
           {| Pet.lastX := 0; Pet.lastDir := 0; Pet.flips := 0; Pet.love := 0;
              Pet.emitT := 0 |}).
  - repeat constructor; eexists; eexists; reflexivity.
  - cbn. lia.
  - cbn. lia.
Defined.

(** Evaluates the integer tests of [onPetMove] once the direction of the
    move is known. *)
Ltac petting_step :=
  lazy beta iota delta
    [Z.eqb Z.leb Z.compare Z.add Pos.add Pos.compare Pos.compare_cont Pos.succ
     Z.pos_sub Z.opp CompOpp negb andb fst snd
     Pet.lastX Pet.lastDir Pet.flips Pet.love Pet.emitT].

(** X19.  Four pointer moves that alternate by more than 0.003, starting
    from the initial petting state of a pet that is not held, raise love by
    0.22 (capped at 1), emit the heart of the rub and record the interaction:
    the bound of the debounce is tight. *)
Theorem four_strokes_raise_love (x0 a now : Q) (p : Pet.Petting)
    (b : BrainState Q) (ds : Draws) (n : nat) :
  3 # 1000 < a -> Pet.lastX p == x0 -> Pet.lastDir p = 0%Z ->
  Pet.flips p = 0%Z ->
  exists p',
    Pet.pettingRun [Pet.Rub false (x0 + a) now; Pet.Rub false x0 now;
                    Pet.Rub false (x0 + a) now; Pet.Rub false x0 now]
      p b ds n = Some ((p', Pet.touch b now), n) /\
    Pet.love p' = Utils.clamp (Pet.love p + (22 # 100)) 0 1 /\
    Pet.flips p' = 0%Z.
Proof.
  intros Ha Hx Hd Hf.
  assert (Eup : forall y, y == x0 -> Pet.moveDir (x0 + a - y) = 1%Z).
  { intros y Hy. unfold Pet.moveDir.
    replace (Qgtb (x0 + a - y) (3 # 1000)) with true; [reflexivity|].
    symmetry. apply Qltb_lt. lra. }
  assert (Edown : Pet.moveDir (x0 - (x0 + a)) = (-1)%Z).
  { unfold Pet.moveDir.
    replace (Qgtb (x0 - (x0 + a)) (3 # 1000)) with false
      by (symmetry; apply Qltb_ge; lra).
    replace (Qltb (x0 - (x0 + a)) (- (3 # 1000))) with true; [reflexivity|].
    symmetry. apply Qltb_lt. lra. }
  destruct p as [lx ld fl lv et]. cbn in Hx, Hd, Hf. subst ld fl.
  eexists. cbn [Pet.pettingRun]. unfold Pet.onPetMove.
  cbn [Pet.lastX Pet.lastDir Pet.flips Pet.love Pet.emitT fst snd].
  rewrite (Eup lx Hx). petting_step.
  rewrite Edown. petting_step.
  rewrite (Eup x0) by reflexivity. petting_step.
  rewrite Edown. petting_step.
  split; [reflexivity|]. split; reflexivity.
Qed.

Lemma four_strokes_raise_love_witness :
  exists p',
    Pet.pettingRun [Pet.Rub false (0 + 1) 0; Pet.Rub false 0 0;
                    Pet.Rub false (0 + 1) 0; Pet.Rub false 0 0]
      {| Pet.lastX := 0; Pet.lastDir := 0; Pet.flips := 0; Pet.love := 0;
         Pet.emitT := 0 |}
      (Scene.brainIn wandering 0) (constDraws (1 # 2)) 0%nat
    = Some ((p', Pet.touch (Scene.brainIn wandering 0) 0), 0%nat) /\
    Pet.love p' = Utils.clamp (0 + (22 # 100)) 0 1 /\
    Pet.flips p' = 0%Z.
Proof.
  apply (four_strokes_raise_love 0 1 0
           {| Pet.lastX := 0; Pet.lastDir := 0; Pet.flips := 0; Pet.love := 0;
              Pet.emitT := 0 |}).
  - unfold Qlt; simpl; lia.
  - reflexivity.
  - reflexivity.
  - reflexivity.
Defined.

Lemma onPetMove_love (isHeld : bool) (localX now : Q) (p : Pet.Petting)
    (b : BrainState Q) :
  Pet.love (fst (fst (Pet.onPetMove isHeld localX now p b))) = Pet.love p \/
  Pet.love (fst (fst (Pet.onPetMove isHeld localX now p b)))
  = Utils.clamp (Pet.love p + (22 # 100)) 0 1.
Proof.
  unfold Pet.onPetMove. destruct isHeld; [left; reflexivity|].
  destruct (3 <=? _)%Z; [right | left]; reflexivity.
Qed.

(** X20.  Love stays in [[0, 1]]: over every run of frames (with
    non-negative frame times) and pointer moves, in any order, a love that
    starts in [[0, 1]] ends in [[0, 1]], and the run always returns. *)
Theorem love_stays_in_unit_interval (evs : list Pet.PettingEvent)
    (p : Pet.Petting) (b : BrainState Q) (ds : Draws) (n : nat) :
  Forall (fun ev => match ev with
                    | Pet.Decay dt => 0 <= dt
                    | Pet.Rub _ _ _ => True
                    end) evs ->
  0 <= Pet.love p -> Pet.love p <= 1 ->
  exists p' b' n',
    Pet.pettingRun evs p b ds n = Some ((p', b'), n') /\
    0 <= Pet.love p' /\ Pet.love p' <= 1.
Proof.
  revert p b n. induction evs as [|ev rest IH]; intros p b n Hall H0 H1.
  - exists p, b, n. split; [reflexivity|]. auto.
  - inversion Hall as [|e es Hev Hrest]; subst. destruct ev as [dt|h x now].
    + destruct (loveDecay_love dt p ds n) as (r & n1 & E & L).
      destruct (IH (fst r) b n1 Hrest) as (p' & b' & n' & E' & L0 & L1).
      * rewrite L. apply Q.le_max_l.
      * rewrite L. apply Q.max_lub; [lra|].
        assert (0 <= dt * Pet.decayRate) by (unfold Pet.decayRate; nra). lra.
      * exists p', b', n'. cbn [Pet.pettingRun]. unfold bind at 1. rewrite E.
        destruct r as [p1 h1]. split; [exact E'|]. auto.
    + cbn [Pet.pettingRun].
      destruct (IH (fst (fst (Pet.onPetMove h x now p b)))
                   (snd (fst (Pet.onPetMove h x now p b))) n Hrest)
        as (p' & b' & n' & E' & L0 & L1).
      * destruct (onPetMove_love h x now p b) as [-> | ->];
          [exact H0 | apply clamp_unit].
      * destruct (onPetMove_love h x now p b) as [-> | ->];
          [exact H1 | apply clamp_unit].
      * exists p', b', n'. split; [exact E'|]. auto.
Qed.

Lemma love_stays_in_unit_interval_witness :
  exists p' b' n',
    Pet.pettingRun [Pet.Decay (1 # 60); Pet.Rub false 1 0] Scene.lovedPet
      (Scene.brainIn wandering 0) (constDraws (1 # 2)) 0%nat
    = Some ((p', b'), n') /\
    0 <= Pet.love p' /\ Pet.love p' <= 1.
Proof.
  apply love_stays_in_unit_interval.
  - repeat constructor. unfold Qle; simpl; lia.
  - unfold Qle; simpl; lia.
  - unfold Qle; simpl; lia.
Defined.

(** Hearts of the love decay.  A frame emits at most one heart; it
    emits one only when the decayed love is above 0.2 and the emission timer
    has run out, and the timer is then set to a value in [[0.14, 0.22)] from
    one draw.  A frame that emits no heart reads no draw, and with the
    decayed love at or below 0.2 the timer does not run. *)
Theorem love_decay_hearts (dt : Q) (p : Pet.Petting) (ds : Draws) (n : nat) :
  draws_valid ds ->
  exists p' h n',
    Pet.loveDecay dt p ds n = Some ((p', h), n') /\
    (h <= 1)%nat /\
    (h = 1%nat ->
     2 # 10 < Pet.love p' /\ Pet.emitT p - dt <= 0 /\
     14 # 100 <= Pet.emitT p' /\ Pet.emitT p' < 22 # 100 /\ n' = S n) /\
    (h = 0%nat -> n' = n) /\
    (Pet.love p' <= 2 # 10 -> h = 0%nat /\ Pet.emitT p' = Pet.emitT p).
Proof.
  intro Hv. unfold Pet.loveDecay.
  destruct (Qgtb (Qmax 0 (Pet.love p - dt * Pet.decayRate)) (2 # 10)) eqn:El.
  - apply Qltb_lt in El.
    destruct (Qle_bool (Pet.emitT p - dt) 0) eqn:Ee.
    + apply Qle_bool_iff in Ee. destruct (Hv n) as [H0 H1].
      eexists. exists 1%nat, (S n). split; [reflexivity|]. cbn.
      split; [lia|]. split.
      * intros _. unfold Utils.lerp. repeat split; try assumption; lra.
      * split; [discriminate|]. intro Hc. exfalso. lra.
    + eexists. exists 0%nat, n. split; [reflexivity|]. cbn.
      split; [lia|]. split; [discriminate|]. split; [reflexivity|].
      intro Hc. exfalso. lra.
  - eexists. exists 0%nat, n. split; [reflexivity|]. cbn.
    split; [lia|]. split; [discriminate|]. split; [reflexivity|].
    intros _. split; reflexivity.
Qed.

Lemma love_decay_hearts_witness :
  exists p' h n',
    Pet.loveDecay (1 # 60) Scene.lovedPet (constDraws (1 # 2)) 0%nat
    = Some ((p', h), n') /\
    (h <= 1)%nat /\
    (h = 1%nat ->
     2 # 10 < Pet.love p' /\ Pet.emitT Scene.lovedPet - (1 # 60) <= 0 /\
     14 # 100 <= Pet.emitT p' /\ Pet.emitT p' < 22 # 100 /\ n' = 1%nat) /\
    (h = 0%nat -> n' = 0%nat) /\
    (Pet.love p' <= 2 # 10 -> h = 0%nat /\ Pet.emitT p' = Pet.emitT Scene.lovedPet).
Proof.
  apply love_decay_hearts.
  apply constDraws_valid; unfold Qle, Qlt; simpl; lia.
Defined.

(** ** The coordinator ([PetManager] of [GardenPets.jsx]) *)

Lemma snapshot_fold_unregistered (apis : gmap string PetRuntime) (id : string)
    (arr : list PetEntry) :
  apis !! id = None ->
  forall m : gmap string Pose,
    foldl (fun m p =>
             match apis !! pet_id p with
             | Some rt => <[pet_id p := PetAPI.getPose rt]> m
             | None => m
             end) m arr !! id = m !! id.
Proof.
  intro Hnone. induction arr as [|p rest IH]; intro m; simpl; [reflexivity|].
  rewrite IH. destruct (apis !! pet_id p) eqn:E; [|reflexivity].
  apply lookup_insert_ne. intro Heq. rewrite Heq in E. congruence.
Qed.

(** X21.  Bookkeeping of a frame of the coordinator.  Every frame that
    returns advances the frame counter by one and keeps the roster.  The
    snapshot it leaves is taken from the poses at the start of the frame: it
    has the pose of every roster pet that has registered, and no entry for
    an id outside the roster or without a registered pet. *)
Theorem managerFrame_bookkeeping (time : Q) (rugs : list (Q * Q))
    (w w' : World) (ds : Draws) (n n' : nat) :
  Manager.managerFrame time rugs w ds n = Some (w', n') ->
  frameCounter w' = (frameCounter w + 1)%Z /\ petsRef w' = petsRef w /\
  forall id,
    posMapRef w' !! id
    = if in_dec string_dec id (List.map pet_id (petsRef w))
      then PetAPI.getPose <$> apiRef w !! id else None.
Proof.
  intro H.
  assert (Hw : frameCounter w' = (frameCounter w + 1)%Z /\
               petsRef w' = petsRef w /\
               posMapRef w' = Manager.snapshot (petsRef w) (apiRef w)).
  { apply managerFrame_cases in H as (chase & n1 & w1 & _ & Ew1 & [[-> ->]|H]).
    - subst w1. auto.
    - destruct H as (_ & _ & Hscan).
      apply scanPairs_frame in Hscan as (_ & E2 & E3 & E4).
      subst w1. cbn in E2, E3, E4. auto. }
  destruct Hw as (H1 & H2 & H3). split; [exact H1|]. split; [exact H2|].
  intro id. rewrite H3. unfold Manager.snapshot.
  destruct (in_dec string_dec id (List.map pet_id (petsRef w))) as [Hin|Hnot].
  - destruct (apiRef w !! id) as [rt|] eqn:E.
    + apply snapshot_fold_in; assumption.
    + rewrite snapshot_fold_unregistered by exact E. apply lookup_empty.
  - rewrite snapshot_fold_notin by exact Hnot. apply lookup_empty.
Qed.

Lemma managerFrame_bookkeeping_witness :
  frameCounter (fst Scene.afterDuringChase) = (frameCounter Scene.duringChase + 1)%Z.
Proof.
  apply (managerFrame_bookkeeping 10 Scene.rugs Scene.duringChase
           (fst Scene.afterDuringChase) (constDraws (1 # 2)) 0
           (snd Scene.afterDuringChase)).
  vm_compute. reflexivity.
Defined.

(** No greet outside the scan.  In a frame whose incremented counter is
    not a multiple of 30, or whose roster has fewer than two pets, the
    coordinator writes no social state, no cooldown, no greet and no sleep
    spot: the registered pets, the cooldown map, the greet log and the
    sleep-spot hint are as before. *)
Theorem no_greet_outside_scan (time : Q) (rugs : list (Q * Q))
    (w w' : World) (ds : Draws) (n n' : nat) :
  Z.rem (frameCounter w + 1) SOCIAL_CHECK_EVERY_FRAMES <> 0%Z \/
  (List.length (petsRef w) < 2)%nat ->
  Manager.managerFrame time rugs w ds n = Some (w', n') ->
  apiRef w' = apiRef w /\ pairCooldown w' = pairCooldown w /\
  greets w' = greets w /\ lastSleepSpotRef w' = lastSleepSpotRef w.
Proof.
  intros Hskip H.
  apply managerFrame_cases in H as (chase & n1 & w1 & _ & Ew1 & [[-> ->]|H]).
  - subst w1. auto.
  - destruct H as (Hrem & Hlen & _). destruct Hskip as [Hs|Hs]; [contradiction | lia].
Qed.

Lemma no_greet_outside_scan_witness :
  exists w' n',
    Manager.managerFrame 10 Scene.rugs (fst Scene.afterGreet)
      (constDraws (1 # 2)) 0%nat = Some (w', n') /\
    greets w' = greets (fst Scene.afterGreet).
Proof.
  eexists. eexists. split; [vm_compute; reflexivity|].
  eapply (no_greet_outside_scan 10 Scene.rugs (fst Scene.afterGreet) _
            (constDraws (1 # 2)) 0 _).
  - left. vm_compute. discriminate.
  - vm_compute. reflexivity.
Defined.

(** What one run of the pair-loop body does to the cooldown map and the
    greet log. *)
Lemma greetPair_log (time : Q) (rugs : list (Q * Q)) (a b : PetEntry)
    (w w' : World) (ds : Draws) (n n' : nat) :
  Manager.greetPair time rugs a b w ds n = Some (w', n') ->
  (pairCooldown w' = pairCooldown w /\ greets w' = greets w) \/
  (exists pa pb,
      posMapRef w !! pet_id a = Some pa /\ posMapRef w !! pet_id b = Some pb /\
      Manager.withinGreetDistance pa pb = true /\
      Manager.chaseInvolved (chaseModeRef w) (pet_id a) = false /\
      Manager.chaseInvolved (chaseModeRef w) (pet_id b) = false /\
      Manager.cooldownUntil (pairCooldown w)
        (Manager.pairKey (pet_id a) (pet_id b)) <= time /\
      pairCooldown w'
      = <[Manager.pairKey (pet_id a) (pet_id b) := time + SOCIAL_COOLDOWN_S]>
          (pairCooldown w) /\
      greets w' = (greets w ++ [greetEventOf time a b pa pb])%list).
Proof.
  intro H. apply greetPair_cases in H as [[-> ->]|H]; [left; auto|].
  destruct H as (pa & pb & r & n1 & _ & _ & PA & PB & CA & CB & CD & WD & _ & Hc).
  apply cuddle_frame in Hc as (_ & Ecd & Egr & _).
  right. exists pa, pb. apply Qltb_ge in CD.
  repeat split; try assumption.
Qed.

(** X22.  Cooldowns only grow.  A frame of the coordinator never lowers the
    time until which a pair is blocked: for every key the entry after the
    frame (0 when there is none) is at least the entry before it. *)
Theorem cooldown_never_decreases (time : Q) (rugs : list (Q * Q))
    (w w' : World) (ds : Draws) (n n' : nat) (key : string) :
  Manager.managerFrame time rugs w ds n = Some (w', n') ->
  Manager.cooldownUntil (pairCooldown w) key
  <= Manager.cooldownUntil (pairCooldown w') key.
Proof.
  intro H.
  assert (Hscan : forall ps (w0 w1 : World) (k k' : nat),
             Manager.scanPairs time rugs ps w0 ds k = Some (w1, k') ->
             Manager.cooldownUntil (pairCooldown w0) key
             <= Manager.cooldownUntil (pairCooldown w1) key).
  { induction ps as [|[a b] rest IH]; intros w0 w1 k k' Hs; simpl in Hs.
    - inv_M Hs. apply Qle_refl.
    - apply bind_Some in Hs as (w2 & k2 & H1 & H2).
      eapply Qle_trans; [|eapply IH; exact H2].
      apply greetPair_log in H1 as [[-> _]|H1]; [apply Qle_refl|].
      destruct H1 as (pa & pb & _ & _ & _ & _ & _ & CD & -> & _).
      rewrite cooldownUntil_insert. destruct (decide _) as [<-|_];
        [|apply Qle_refl].
      unfold SOCIAL_COOLDOWN_S. lra. }
  apply managerFrame_cases in H as (chase & n1 & w1 & _ & Ew1 & [[-> ->]|H]).
  - subst w1. apply Qle_refl.
  - destruct H as (_ & _ & Hs). apply Hscan in Hs. subst w1. exact Hs.
Qed.

Lemma cooldown_never_decreases_witness :
  Manager.cooldownUntil (pairCooldown Scene.beforeScan) "pet_a|pet_b"
  <= Manager.cooldownUntil
       (pairCooldown
          (fst (runOr (Manager.managerFrame 10 Scene.rugs Scene.beforeScan)
                  (constDraws (1 # 2)) 0 Scene.beforeScan))) "pet_a|pet_b".
Proof.
  apply (cooldown_never_decreases 10 Scene.rugs Scene.beforeScan _
           (constDraws (1 # 2)) 0
           (snd (runOr (Manager.managerFrame 10 Scene.rugs Scene.beforeScan)
                   (constDraws (1 # 2)) 0 Scene.beforeScan))).
  vm_compute. reflexivity.
Defined.

(** X23.  Every greet is justified.  The greet log only grows, and every
    greet a frame adds carries the frame's time and is between the two pets
    of a roster pair that the frame's snapshot has within greet distance and
    that are neither chaser nor runner of the frame's chase episode; the
    hearts are placed at the midpoint of the two snapshot poses. *)
Theorem greets_are_justified (time : Q) (rugs : list (Q * Q))
    (w w' : World) (ds : Draws) (n n' : nat) :
  Manager.managerFrame time rugs w ds n = Some (w', n') ->
  exists new,
    greets w' = (greets w ++ new)%list /\
    forall e, In e new ->
      greetAllowed time (Manager.pairsOf (petsRef w)) (posMapRef w')
        (chaseModeRef w') e.
Proof.
  intro H.
  assert (Hscan : forall ps (w0 w1 : World) (k k' : nat),
             Manager.scanPairs time rugs ps w0 ds k = Some (w1, k') ->
             exists new,
               greets w1 = (greets w0 ++ new)%list /\
               forall e, In e new ->
                 greetAllowed time ps (posMapRef w0) (chaseModeRef w0) e).
  { induction ps as [|[a b] rest IH]; intros w0 w1 k k' Hs; simpl in Hs.
    - inv_M Hs. exists []. split; [symmetry; apply app_nil_r|]. intros e [].
    - apply bind_Some in Hs as (w2 & k2 & H1 & H2).
      pose proof (greetPair_frame _ _ _ _ _ _ _ _ _ H1) as (Ec & _ & Ep & _).
      apply IH in H2 as (new2 & E2 & Hn2).
      assert (Hweak : forall e, In e new2 ->
                greetAllowed time ((a, b) :: rest) (posMapRef w0)
                  (chaseModeRef w0) e).
      { intros e He. destruct (Hn2 e He)
          as (a' & b' & pa & pb & Hin & Ee & P1 & P2 & WD & C1 & C2).
        exists a', b', pa, pb. rewrite <- Ep, <- Ec.
        repeat split; try assumption. right. exact Hin. }
      apply greetPair_log in H1 as [[_ Eg]|H1].
      + exists new2. split; [congruence | exact Hweak].
      + destruct H1 as (pa & pb & P1 & P2 & WD & C1 & C2 & _ & _ & Eg).
        exists (greetEventOf time a b pa pb :: new2). split.
        * rewrite E2, Eg, <- app_assoc. reflexivity.
        * intros e [<-|He]; [|apply Hweak; exact He].
          exists a, b, pa, pb. repeat split; try assumption. left. reflexivity. }
  apply managerFrame_cases in H as (chase & n1 & w1 & _ & Ew1 & [[-> ->]|H]).
  - subst w1. exists []. split; [symmetry; apply app_nil_r|]. intros e [].
  - destruct H as (_ & _ & Hs).
    pose proof (scanPairs_frame _ _ _ _ _ _ _ _ Hs) as (Ec & _ & Ep & _).
    apply Hscan in Hs as (new & Eg & Hn). subst w1. cbn in *.
    exists new. split; [exact Eg|]. rewrite Ec, Ep. exact Hn.
Qed.

Lemma greets_are_justified_witness :
  exists new,
    greets (fst (runOr (Manager.managerFrame 10 Scene.rugs Scene.beforeScan)
                   (constDraws (1 # 2)) 0 Scene.beforeScan))
    = (greets Scene.beforeScan ++ new)%list /\
    forall e, In e new ->
      greetAllowed 10 (Manager.pairsOf (petsRef Scene.beforeScan))
        (posMapRef (fst (runOr (Manager.managerFrame 10 Scene.rugs Scene.beforeScan)
                           (constDraws (1 # 2)) 0 Scene.beforeScan)))
        (chaseModeRef (fst (runOr (Manager.managerFrame 10 Scene.rugs Scene.beforeScan)
                              (constDraws (1 # 2)) 0 Scene.beforeScan))) e.
Proof.
  apply (greets_are_justified 10 Scene.rugs Scene.beforeScan _
           (constDraws (1 # 2)) 0
           (snd (runOr (Manager.managerFrame 10 Scene.rugs Scene.beforeScan)
                   (constDraws (1 # 2)) 0 Scene.beforeScan))).
  vm_compute. reflexivity.
Defined.

Lemma manager_redraw_In (k : nat) (arr : list PetEntry) (a : PetEntry)
    (ds : Draws) :
  draws_valid ds -> arr <> [] ->
  forall (b b' : PetEntry) (n n' : nat),
    In b arr -> Manager.redraw k arr a b ds n = Some (b', n') -> In b' arr.
Proof.
  intros Hv Hne. induction k as [|k IH]; intros b b' n n' Hb H; simpl in H.
  - inv_M H. exact Hb.
  - destruct (String.eqb (pet_id b) (pet_id a)); [|inv_M H; exact Hb].
    destruct (manager_pick_Some arr ds n Hv Hne) as (x & E & Hx).
    unfold bind at 1 in H. rewrite E in H. unfold bind at 1 in H.
    cbn [defined] in H. unfold ret at 1 in H.
    eapply IH; [exact Hx | exact H].
Qed.

(** The chase block keeps the chase mode well formed as the clock
    advances. *)
Lemma chaseStep_wellformed (time t0 : Q) (arr : list PetEntry)
    (posMap : gmap string Pose) (c c' : ChaseMode Q) (ds : Draws) (n n' : nat) :
  draws_valid ds -> t0 <= time -> chaseWellFormed arr t0 c ->
  Manager.chaseStep time arr posMap c ds n = Some (c', n') ->
  chaseWellFormed arr time c'.
Proof.
  intros Hv Ht Hwf H. unfold chaseWellFormed in *. unfold Manager.chaseStep in H.
  destruct (chase_active c) eqn:Hact.
  - destruct Hwf as [Hids Hu].
    destruct (Qgtb time (chase_until c)); inv_M H; cbn.
    + auto.
    + split; [exact Hids | lra].
  - destruct (2 <=? List.length arr)%nat eqn:Hlen.
    2:{ inv_M H. rewrite Hact. exact Hwf. }
    apply Nat.leb_le in Hlen.
    assert (Hne : arr <> []) by (destruct arr; simpl in Hlen; [lia | discriminate]).
    unfold bind at 1 in H. unfold random at 1 in H.
    destruct (Qltb (ds n) _).
    2:{ inv_M H. rewrite Hact. exact Hwf. }
    destruct (manager_pick_Some arr ds (S n) Hv Hne) as (a & Ea & Ha).
    destruct (manager_pick_Some arr ds (S (S n)) Hv Hne) as (b0 & Eb0 & Hb0).
    unfold bind at 1 in H. rewrite Ea in H. unfold bind at 1 in H.
    cbn [defined] in H. unfold ret at 1 in H.
    unfold bind at 1 in H. rewrite Eb0 in H. unfold bind at 1 in H.
    cbn [defined] in H. unfold ret at 1 in H.
    apply bind_Some in H as (b & n1 & Hb & H).
    apply (manager_redraw_In 6 arr a ds Hv Hne) in Hb; [|exact Hb0].
    unfold Utils.randRange in H. inv_M H. cbn.
    destruct (Hv n1) as [H0 H1].
    split; [exists a, b; auto|]. unfold Utils.lerp. lra.
Qed.

Lemma chaseWellFormed_named (roster : list PetEntry) (now : Q) (c : ChaseMode Q) :
  chaseWellFormed roster now c -> chaseNamed now c.
Proof.
  unfold chaseWellFormed, chaseNamed. destruct (chase_active c); [|auto].
  intros [(a & b & _ & _ & Ha & Hb) Hu]. split; [eauto | exact Hu].
Qed.

Lemma chaseNamed_inactive (roster : list PetEntry) (now : Q) (c : ChaseMode Q) :
  chase_active c = false -> chaseNamed now c -> chaseWellFormed roster now c.
Proof.
  unfold chaseWellFormed, chaseNamed. intros ->. auto.
Qed.

(** The chase block keeps every episode named and timed, whatever the
    roster is. *)
Lemma chaseStep_named (time t0 : Q) (arr : list PetEntry)
    (posMap : gmap string Pose) (c c' : ChaseMode Q) (ds : Draws) (n n' : nat) :
  draws_valid ds -> t0 <= time -> chaseNamed t0 c ->
  Manager.chaseStep time arr posMap c ds n = Some (c', n') ->
  chaseNamed time c'.
Proof.
  intros Hv Ht Hnm H.
  destruct (chase_active c) eqn:Hact.
  - unfold chaseNamed in *. unfold Manager.chaseStep in H. rewrite Hact in *.
    destruct Hnm as [Hids Hu].
    destruct (Qgtb time (chase_until c)); inv_M H; cbn.
    + auto.
    + split; [exact Hids | lra].
  - eapply chaseWellFormed_named.
    eapply chaseStep_wellformed; [exact Hv | exact Ht | | exact H].
    apply chaseNamed_inactive; assumption.
Qed.

(** In every reachable state an active episode names a chaser and a runner
    and ends at most 5.2 s from now, and an inactive chase mode names
    nobody. *)
Lemma reachable_chaseNamed (s : Sim.State) :
  Sim.reachable s -> chaseNamed (Sim.clock s) (chaseModeRef (Sim.world s)).
Proof.
  induction 1 as [roster apis _|s dt rugs ds n n' w' Hs IH Hdt Hv Hf
                 |s id rt x z Hs IH Hrt|s roster Hs IH|s id rt Hs IH Hrt].
  - cbn. unfold chaseNamed. cbn. auto.
  - cbn [Sim.world Sim.clock] in *.
    apply managerFrame_cases in Hf as (chase & n1 & w1 & Hc & Ew1 & Hw').
    assert (Hnm : chaseNamed (Sim.clock s + dt) chase).
    { eapply chaseStep_named; [exact Hv| |exact IH|exact Hc]. lra. }
    destruct Hw' as [[-> _]|(_ & _ & Hscan)].
    + subst w1. exact Hnm.
    + apply scanPairs_frame in Hscan as (Ec & _). rewrite Ec.
      subst w1. exact Hnm.
  - exact IH.
  - exact IH.
  - exact IH.
Qed.

(** A frame of the coordinator keeps the chase mode well formed for the
    roster of that frame. *)
Lemma managerFrame_wellformed (time t0 : Q) (rugs : list (Q * Q)) (w w' : World)
    (ds : Draws) (n n' : nat) :
  draws_valid ds -> t0 <= time ->
  chaseWellFormed (petsRef w) t0 (chaseModeRef w) ->
  Manager.managerFrame time rugs w ds n = Some (w', n') ->
  chaseWellFormed (petsRef w') time (chaseModeRef w').
Proof.
  intros Hv Ht Hwf Hf.
  apply managerFrame_cases in Hf as (chase & n1 & w1 & Hc & Ew1 & Hw').
  assert (Hwf' : chaseWellFormed (petsRef w) time chase).
  { eapply chaseStep_wellformed; [exact Hv | exact Ht | exact Hwf | exact Hc]. }
  destruct Hw' as [[-> _]|(_ & _ & Hscan)].
  - subst w1. exact Hwf'.
  - apply scanPairs_frame in Hscan as (Ec & Ep & _). rewrite Ec, Ep.
    subst w1. exact Hwf'.
Qed.

(** X24.  In every reachable state of the simulation (frames of the
    coordinator on draws in [[0, 1)], frames of the pets, pets mounting and
    replacements of the roster in between) an active chase episode names a
    chaser and a runner and ends at most 5.2 s from now, and an inactive
    chase mode has both ids cleared.  That the two are pets of the roster
    holds frame by frame, not across a replacement of the roster: a frame
    of the coordinator that starts with no active episode, or with one whose
    chaser and runner are roster pets, ends with a chase mode that is well
    formed for the roster of that frame; so every episode names two roster
    pets when it starts. *)
Theorem reachable_chase_wellformed (s : Sim.State) :
  Sim.reachable s ->
  chaseNamed (Sim.clock s) (chaseModeRef (Sim.world s)) /\
  forall (dt : Q) (rugs : list (Q * Q)) (ds : Draws) (n n' : nat) (w' : World),
    0 < dt -> draws_valid ds ->
    Manager.managerFrame (Sim.clock s + dt) rugs (Sim.world s) ds n
    = Some (w', n') ->
    chase_active (chaseModeRef (Sim.world s)) = false \/
    chaseWellFormed (petsRef (Sim.world s)) (Sim.clock s)
      (chaseModeRef (Sim.world s)) ->
    chaseWellFormed (petsRef w') (Sim.clock s + dt) (chaseModeRef w').
Proof.
  intro Hs. pose proof (reachable_chaseNamed s Hs) as Hnm.
  split; [exact Hnm|].
  intros dt rugs ds n n' w' Hdt Hv Hf Hpre.
  eapply (managerFrame_wellformed (Sim.clock s + dt) (Sim.clock s));
    [exact Hv | lra | | exact Hf].
  destruct Hpre as [Hoff|Hwf]; [|exact Hwf].
  apply chaseNamed_inactive; assumption.
Qed.

Lemma afterChaseStart_reachable : Sim.reachable Scene.afterChaseStart.
Proof.
  destruct (Sim.runFrames 31 (1 # 60) Scene.rugs Scene.start Scene.chaseDraws 0%nat)
    as [[s n']|] eqn:E.
  - assert (Es : Scene.afterChaseStart = s).
    { unfold Scene.afterChaseStart. rewrite E. reflexivity. }
    rewrite Es.
    eapply (runFrames_reachable 31 (1 # 60) Scene.rugs Scene.chaseDraws);
      [reflexivity | exact chaseDraws_valid | exact start_reachable | exact E].
  - vm_compute in E. discriminate E.
Qed.

Lemma reachable_chase_wellformed_witness :
  chaseNamed (Sim.clock Scene.afterChaseStart)
    (chaseModeRef (Sim.world Scene.afterChaseStart)) /\
  forall (dt : Q) (rugs : list (Q * Q)) (ds : Draws) (n n' : nat) (w' : World),
    0 < dt -> draws_valid ds ->
    Manager.managerFrame (Sim.clock Scene.afterChaseStart + dt) rugs
      (Sim.world Scene.afterChaseStart) ds n = Some (w', n') ->
    chase_active (chaseModeRef (Sim.world Scene.afterChaseStart)) = false \/
    chaseWellFormed (petsRef (Sim.world Scene.afterChaseStart))
      (Sim.clock Scene.afterChaseStart)
      (chaseModeRef (Sim.world Scene.afterChaseStart)) ->
    chaseWellFormed (petsRef w') (Sim.clock Scene.afterChaseStart + dt)
      (chaseModeRef w').
Proof.
  exact (reachable_chase_wellformed Scene.afterChaseStart
           afterChaseStart_reachable).
Defined.

(** The episode of [afterChaseStart] is active, with pet_a and pet_b of the
    roster as chaser and runner. *)
Lemma afterChaseStart_episode :
  chase_active (chaseModeRef (Sim.world Scene.afterChaseStart)) = true /\
  chaseWellFormed (petsRef (Sim.world Scene.afterChaseStart))
    (Sim.clock Scene.afterChaseStart)
    (chaseModeRef (Sim.world Scene.afterChaseStart)).
Proof.
  split; [vm_compute; reflexivity|].
  unfold chaseWellFormed.
  replace (chase_active (chaseModeRef (Sim.world Scene.afterChaseStart)))
    with true by (vm_compute; reflexivity).
  replace (petsRef (Sim.world Scene.afterChaseStart))
    with [Scene.petA; Scene.petB] by (vm_compute; reflexivity).
  split.
  - exists Scene.petA, Scene.petB.
    split; [left; reflexivity|]. split; [right; left; reflexivity|].
    split; vm_compute; reflexivity.
  - vm_compute. discriminate.
Qed.

(** Across a replacement of the roster the membership is lost: after
    [resetPets] the episode is still active and still names pet_a, which
    the new roster does not hold. *)
Lemma reset_leaves_stale_chase :
  Sim.reachable Scene.afterReset /\
  chase_active (chaseModeRef (Sim.world Scene.afterReset)) = true /\
  chaserId (chaseModeRef (Sim.world Scene.afterReset)) = Some "pet_a" /\
  ~ chaseWellFormed (petsRef (Sim.world Scene.afterReset))
      (Sim.clock Scene.afterReset) (chaseModeRef (Sim.world Scene.afterReset)).
Proof.
  split; [|split; [|split]].
  - unfold Scene.afterReset. apply Sim.reach_roster.
    exact afterChaseStart_reachable.
  - vm_compute. reflexivity.
  - vm_compute. reflexivity.
  - unfold chaseWellFormed.
    replace (chase_active (chaseModeRef (Sim.world Scene.afterReset)))
      with true by (vm_compute; reflexivity).
    replace (petsRef (Sim.world Scene.afterReset))
      with [Scene.petC] by reflexivity.
    intros [(a & b & Ha & _ & Ea & _) _].
    destruct Ha as [<-|[]]. vm_compute in Ea. discriminate Ea.
Qed.

(** ** The roster operations of the provider ([PetContext.jsx]) *)

Lemma hasId_other (petId other : string) (p : PetObj) :
  other <> petId -> PetContext.hasId other p = true ->
  PetContext.hasId petId p = false.
Proof.
  unfold PetContext.hasId. intros Hne H.
  destruct (p !! "id") as [[| |s|]|]; try discriminate H.
  apply String.eqb_eq in H. subst s. apply String.eqb_neq. exact Hne.
Qed.

Lemma find_filter_other (petId other : string) (l : list PetObj) :
  other <> petId ->
  List.find (PetContext.hasId other)
    (List.filter (fun p => negb (PetContext.hasId petId p)) l)
  = List.find (PetContext.hasId other) l.
Proof.
  intro Hne. induction l as [|p rest IH]; [reflexivity|]. simpl.
  destruct (PetContext.hasId other p) eqn:Eo.
  - rewrite (hasId_other petId other p Hne Eo). simpl. rewrite Eo. reflexivity.
  - destruct (PetContext.hasId petId p); simpl; [exact IH|].
    rewrite Eo. exact IH.
Qed.

Lemma find_filter_same (petId : string) (l : list PetObj) :
  List.find (PetContext.hasId petId)
    (List.filter (fun p => negb (PetContext.hasId petId p)) l) = None.
Proof.
  induction l as [|p rest IH]; [reflexivity|]. simpl.
  destruct (PetContext.hasId petId p) eqn:E; simpl; [exact IH|].
  rewrite E. exact IH.
Qed.

Lemma unassignGuardian_assignment (petId q : string)
    (r : MemoryRegistry.Registry) :
  MemoryRegistry.assignments (MemoryRegistry.unassignGuardian petId r) !! q
  = if decide (q = petId) then None else MemoryRegistry.assignments r !! q.
Proof.
  unfold MemoryRegistry.unassignGuardian.
  destruct (MemoryRegistry.assignments r !! petId) as [a|] eqn:E; cbn.
  - destruct (decide (q = petId)) as [->|Hne].
    + apply lookup_delete_eq.
    + apply lookup_delete_ne. congruence.
  - destruct (decide (q = petId)) as [->|Hne]; [exact E | reflexivity].
Qed.

Lemma releaseByPet_lookup (petId s : string)
    (spots : gmap string RestSpotRegistry.RestSpot) :
  RestSpotRegistry.releaseByPet petId spots !! s
  = (fun spot => if idIs petId (RestSpotRegistry.spot_occupantId spot)
                 then RestSpotRegistry.setOccupant spot false None else spot)
      <$> spots !! s.
Proof. unfold RestSpotRegistry.releaseByPet. apply lookup_fmap. Qed.

(** X25.  [removePet] cleans up after the pet.  Afterwards no pet of the
    roster has the id, the pet has no guardian assignment, and no rest spot
    names it as occupant (a spot it occupied is free again); the lookups of
    all other pets, the assignments of all other pets and the rest spots of
    other occupants are as before. *)
Theorem removePet_cleans_up (petId : string) (memory : MemoryRegistry.Registry)
    (spots : gmap string RestSpotRegistry.RestSpot) (prev : list PetObj) :
  PetContext.getPet petId (snd (PetContext.removePet petId memory spots prev))
  = None /\
  MemoryRegistry.getAssignment petId
    (fst (fst (PetContext.removePet petId memory spots prev))) = None /\
  (forall s spot,
      snd (fst (PetContext.removePet petId memory spots prev)) !! s = Some spot ->
      RestSpotRegistry.spot_occupantId spot <> Some petId) /\
  (forall other, other <> petId ->
      PetContext.getPet other (snd (PetContext.removePet petId memory spots prev))
      = PetContext.getPet other prev /\
      MemoryRegistry.getAssignment other
        (fst (fst (PetContext.removePet petId memory spots prev)))
      = MemoryRegistry.getAssignment other memory) /\
  (forall s spot,
      spots !! s = Some spot ->
      RestSpotRegistry.spot_occupantId spot <> Some petId ->
      snd (fst (PetContext.removePet petId memory spots prev)) !! s = Some spot).
Proof.
  unfold PetContext.removePet, PetContext.getPet, MemoryRegistry.getAssignment.
  cbn [fst snd]. split; [apply find_filter_same|].
  split.
  { rewrite unassignGuardian_assignment. destruct (decide _); congruence. }
  split.
  { intros s spot. rewrite releaseByPet_lookup.
    destruct (spots !! s) as [spot0|]; [|discriminate]. cbn.
    destruct (idIs petId (RestSpotRegistry.spot_occupantId spot0)) eqn:E.
    - intro H. injection H as <-. cbn. discriminate.
    - intro H. injection H as <-. intro Hc. apply idIs_true in Hc.
      congruence. }
  split.
  { intros other Hne. split; [apply find_filter_other; exact Hne|].
    rewrite unassignGuardian_assignment. destruct (decide _); congruence. }
  intros s spot Hs Hocc. rewrite releaseByPet_lookup, Hs. cbn.
  destruct (idIs petId (RestSpotRegistry.spot_occupantId spot)) eqn:E;
    [|reflexivity].
  apply idIs_true in E. contradiction.
Qed.

Lemma updatePet_cons (petId : string) (patch p : PetObj) (rest : list PetObj) :
  PetContext.updatePet petId patch (p :: rest)
  = if PetContext.hasId petId p then (patch ∪ p) :: rest
    else p :: PetContext.updatePet petId patch rest.
Proof.
  unfold PetContext.updatePet. cbn [PetContext.findIndex].
  destruct (PetContext.hasId petId p); [reflexivity|].
  destruct (PetContext.findIndex petId rest) as [i|]; [|reflexivity].
  cbn. destruct (rest !! i); reflexivity.
Qed.

Lemma hasId_patched (petId : string) (patch old : PetObj) :
  patch !! "id" = None ->
  PetContext.hasId petId (patch ∪ old) = PetContext.hasId petId old.
Proof.
  intro H. unfold PetContext.hasId. rewrite lookup_union_r by exact H.
  reflexivity.
Qed.

Lemma updatePet_length (petId : string) (patch : PetObj) (prev : list PetObj) :
  List.length (PetContext.updatePet petId patch prev) = List.length prev.
Proof.
  induction prev as [|p rest IH]; [reflexivity|]. rewrite updatePet_cons.
  destruct (PetContext.hasId petId p); simpl; congruence.
Qed.

Lemma updatePet_missing (petId : string) (patch : PetObj) (prev : list PetObj) :
  PetContext.getPet petId prev = None ->
  PetContext.updatePet petId patch prev = prev.
Proof.
  unfold PetContext.getPet.
  induction prev as [|p rest IH]; [reflexivity|]. rewrite updatePet_cons. simpl.
  destruct (PetContext.hasId petId p); [discriminate|].
  intro H. rewrite IH by exact H. reflexivity.
Qed.

Lemma updatePet_getPet_same (petId : string) (patch : PetObj)
    (prev : list PetObj) :
  patch !! "id" = None ->
  PetContext.getPet petId (PetContext.updatePet petId patch prev)
  = (fun old => patch ∪ old) <$> PetContext.getPet petId prev.
Proof.
  intro Hp. unfold PetContext.getPet.
  induction prev as [|p rest IH]; [reflexivity|]. rewrite updatePet_cons. simpl.
  destruct (PetContext.hasId petId p) eqn:E; simpl.
  - rewrite hasId_patched by exact Hp. rewrite E. reflexivity.
  - rewrite E. exact IH.
Qed.

Lemma updatePet_getPet_other (petId other : string) (patch : PetObj)
    (prev : list PetObj) :
  patch !! "id" = None -> other <> petId ->
  PetContext.getPet other (PetContext.updatePet petId patch prev)
  = PetContext.getPet other prev.
Proof.
  intros Hp Hne. unfold PetContext.getPet.
  induction prev as [|p rest IH]; [reflexivity|]. rewrite updatePet_cons. simpl.
  destruct (PetContext.hasId petId p) eqn:E; simpl.
  - rewrite hasId_patched by exact Hp.
    destruct (PetContext.hasId other p) eqn:Eo; [|reflexivity].
    rewrite (hasId_other petId other p Hne Eo) in E. discriminate E.
  - destruct (PetContext.hasId other p); [reflexivity | exact IH].
Qed.

(** X26.  [updatePet] with a patch that does not rename the pet.  The roster
    keeps its length; an id that no pet has leaves the roster as it is;
    otherwise the first pet with the id, the one [getPet] finds, gets the
    properties of the patch on top of its own, and the lookup of every other
    id is as before. *)
Theorem updatePet_patches_one_pet (petId : string) (patch : PetObj)
    (prev : list PetObj) :
  patch !! "id" = None ->
  List.length (PetContext.updatePet petId patch prev) = List.length prev /\
  (PetContext.getPet petId prev = None ->
   PetContext.updatePet petId patch prev = prev) /\
  PetContext.getPet petId (PetContext.updatePet petId patch prev)
  = (fun old => patch ∪ old) <$> PetContext.getPet petId prev /\
  forall other, other <> petId ->
    PetContext.getPet other (PetContext.updatePet petId patch prev)
    = PetContext.getPet other prev.
Proof.
  intro Hp. split; [apply updatePet_length|].
  split; [apply updatePet_missing|].
  split; [apply updatePet_getPet_same; exact Hp|].
  intros other Hne. apply updatePet_getPet_other; assumption.
Qed.

Lemma updatePet_patches_one_pet_witness :
  PetContext.getPet "pet_x"
    (PetContext.updatePet "pet_x" {["happiness" := VNum 1]}
       (PetContext.pets Scene.fullProvider))
  = (fun old => ({["happiness" := VNum 1]} : PetObj) ∪ old)
      <$> PetContext.getPet "pet_x" (PetContext.pets Scene.fullProvider).
Proof.
  apply (updatePet_patches_one_pet "pet_x" {["happiness" := VNum 1]}
           (PetContext.pets Scene.fullProvider)).
  vm_compute. reflexivity.
Defined.

(** X27.  [increaseHappiness] on a roster in sync with its ref, for a pet
    whose happiness is a number [h <= 1], and a non-negative amount: the new
    happiness [v] is at most 1 and not below [h]; it is [min(1, h + amount)],
    except that a happiness of exactly 0 counts as the default 0.5.  The
    roster has it on the pet [getPet] finds, whose other properties are kept,
    and the lookups of the other ids are as before. *)
Theorem increaseHappiness_capped (petId : string) (amount : option Q)
    (roster : list PetObj) (pet : PetObj) (h : Q) :
  PetContext.getPet petId roster = Some pet ->
  pet !! "happiness" = Some (VNum h) -> h <= 1 ->
  0 <= default (1 # 10) amount ->
  exists roster' v,
    PetContext.increaseHappiness petId amount roster roster
    = Some (roster', Some v) /\
    v <= 1 /\ h <= v /\
    v = Qmin 1 ((if Qeq_bool h 0 then 5 # 10 else h) + default (1 # 10) amount) /\
    (exists pet',
        PetContext.getPet petId roster' = Some pet' /\
        pet' !! "happiness" = Some (VNum v) /\
        forall k, k <> "happiness" -> pet' !! k = pet !! k) /\
    forall other, other <> petId ->
      PetContext.getPet other roster' = PetContext.getPet other roster.
Proof.
  intros Hpet Hh H1 Ha. unfold PetContext.increaseHappiness.
  rewrite Hpet, Hh. cbn [PetContext.numberOr mbind option_bind].
  set (v := Qmin 1 ((if Qeq_bool h 0 then 5 # 10 else h) + default (1 # 10) amount)).
  exists (PetContext.updatePet petId {["happiness" := VNum v]} roster), v.
  assert (Hnoid : ({["happiness" := VNum v]} : PetObj) !! "id" = None)
    by (apply lookup_singleton_ne; discriminate).
  split; [reflexivity|].
  split; [apply Q.le_min_l|].
  split.
  { unfold v. apply Q.min_glb; [exact H1|].
    destruct (Qeq_bool h 0) eqn:E; [|lra].
    apply Qeq_bool_iff in E. lra. }
  split; [reflexivity|].
  split.
  - exists ({["happiness" := VNum v]} ∪ pet).
    split; [rewrite updatePet_getPet_same by exact Hnoid; rewrite Hpet; reflexivity|].
    split.
    + apply lookup_union_Some_l. apply lookup_singleton_eq.
    + intros k Hk. apply lookup_union_r. apply lookup_singleton_ne. congruence.
  - intros other Hne. apply updatePet_getPet_other; assumption.
Qed.

Lemma increaseHappiness_capped_witness :
  exists roster' v,
    PetContext.increaseHappiness "pet_y" None
      [({["id" := VStr "pet_y"]} ∪ {["happiness" := VNum (95 # 100)]} : PetObj)]
      [({["id" := VStr "pet_y"]} ∪ {["happiness" := VNum (95 # 100)]} : PetObj)]
    = Some (roster', Some v) /\ v <= 1 /\ 95 # 100 <= v.
Proof.
  destruct (increaseHappiness_capped "pet_y" None
              [({["id" := VStr "pet_y"]} ∪ {["happiness" := VNum (95 # 100)]} : PetObj)]
              ({["id" := VStr "pet_y"]} ∪ {["happiness" := VNum (95 # 100)]})
              (95 # 100))
    as (roster' & v & E & H1 & H2 & _).
  - vm_compute. reflexivity.
  - vm_compute. reflexivity.
  - unfold Qle; simpl; lia.
  - unfold Qle; simpl; lia.
  - exists roster', v. auto.
Defined.

(** ** The activity history ([logActivity] of [PetContext.jsx]) *)

Lemma sliceLast_short {E : Type} (k : nat) (l : list E) :
  (List.length l <= k)%nat -> PetContext.sliceLast k l = l.
Proof.
  intro H. unfold PetContext.sliceLast.
  replace (List.length l - k)%nat with 0%nat by lia. reflexivity.
Qed.

Lemma sliceLast_length {E : Type} (k : nat) (l : list E) :
  List.length (PetContext.sliceLast k l) = Nat.min k (List.length l).
Proof. unfold PetContext.sliceLast. rewrite length_skipn. lia. Qed.

Lemma sliceLast_app_ge {E : Type} (k : nat) (x y : list E) :
  (k <= List.length y)%nat ->
  PetContext.sliceLast k (x ++ y)%list = PetContext.sliceLast k y.
Proof.
  intro H. unfold PetContext.sliceLast. rewrite length_app.
  replace (List.length x + List.length y - k)%nat
    with ((List.length y - k) + List.length x)%nat by lia.
  rewrite <- skipn_skipn. rewrite (skipn_app (List.length x)).
  rewrite skipn_all. rewrite Nat.sub_diag. reflexivity.
Qed.

Lemma sliceLast_idem_app {E : Type} (k : nat) (l m : list E) :
  PetContext.sliceLast k (PetContext.sliceLast k l ++ m)%list
  = PetContext.sliceLast k (l ++ m)%list.
Proof.
  destruct (Nat.le_gt_cases (List.length l) k) as [Hle|Hgt].
  - rewrite (sliceLast_short k l) by exact Hle. reflexivity.
  - rewrite <- (firstn_skipn (List.length l - k) l) at 2.
    rewrite <- app_assoc.
    symmetry. apply (sliceLast_app_ge k (firstn (List.length l - k) l)).
    rewrite length_app. fold (PetContext.sliceLast k l).
    rewrite sliceLast_length. lia.
Qed.

Lemma newHistory_sliceLast {E : Type} (history : list E) (entry : E) :
  PetContext.newHistory history entry
  = PetContext.sliceLast 50 (history ++ [entry])%list.
Proof.
  unfold PetContext.newHistory.
  destruct (Nat.le_gt_cases (List.length history) 49) as [Hle|Hgt].
  - rewrite sliceLast_short by exact Hle.
    rewrite sliceLast_short; [reflexivity|]. rewrite length_app. simpl. lia.
  - unfold PetContext.sliceLast. rewrite length_app. simpl.
    replace (List.length history + 1 - 50)%nat
      with (List.length history - 49)%nat by lia.
    rewrite skipn_app.
    replace (List.length history - 49 - List.length history)%nat with 0%nat by lia.
    reflexivity.
Qed.

(** Histories computed one from the other keep the last 50 entries. *)
Lemma newHistory_fold {E : Type} (entries : list E) (e : E) :
  forall history : list E,
    fold_left PetContext.newHistory (entries ++ [e])%list history
    = PetContext.sliceLast 50 (history ++ entries ++ [e])%list.
Proof.
  induction entries as [|x rest IH]; intro history.
  - apply newHistory_sliceLast.
  - cbn [app fold_left]. rewrite IH, newHistory_sliceLast, sliceLast_idem_app.
    rewrite <- app_assoc. reflexivity.
Qed.

Lemma historyOf_patch {E : Type} (petId : string) (h : list E)
    (prev : list (PetContext.Logged E)) :
  PetContext.historyOf petId prev <> None ->
  PetContext.historyOf petId (PetContext.patchHistory petId h prev) = Some h.
Proof.
  unfold PetContext.historyOf.
  induction prev as [|p rest IH]; cbn [PetContext.patchHistory List.find].
  - intro H. contradiction H. reflexivity.
  - destruct (PetContext.hasId petId (PetContext.lg_obj p)) eqn:Eid.
    + intros _. cbn [List.find PetContext.lg_obj]. rewrite Eid. reflexivity.
    + intro H. cbn [List.find]. rewrite Eid. apply IH. exact H.
Qed.

(** One call: the new history is built from the history the ref holds. *)
Lemma logActivity_history {E : Type} (petId : string) (entry : E)
    (current prev : list (PetContext.Logged E)) (h : list E) :
  PetContext.historyOf petId current = Some h ->
  PetContext.historyOf petId prev <> None ->
  PetContext.historyOf petId (PetContext.logActivity petId entry current prev)
  = Some (PetContext.newHistory h entry).
Proof.
  intros Hc Hp. unfold PetContext.logActivity.
  unfold PetContext.historyOf in Hc.
  destruct (List.find _ current) as [pet|]; [|discriminate Hc].
  injection Hc as ->. apply historyOf_patch. exact Hp.
Qed.

Lemma logEachRender_history {E : Type} (petId : string) (entries : list E) :
  forall (roster : list (PetContext.Logged E)) (h : list E),
    PetContext.historyOf petId roster = Some h ->
    PetContext.historyOf petId (PetContext.logEachRender petId entries roster)
    = Some (fold_left PetContext.newHistory entries h).
Proof.
  unfold PetContext.logEachRender.
  induction entries as [|x rest IH]; intros roster h Hr; [exact Hr|].
  cbn [fold_left]. apply IH. apply logActivity_history; [exact Hr|].
  rewrite Hr. discriminate.
Qed.

Lemma logBatch_found {E : Type} (petId : string)
    (current : list (PetContext.Logged E)) (h : list E) (entries : list E) :
  PetContext.historyOf petId current = Some h ->
  forall prev : list (PetContext.Logged E),
    PetContext.historyOf petId prev <> None ->
    PetContext.historyOf petId (PetContext.logBatch petId entries current prev)
    <> None.
Proof.
  intro Hc. unfold PetContext.logBatch.
  induction entries as [|x rest IH]; intros prev Hp; [exact Hp|].
  cbn [fold_left]. apply IH.
  rewrite (logActivity_history petId x current prev h Hc Hp). discriminate.
Qed.

(** X28.  The activity history keeps the last 50 entries, when the calls of
    [logActivity] for a pet of the roster come one per render, so that the
    effect has copied the roster to [petsRef.current] before each: after
    logging one entry or more the pet's history is the last 50 elements of
    the old history followed by the logged entries, in order; it has at
    most 50 elements and the entry logged last is its last element.  Calls
    in one batch all build on the history the ref held before the batch:
    after them the history is the last 49 elements of that history and the
    entry logged last, the entries logged before it are lost. *)
Theorem activity_history_keeps_last_50 {E : Type} (petId : string)
    (entries : list E) (e : E) (roster : list (PetContext.Logged E))
    (h : list E) :
  PetContext.historyOf petId roster = Some h ->
  PetContext.historyOf petId
    (PetContext.logEachRender petId (entries ++ [e])%list roster)
  = Some (PetContext.sliceLast 50 (h ++ entries ++ [e])%list) /\
  (List.length (PetContext.sliceLast 50 (h ++ entries ++ [e])%list) <= 50)%nat /\
  (exists older,
      PetContext.sliceLast 50 (h ++ entries ++ [e])%list = (older ++ [e])%list) /\
  PetContext.historyOf petId
    (PetContext.logBatch petId (entries ++ [e])%list roster roster)
  = Some (PetContext.sliceLast 49 h ++ [e])%list.
Proof.
  intro Hr. split; [|split; [|split]].
  - rewrite (logEachRender_history petId _ roster h Hr).
    rewrite newHistory_fold. reflexivity.
  - rewrite sliceLast_length. lia.
  - rewrite <- newHistory_fold. rewrite fold_left_app. cbn [fold_left].
    unfold PetContext.newHistory at 1. eexists. reflexivity.
  - unfold PetContext.logBatch. rewrite fold_left_app. cbn [fold_left].
    fold (PetContext.logBatch petId entries roster roster).
    apply (logActivity_history petId e roster _ h Hr).
    apply (logBatch_found petId roster h entries Hr). rewrite Hr. discriminate.
Qed.

Lemma activity_history_keeps_last_50_witness :
  PetContext.historyOf "pet_x"
    (PetContext.logEachRender "pet_x" ([61%nat; 62%nat] ++ [63%nat])%list
       [Scene.loggedPet 60])
  = Some (PetContext.sliceLast 50
            (List.seq 1 60 ++ [61%nat; 62%nat] ++ [63%nat])%list) /\
  (List.length (PetContext.sliceLast 50
                  (List.seq 1 60 ++ [61%nat; 62%nat] ++ [63%nat])%list)
   <= 50)%nat /\
  (exists older,
      PetContext.sliceLast 50 (List.seq 1 60 ++ [61%nat; 62%nat] ++ [63%nat])%list
      = (older ++ [63%nat])%list) /\
  PetContext.historyOf "pet_x"
    (PetContext.logBatch "pet_x" ([61%nat; 62%nat] ++ [63%nat])%list
       [Scene.loggedPet 60] [Scene.loggedPet 60])
  = Some (PetContext.sliceLast 49 (List.seq 1 60) ++ [63%nat])%list.
Proof.
  apply (activity_history_keeps_last_50 "pet_x" [61%nat; 62%nat] 63%nat
           [Scene.loggedPet 60] (List.seq 1 60)).
  reflexivity.
Defined.

(** ** The memory registry ([memory/guardian.js]) *)

(** In a consistent registry [unassignGuardian] clears the pet from every
    memory. *)
Lemma unassignGuardian_memory (petId m : string) (r : MemoryRegistry.Registry) :
  consistent r ->
  MemoryRegistry.memories (MemoryRegistry.unassignGuardian petId r) !! m
  = (fun mem => if idIs petId (MemoryRegistry.mem_guardianPetId mem)
                then MemoryRegistry.setGuardian mem None else mem)
      <$> MemoryRegistry.memories r !! m.
Proof.
  intros [H1 H2]. unfold MemoryRegistry.unassignGuardian.
  destruct (MemoryRegistry.assignments r !! petId) as [a|] eqn:Ea.
  - destruct (H1 petId a Ea) as (mem & Em & Eg). cbn [MemoryRegistry.memories].
    rewrite Em. replace (idIs petId (MemoryRegistry.mem_guardianPetId mem)) with true
      by (symmetry; apply idIs_true; exact Eg).
    destruct (decide (m = MemoryRegistry.ga_memoryId a)) as [->|Hne].
    + rewrite lookup_insert_eq, Em. cbn.
      replace (idIs petId (MemoryRegistry.mem_guardianPetId mem)) with true
        by (symmetry; apply idIs_true; exact Eg).
      reflexivity.
    + rewrite lookup_insert_ne by congruence.
      destruct (MemoryRegistry.memories r !! m) as [mem'|] eqn:Em'; [|reflexivity].
      cbn. destruct (idIs petId (MemoryRegistry.mem_guardianPetId mem')) eqn:Ei;
        [|reflexivity].
      apply idIs_true in Ei. destruct (H2 m mem' petId Em' Ei) as (_ & a' & Ea' & Em2).
      congruence.
  - destruct (MemoryRegistry.memories r !! m) as [mem'|] eqn:Em'; [|reflexivity].
    cbn. destruct (idIs petId (MemoryRegistry.mem_guardianPetId mem')) eqn:Ei;
      [|reflexivity].
    apply idIs_true in Ei. destruct (H2 m mem' petId Em' Ei) as (_ & a' & Ea' & _).
    congruence.
Qed.

Lemma unassignGuardian_consistent (petId : string) (r : MemoryRegistry.Registry) :
  consistent r -> consistent (MemoryRegistry.unassignGuardian petId r).
Proof.
  intro Hc. pose proof Hc as [H1 H2]. split.
  - intros p a. rewrite unassignGuardian_assignment.
    destruct (decide (p = petId)) as [->|Hne]; [discriminate|].
    intro Ea. destruct (H1 p a Ea) as (mem & Em & Eg).
    exists mem. rewrite unassignGuardian_memory by exact Hc. rewrite Em. cbn.
    replace (idIs petId (MemoryRegistry.mem_guardianPetId mem)) with false; [auto|].
    symmetry. destruct (idIs petId _) eqn:Ei; [|reflexivity].
    apply idIs_true in Ei. congruence.
  - intros m mem p. rewrite unassignGuardian_memory by exact Hc.
    destruct (MemoryRegistry.memories r !! m) as [mem0|] eqn:Em; [|discriminate].
    cbn. destruct (idIs petId (MemoryRegistry.mem_guardianPetId mem0)) eqn:Ei.
    + intro H. injection H as <-. cbn. discriminate.
    + intro H. injection H as <-. intro Eg.
      destruct (H2 m mem0 p Em Eg) as (Hp & a & Ea & Ema).
      split; [exact Hp|]. exists a. rewrite unassignGuardian_assignment.
      destruct (decide (p = petId)) as [->|Hne]; [|auto].
      assert (idIs petId (MemoryRegistry.mem_guardianPetId mem0) = true)
        by (apply idIs_true; exact Eg).
      congruence.
Qed.

Lemma truthy_Some (o : option string) (q : string) :
  MemoryRegistry.truthy o = Some q <-> o = Some q /\ q <> "".
Proof.
  unfold MemoryRegistry.truthy. destruct o as [s|].
  - destruct (String.eqb s "") eqn:E.
    + apply String.eqb_eq in E. split; [discriminate|]. intros [H Hq]. congruence.
    + apply String.eqb_neq in E. split.
      * intro H. injection H as <-. auto.
      * intros [H _]. exact H.
  - split; [discriminate | intros [H _]; discriminate H].
Qed.

Lemma truthy_None (o : option string) :
  MemoryRegistry.truthy o = None <-> o = None \/ o = Some "".
Proof.
  unfold MemoryRegistry.truthy. destruct o as [s|].
  - destruct (String.eqb s "") eqn:E.
    + apply String.eqb_eq in E. subst. split; auto.
    + apply String.eqb_neq in E. split; [discriminate|].
      intros [H|H]; [discriminate | congruence].
  - split; auto.
Qed.

Lemma removeMemory_consistent (id : string) (r : MemoryRegistry.Registry) :
  consistent r -> consistent (MemoryRegistry.removeMemory id r).
Proof.
  intro Hc. unfold MemoryRegistry.removeMemory.
  set (r1 := match MemoryRegistry.memories r !! id ≫=
                   (fun memory => MemoryRegistry.truthy
                                    (MemoryRegistry.mem_guardianPetId memory)) with
             | Some g => MemoryRegistry.unassignGuardian g r
             | None => r
             end).
  assert (Hc1 : consistent r1).
  { unfold r1. destruct (_ ≫= _); [apply unassignGuardian_consistent|]; exact Hc. }
  assert (Hfree : forall mem p, MemoryRegistry.memories r1 !! id = Some mem ->
                                MemoryRegistry.mem_guardianPetId mem <> Some p).
  { intros mem p Em Eg. unfold r1 in Em.
    destruct (MemoryRegistry.memories r !! id) as [mem0|] eqn:E0; cbn in Em.
    - destruct (MemoryRegistry.truthy (MemoryRegistry.mem_guardianPetId mem0))
        as [g|] eqn:Et.
      + apply truthy_Some in Et as [Eg0 _].
        rewrite unassignGuardian_memory in Em by exact Hc. rewrite E0 in Em.
        cbn in Em.
        replace (idIs g (MemoryRegistry.mem_guardianPetId mem0)) with true in Em
          by (symmetry; apply idIs_true; exact Eg0).
        injection Em as <-. discriminate Eg.
      + rewrite E0 in Em. injection Em as <-.
        destruct Hc as [_ H2]. destruct (H2 id mem0 p E0 Eg) as (Hp & _).
        apply truthy_None in Et as [Et|Et]; congruence.
    - congruence. }
  destruct Hc1 as [H1 H2]. split; cbn.
  - intros p a Ea. destruct (H1 p a Ea) as (mem & Em & Eg).
    exists mem. split; [|exact Eg].
    rewrite lookup_delete_ne; [exact Em|].
    intros ->. exact (Hfree mem p Em Eg).
  - intros m mem p Em Eg.
    destruct (decide (m = id)) as [->|Hne];
      [rewrite lookup_delete_eq in Em; discriminate|].
    rewrite lookup_delete_ne in Em by congruence.
    exact (H2 m mem p Em Eg).
Qed.

Lemma createMemory_consistent (id title : string) (x y z now : Q)
    (r : MemoryRegistry.Registry) :
  MemoryRegistry.memories r !! id = None ->
  consistent r -> consistent (MemoryRegistry.createMemory id title x y z now r).
Proof.
  intros Hfresh [H1 H2]. unfold MemoryRegistry.createMemory, MemoryRegistry.addMemory.
  split; cbn.
  - intros p a Ea. destruct (H1 p a Ea) as (mem & Em & Eg).
    exists mem. split; [|exact Eg].
    rewrite lookup_insert_ne; [exact Em|]. congruence.
  - intros m mem p Em Eg.
    destruct (decide (m = id)) as [->|Hne].
    + rewrite lookup_insert_eq in Em. injection Em as <-. discriminate Eg.
    + rewrite lookup_insert_ne in Em by congruence. exact (H2 m mem p Em Eg).
Qed.

Lemma updateBond_consistent (petId : string) (increase now : Q)
    (r : MemoryRegistry.Registry) :
  consistent r -> consistent (MemoryRegistry.updateBond petId increase now r).
Proof.
  intros [H1 H2]. unfold MemoryRegistry.updateBond.
  destruct (MemoryRegistry.assignments r !! petId) as [a0|] eqn:E0;
    [|split; assumption].
  split; cbn.
  - intros p a Ea. destruct (decide (p = petId)) as [->|Hne].
    + rewrite lookup_insert_eq in Ea. injection Ea as <-. cbn.
      exact (H1 petId a0 E0).
    + rewrite lookup_insert_ne in Ea by congruence. exact (H1 p a Ea).
  - intros m mem p Em Eg. destruct (H2 m mem p Em Eg) as (Hp & a & Ea & Ema).
    split; [exact Hp|]. destruct (decide (p = petId)) as [->|Hne].
    + eexists. rewrite lookup_insert_eq. split; [reflexivity|]. cbn. congruence.
    + exists a. rewrite lookup_insert_ne by congruence. auto.
Qed.

Lemma assignGuardian_consistent (petId memoryId : string) (now : Q)
    (r : MemoryRegistry.Registry) :
  petId <> "" -> consistent r ->
  consistent (snd (MemoryRegistry.assignGuardian petId memoryId now r)).
Proof.
  intros Hne Hc. unfold MemoryRegistry.assignGuardian.
  destruct (MemoryRegistry.memories r !! memoryId) as [memory0|] eqn:E0;
    [|exact Hc].
  set (r1 := MemoryRegistry.unassignGuardian petId r).
  assert (Hc1 : consistent r1) by (apply unassignGuardian_consistent; exact Hc).
  assert (Hno : MemoryRegistry.assignments r1 !! petId = None).
  { unfold r1. rewrite unassignGuardian_assignment.
    destruct (decide (petId = petId)); congruence. }
  destruct (MemoryRegistry.memories r1 !! memoryId) as [memory|] eqn:Em1.
  2:{ unfold r1 in Em1. rewrite unassignGuardian_memory in Em1 by exact Hc.
      rewrite E0 in Em1. discriminate Em1. }
  cbn [default snd].
  destruct Hc1 as [H1 H2].
  (* the assignment of the old guardian, if any, is the one removed *)
  set (asg := match MemoryRegistry.truthy (MemoryRegistry.mem_guardianPetId memory) with
              | Some old => delete old (MemoryRegistry.assignments r1)
              | None => MemoryRegistry.assignments r1
              end).
  assert (Hasg : forall p a,
             asg !! p = Some a <->
             MemoryRegistry.assignments r1 !! p = Some a /\
             MemoryRegistry.mem_guardianPetId memory <> Some p).
  { intros p a. unfold asg.
    destruct (MemoryRegistry.truthy (MemoryRegistry.mem_guardianPetId memory))
      as [old|] eqn:Et.
    - apply truthy_Some in Et as [Eg _]. rewrite Eg.
      destruct (decide (p = old)) as [->|Hp].
      + rewrite lookup_delete_eq. split; [discriminate | intros [_ H]; congruence].
      + rewrite lookup_delete_ne by congruence.
        split; [intro H; split; [exact H | congruence] | tauto].
    - split; [|tauto]. intro Ea. split; [exact Ea|]. intro Eg.
      destruct (H2 memoryId memory p Em1 Eg) as (Hp & _).
      apply truthy_None in Et as [Et|Et]; congruence. }
  split; cbn.
  - intros p a Ea. destruct (decide (p = petId)) as [->|Hp].
    + rewrite lookup_insert_eq in Ea. injection Ea as <-. cbn.
      eexists. rewrite lookup_insert_eq. split; reflexivity.
    + rewrite lookup_insert_ne in Ea by congruence.
      apply Hasg in Ea as [Ea Hg].
      destruct (H1 p a Ea) as (mem & Em & Eg).
      exists mem. split; [|exact Eg].
      rewrite lookup_insert_ne; [exact Em|].
      intro Heq. rewrite <- Heq in Em. congruence.
  - intros m mem p Em Eg. destruct (decide (m = memoryId)) as [->|Hm].
    + rewrite lookup_insert_eq in Em. injection Em as <-. cbn in Eg.
      injection Eg as <-. split; [exact Hne|].
      eexists. rewrite lookup_insert_eq. split; reflexivity.
    + rewrite lookup_insert_ne in Em by congruence.
      destruct (H2 m mem p Em Eg) as (Hp & a & Ea & Ema).
      split; [exact Hp|]. exists a. split; [|exact Ema].
      assert (Hpp : p <> petId) by congruence.
      rewrite lookup_insert_ne by congruence.
      apply Hasg. split; [exact Ea|]. intro Eg'.
      destruct (H2 memoryId memory p Em1 Eg') as (_ & a' & Ea' & Ema').
      congruence.
Qed.

(** X29.  The memory registry stays consistent.  Every call of
    [createMemory] under an id not in use, of [removeMemory],
    [unassignGuardian] and [updateBond], and of [assignGuardian] for a
    non-empty pet id, takes a registry whose two maps agree to one whose
    maps agree: a pet with an assignment is the guardian named by the
    assigned memory, and a guardian named by a memory has an assignment to
    it. *)
Theorem registry_stays_consistent (op : MemoryRegistry.Op)
    (r : MemoryRegistry.Registry) :
  consistent r -> opAllowed r op -> consistent (MemoryRegistry.runOp op r).
Proof.
  intros Hc Ha. destruct op as [id title x y z now|id|petId memoryId now
                               |petId|petId increase now]; cbn in *.
  - apply createMemory_consistent; assumption.
  - apply removeMemory_consistent; exact Hc.
  - apply assignGuardian_consistent; assumption.
  - apply unassignGuardian_consistent; exact Hc.
  - apply updateBond_consistent; exact Hc.
Qed.

Lemma empty_consistent : consistent MemoryRegistry.empty.
Proof.
  split; cbn; intros; rewrite lookup_empty in *; discriminate.
Qed.

Lemma registry_stays_consistent_witness :
  consistent (MemoryRegistry.runOp
                (MemoryRegistry.OpCreate "m1" "first day" 0 0 0 0)
                MemoryRegistry.empty).
Proof.
  apply registry_stays_consistent.
  - exact empty_consistent.
  - reflexivity.
Defined.

Lemma reachable_consistent (r : MemoryRegistry.Registry) :
  reachableRegistry r -> consistent r.
Proof.
  induction 1 as [|r op _ IH Ha]; [exact empty_consistent|].
  destruct op as [id title x y z now|id|petId memoryId now
                 |petId|petId increase now]; cbn in *.
  - apply createMemory_consistent; assumption.
  - apply removeMemory_consistent; exact IH.
  - apply assignGuardian_consistent; assumption.
  - apply unassignGuardian_consistent; exact IH.
  - apply updateBond_consistent; exact IH.
Qed.

Lemma reachable_bond (r : MemoryRegistry.Registry) :
  reachableRegistry r ->
  forall p a, MemoryRegistry.assignments r !! p = Some a ->
              MemoryRegistry.ga_bondLevel a <= 1.
Proof.
  induction 1 as [|r op _ IH Ha]; intros p a Ea.
  { cbn in Ea. rewrite lookup_empty in Ea. discriminate Ea. }
  destruct op as [id title x y z now|id|petId memoryId now
                 |petId|petId increase now]; cbn in Ea.
  - exact (IH p a Ea).
  - unfold MemoryRegistry.removeMemory in Ea. cbn in Ea.
    destruct (_ ≫= _) as [g|]; [|exact (IH p a Ea)].
    rewrite unassignGuardian_assignment in Ea.
    destruct (decide (p = g)); [discriminate | exact (IH p a Ea)].
  - unfold MemoryRegistry.assignGuardian in Ea.
    destruct (MemoryRegistry.memories r !! memoryId); [|exact (IH p a Ea)].
    cbn in Ea. destruct (decide (p = petId)) as [->|Hp].
    + rewrite lookup_insert_eq in Ea. injection Ea as <-. cbn.
      unfold Qle; simpl; lia.
    + rewrite lookup_insert_ne in Ea by congruence.
      destruct (MemoryRegistry.truthy _) as [old|].
      * destruct (decide (p = old)) as [->|Ho];
          [rewrite lookup_delete_eq in Ea; discriminate|].
        rewrite lookup_delete_ne in Ea by congruence.
        rewrite unassignGuardian_assignment in Ea.
        destruct (decide (p = petId)); [discriminate | exact (IH p a Ea)].
      * rewrite unassignGuardian_assignment in Ea.
        destruct (decide (p = petId)); [discriminate | exact (IH p a Ea)].
  - rewrite unassignGuardian_assignment in Ea.
    destruct (decide (p = petId)); [discriminate | exact (IH p a Ea)].
  - unfold MemoryRegistry.updateBond in Ea.
    destruct (MemoryRegistry.assignments r !! petId) as [a0|] eqn:E0;
      [|exact (IH p a Ea)].
    cbn in Ea. destruct (decide (p = petId)) as [->|Hp].
    + rewrite lookup_insert_eq in Ea. injection Ea as <-. cbn.
      apply Q.le_min_l.
    + rewrite lookup_insert_ne in Ea by congruence. exact (IH p a Ea).
Qed.

(** X30.  One guardian per memory, one memory per guardian.  In every
    registry reached from the empty one (ids of created memories not in use,
    guardian ids non-empty): the memory [getAssignedMemory] returns for a pet
    names that pet as its guardian; two pets with assignments to the same
    memory are the same pet; and the bond level of every pet is at most
    1. *)
Theorem guardian_is_unique (r : MemoryRegistry.Registry) :
  reachableRegistry r ->
  (forall p a, MemoryRegistry.getAssignment p r = Some a ->
     exists mem, MemoryRegistry.getAssignedMemory p r = Some mem /\
                 MemoryRegistry.mem_guardianPetId mem = Some p) /\
  (forall p1 p2 a1 a2,
     MemoryRegistry.getAssignment p1 r = Some a1 ->
     MemoryRegistry.getAssignment p2 r = Some a2 ->
     MemoryRegistry.ga_memoryId a1 = MemoryRegistry.ga_memoryId a2 ->
     p1 = p2) /\
  (forall p, MemoryRegistry.getBondLevel p r <= 1).
Proof.
  intro Hr. pose proof (reachable_consistent r Hr) as [H1 H2].
  unfold MemoryRegistry.getAssignment, MemoryRegistry.getAssignedMemory,
    MemoryRegistry.getBondLevel.
  split; [|split].
  - intros p a Ea. destruct (H1 p a Ea) as (mem & Em & Eg).
    exists mem. rewrite Ea. cbn. auto.
  - intros p1 p2 a1 a2 E1 E2 Em.
    destruct (H1 p1 a1 E1) as (m1 & Em1 & Eg1).
    destruct (H1 p2 a2 E2) as (m2 & Em2 & Eg2).
    rewrite Em in Em1. congruence.
  - intro p. destruct (MemoryRegistry.assignments r !! p) as [a|] eqn:Ea; cbn.
    + exact (reachable_bond r Hr p a Ea).
    + unfold Qle; simpl; lia.
Qed.

Lemma guardian_is_unique_witness :
  MemoryRegistry.getBondLevel "pet_a"
    (MemoryRegistry.runOp (MemoryRegistry.OpAssign "pet_a" "m1" 1)
       (MemoryRegistry.runOp (MemoryRegistry.OpCreate "m1" "first day" 0 0 0 0)
          MemoryRegistry.empty)) <= 1.
Proof.
  apply (guardian_is_unique
           (MemoryRegistry.runOp (MemoryRegistry.OpAssign "pet_a" "m1" 1)
              (MemoryRegistry.runOp
                 (MemoryRegistry.OpCreate "m1" "first day" 0 0 0 0)
                 MemoryRegistry.empty))).
  apply reach_op; [apply reach_op; [exact reach_empty | reflexivity]|].
  cbn. discriminate.
Defined.

(** [assignGuardian] succeeds exactly when the memory exists, and
    fails without touching the registry.  After a success the pet has a
    fresh assignment to that memory, stamped with the current time and with
    bond level 0 (also when it was the guardian of that memory before), and
    the memory names the pet as guardian. *)
Theorem assignGuardian_result (petId memoryId : string) (now : Q)
    (r : MemoryRegistry.Registry) :
  (fst (MemoryRegistry.assignGuardian petId memoryId now r) = true <->
   is_Some (MemoryRegistry.memories r !! memoryId)) /\
  (fst (MemoryRegistry.assignGuardian petId memoryId now r) = false ->
   snd (MemoryRegistry.assignGuardian petId memoryId now r) = r) /\
  (fst (MemoryRegistry.assignGuardian petId memoryId now r) = true ->
   MemoryRegistry.getAssignment petId
     (snd (MemoryRegistry.assignGuardian petId memoryId now r))
   = Some {| MemoryRegistry.ga_petId := petId;
             MemoryRegistry.ga_memoryId := memoryId;
             MemoryRegistry.ga_assignedAt := now;
             MemoryRegistry.ga_bondLevel := 0;
             MemoryRegistry.ga_lastVisit := now |} /\
   MemoryRegistry.getBondLevel petId
     (snd (MemoryRegistry.assignGuardian petId memoryId now r)) = 0 /\
   exists mem,
     MemoryRegistry.getAssignedMemory petId
       (snd (MemoryRegistry.assignGuardian petId memoryId now r)) = Some mem /\
     MemoryRegistry.mem_guardianPetId mem = Some petId).
Proof.
  unfold MemoryRegistry.assignGuardian, MemoryRegistry.getAssignment,
    MemoryRegistry.getBondLevel, MemoryRegistry.getAssignedMemory.
  destruct (MemoryRegistry.memories r !! memoryId) as [memory0|];
    cbn [fst snd MemoryRegistry.assignments MemoryRegistry.memories].
  - split; [split; [eauto | reflexivity]|]. split; [discriminate|].
    intros _. rewrite !lookup_insert_eq.
    split; [reflexivity|]. split; [reflexivity|].
    unfold mbind, option_bind. cbn [MemoryRegistry.ga_memoryId].
    eexists. split; [apply lookup_insert_eq | reflexivity].
  - split; [split; [discriminate | intros [x H]; discriminate H]|].
    split; [reflexivity | discriminate].
Qed.

(** ** Occupancy of the rest spots ([environment/restSpots.js]) *)

Lemma occupy_free (spotId petId : string)
    (spots : gmap string RestSpotRegistry.RestSpot)
    (spot : RestSpotRegistry.RestSpot) :
  spots !! spotId = Some spot -> RestSpotRegistry.spot_occupied spot = false ->
  RestSpotRegistry.occupy spotId petId spots
  = (true, <[spotId := RestSpotRegistry.setOccupant spot true (Some petId)]> spots).
Proof. intros E Eo. unfold RestSpotRegistry.occupy. rewrite E, Eo. reflexivity. Qed.

Lemma occupy_taken (spotId petId : string)
    (spots : gmap string RestSpotRegistry.RestSpot)
    (spot : RestSpotRegistry.RestSpot) :
  spots !! spotId = Some spot -> RestSpotRegistry.spot_occupied spot = true ->
  RestSpotRegistry.occupy spotId petId spots = (false, spots).
Proof. intros E Eo. unfold RestSpotRegistry.occupy. rewrite E, Eo. reflexivity. Qed.

(** A rest spot has one occupant at a time.  [occupy] succeeds exactly
    on a spot that exists and is not occupied, and fails without a change.
    After a success the spot is occupied by that pet, every later [occupy]
    of it fails until it is released, and after [release] it can be occupied
    again; no other spot is touched. *)
Theorem occupy_is_exclusive (spotId petId other : string)
    (spots : gmap string RestSpotRegistry.RestSpot) :
  (fst (RestSpotRegistry.occupy spotId petId spots) = true <->
   exists spot, spots !! spotId = Some spot /\
                RestSpotRegistry.spot_occupied spot = false) /\
  (fst (RestSpotRegistry.occupy spotId petId spots) = false ->
   snd (RestSpotRegistry.occupy spotId petId spots) = spots) /\
  (fst (RestSpotRegistry.occupy spotId petId spots) = true ->
   (exists spot,
       snd (RestSpotRegistry.occupy spotId petId spots) !! spotId = Some spot /\
       RestSpotRegistry.spot_occupied spot = true /\
       RestSpotRegistry.spot_occupantId spot = Some petId) /\
   RestSpotRegistry.occupy spotId other
     (snd (RestSpotRegistry.occupy spotId petId spots))
   = (false, snd (RestSpotRegistry.occupy spotId petId spots)) /\
   fst (RestSpotRegistry.occupy spotId other
          (RestSpotRegistry.release spotId
             (snd (RestSpotRegistry.occupy spotId petId spots)))) = true /\
   forall s, s <> spotId ->
     snd (RestSpotRegistry.occupy spotId petId spots) !! s = spots !! s).
Proof.
  destruct (spots !! spotId) as [spot|] eqn:Es.
  - destruct (RestSpotRegistry.spot_occupied spot) eqn:Eo.
    + rewrite (occupy_taken spotId petId spots spot Es Eo). cbn [fst snd].
      split; [split; [discriminate|]|].
      * intros (spot' & E & Eo'). congruence.
      * split; [reflexivity | discriminate].
    + rewrite (occupy_free spotId petId spots spot Es Eo). cbn [fst snd].
      split; [split; [eauto | reflexivity]|]. split; [discriminate|].
      intros _. split; [|split; [|split]].
      * eexists. rewrite lookup_insert_eq. split; [reflexivity|]. cbn. auto.
      * eapply occupy_taken; [apply lookup_insert_eq | reflexivity].
      * unfold RestSpotRegistry.release. rewrite lookup_insert_eq.
        erewrite occupy_free; [reflexivity | apply lookup_insert_eq | reflexivity].
      * intros s Hs. apply lookup_insert_ne. congruence.
  - unfold RestSpotRegistry.occupy. rewrite Es. cbn [fst snd].
    split; [split; [discriminate|]|].
    + intros (spot' & E & _). discriminate E.
    + split; [reflexivity | discriminate].
Qed.
